(** * The orchestration tier of the isolate server

    A shallow embedding of [isolate/server/server.py] (bridge manager,
    queue drainer, task runner, background-task registry) and of the
    worker side [isolate/connections/grpc/agent.py], followed by the
    properties proved about them.

    Python objects that are shared and mutated (agents, queues, tasks,
    futures) live in stores indexed by references; a dict is a [gmap];
    a Python list keeps its order, so [append] adds at the end and
    [pop()] removes the last element. *)

From stdpp Require Import base gmap list strings.
From Stdlib Require Import ZArith Lia.

Open Scope Z_scope.
Open Scope nat_scope.

(** ** Wire messages ([definitions]) *)

Inductive LogLevel := TRACE | DEBUG | INFO | WARNING | ERROR.
Inductive LogSource := BUILDER | BRIDGE | USER.

Record Log := mkLog {
  message : string;
  level : LogLevel;
  source : LogSource }.

Record SerializedObject := mkSerializedObject {
  method : string;
  definition : string;
  was_it_raised : bool;
  stringized_traceback : option string }.

Record PartialRunResult := mkPartialRunResult {
  is_complete : bool;
  logs : list Log;
  result : option SerializedObject }.

(** [grpc.StatusCode] *)
Inductive StatusCode :=
  OK | CANCELLED | UNKNOWN | INVALID_ARGUMENT | DEADLINE_EXCEEDED | NOT_FOUND
| ALREADY_EXISTS | PERMISSION_DENIED | RESOURCE_EXHAUSTED | FAILED_PRECONDITION
| ABORTED | OUT_OF_RANGE | UNIMPLEMENTED | INTERNAL | UNAVAILABLE | DATA_LOSS
| UNAUTHENTICATED.

(** ** Exceptions

    An exception raised by a collaborator is known to the server
    through [isinstance], [str()], [.code()] (on a [grpc.RpcError])
    and [traceback.format_exception]. *)
Record PyException := mkPyException {
  exc_classes : list string;
  exc_str : string;
  exc_code : StatusCode;
  exc_traceback : list string }.

Definition isinstance (exception : PyException) (class : string) : bool :=
  bool_decide (class ∈ exc_classes exception).

(** What a function of the server raises: its own [GRPCException], or
    an exception of a collaborator that it does not catch. *)
Inductive Raise :=
| GRPCException (message : string) (code : StatusCode)
| Uncaught (exception : PyException).

(** How a block of code ends. *)
Inductive Exit (A : Type) :=
| Returned (value : A)
| Raised (exception : Raise).
Arguments Returned {A} value.
Arguments Raised {A} exception.

(** Times are readings of [time.monotonic()] and durations (Python
    floats of seconds), taken as exact numbers and counted in ticks of
    one fixed resolution. *)
Definition Time := Z.

(** ** Agents and the bridge manager ([server.py], lines 68-166) *)

(** [grpc.ChannelConnectivity] *)
Inductive ChannelConnectivity :=
  IDLE | CONNECTING | READY | TRANSIENT_FAILURE | SHUTDOWN.

(** A [contextlib.ExitStack]: the only thing the server does with one
    is [close()] it. *)
Inductive ExitStack := Open | Closed.

Record RunnerAgent := mkRunnerAgent {
  stub : nat;
  message_queue : nat;
  _bound_context : ExitStack;
  _channel_state_history : list ChannelConnectivity }.

(** [RunnerAgent.__post_init__.switch_state] *)
Definition switch_state (connectivity_update : ChannelConnectivity)
    (self : RunnerAgent) : RunnerAgent :=
  mkRunnerAgent (stub self) (message_queue self) (_bound_context self)
    (_channel_state_history self ++ [connectivity_update]).

(** [RunnerAgent.is_accessible]: [history[-1]] raises [IndexError] on
    an empty list, which the code turns into [None]. *)
Definition is_accessible (self : RunnerAgent) : bool :=
  match last (_channel_state_history self) with
  | Some READY => true
  | _ => false
  end.

Definition check_connectivity (self : RunnerAgent) : bool :=
  is_accessible self.

(** [RunnerAgent.terminate] *)
Definition terminate (self : RunnerAgent) : RunnerAgent :=
  mkRunnerAgent (stub self) (message_queue self) Closed
    (_channel_state_history self).

(** [LocalPythonGRPC], as far as the server looks at it.  The bridge
    factory is a collaborator: it raises or yields a stub. *)
Record LocalPythonGRPC := mkLocalPythonGRPC {
  environment_path : string;
  extra_inheritance_paths : list string;
  _establish_bridge : Time → PyException + nat }.

(** The agent objects and [BridgeManager._agents]. *)
Record BridgeManager := mkBridgeManager {
  agent_store : gmap nat RunnerAgent;
  _agents : gmap (list string) (list nat) }.

Definition _identify (connection : LocalPythonGRPC) : list string :=
  environment_path connection :: extra_inheritance_paths connection.

(** [defaultdict(list)]: a missing key reads as the empty list. *)
Definition agents_of (key : list string) (self : BridgeManager) : list nat :=
  default [] (_agents self !! key).

Definition _cache_agent (connection : LocalPythonGRPC) (agent : nat)
    (self : BridgeManager) : BridgeManager :=
  mkBridgeManager (agent_store self)
    (<[_identify connection := agents_of (_identify connection) self ++ [agent]]>
       (_agents self)).

(** The [while available_agents] loop of [_allocate_new_agent].  The
    candidates are given top of the stack first (the order in which
    [pop()] returns them); the result is the agent found, the
    candidates left on the stack and the store after the terminations. *)
Fixpoint pop_accessible (candidates : list nat) (store : gmap nat RunnerAgent)
    : option nat * list nat * gmap nat RunnerAgent :=
  match candidates with
  | [] => (None, [], store)
  | agent :: rest =>
      if from_option check_connectivity false (store !! agent)
      then (Some agent, rest, store)
      else pop_accessible rest (alter terminate agent store)
  end.

Section BridgeManager.
Variable MAX_GRPC_WAIT_TIMEOUT : Time.

Definition _allocate_new_agent (connection : LocalPythonGRPC) (queue : nat)
    (self : BridgeManager) : Exit nat * BridgeManager :=
  let key := _identify connection in
  let '(found, rest, store) :=
    pop_accessible (rev (agents_of key self)) (agent_store self) in
  let pool := <[key := rev rest]> (_agents self) in
  match found with
  | Some agent => (Returned agent, mkBridgeManager store pool)
  | None =>
      match _establish_bridge connection MAX_GRPC_WAIT_TIMEOUT with
      | inl exception => (Raised (Uncaught exception), mkBridgeManager store pool)
      | inr stub =>
          let agent := fresh (dom store) in
          (Returned agent,
           mkBridgeManager
             (<[agent := mkRunnerAgent stub queue Open []]> store) pool)
      end
  end.

(** [BridgeManager.establish] used as [with ... as agent: body]:
    [try: yield agent / finally: self._cache_agent(connection, agent)].
    The body works on the bridge manager and on whatever else [S] the
    caller has at hand; it ends with [Some exit], or with [None] when
    it is a generator that is still suspended inside the block. *)
Definition establish {A S : Type}
    (connection : LocalPythonGRPC) (queue : nat)
    (body : nat → BridgeManager → S → option (Exit A) * BridgeManager * S)
    (self : BridgeManager) (rest : S)
    : option (Exit A) * BridgeManager * S :=
  match _allocate_new_agent connection queue self with
  | (Raised exception, self1) => (Some (Raised exception), self1, rest)
  | (Returned agent, self1) =>
      match body agent self1 rest with
      | (None, self2, rest2) => (None, self2, rest2)
      | (Some exit, self2, rest2) =>
          (Some exit, _cache_agent connection agent self2, rest2)
      end
  end.

(** [BridgeManager.__exit__] *)
Definition bridge_manager_exit (self : BridgeManager) : BridgeManager :=
  mkBridgeManager
    (foldr (alter terminate) (agent_store self)
       (concat (map_to_list (_agents self)).*2))
    (_agents self).
End BridgeManager.

(** ** The per-task queue and its drainer ([server.py], lines 380-460)

    The drainer runs on the handler thread; the log hook and the
    callable submitted to [local_pool] run on other threads.  What
    those threads do is given as events, grouped by the point of the
    drainer's code before which they happen. *)

Inductive Event :=
| LogHook (queue : nat) (log : Log)
    (** [LogHandler(queue).handle(log)] *)
| Producer
    (** the callable submitted to [local_pool] moves on: it puts its
        next element on the queue, or returns when none is left *)
| Tick (dt : N)
    (** time passes *).

(** The queues, the callable being watched ([pending]: what it will
    still put on its queue, [done]: [future.done()]) and the clock.
    [put_log] records every call of [put_nowait], in order; no code
    reads it, the properties are stated with it. *)
Record World := mkWorld {
  queues : gmap nat (list PartialRunResult);
  pending : list PartialRunResult;
  done : bool;
  clock : Time;
  put_log : list (nat * PartialRunResult) }.

Definition queue_of (queue : nat) (w : World) : list PartialRunResult :=
  default [] (queues w !! queue).

Definition put_nowait (queue : nat) (item : PartialRunResult) (w : World) : World :=
  mkWorld (<[queue := queue_of queue w ++ [item]]> (queues w))
    (pending w) (done w) (clock w) (put_log w ++ [(queue, item)]).

Definition set_queue (queue : nat) (items : list PartialRunResult) (w : World) : World :=
  mkWorld (<[queue := items]> (queues w)) (pending w) (done w) (clock w)
    (put_log w).

Definition advance (dt : Z) (w : World) : World :=
  mkWorld (queues w) (pending w) (done w) (clock w + dt)%Z (put_log w).

(** What the drainer yields, with the clock reading at the [yield] and
    whether the element is the drainer's own empty packet. *)
Record Emission := mkEmission {
  at_time : Time;
  synthetic : bool;
  element : PartialRunResult }.

(** One turn of the [while not is_completed()] loop: the events before
    [is_completed()] is called, those before [queue.get] returns, and
    those between the two readings of the clock in the handler of
    [QueueEmpty]. *)
Record Round := mkRound {
  before_check : list Event;
  during_get : list Event;
  before_reset : list Event }.

Section Drainer.
Variable EMPTY_MESSAGE_INTERVAL : Time.
Variable _Q_WAIT_DELAY : Time.
Variable to_grpc : Log → Log.

(** [LogHandler._add_log_to_queue] *)
Definition _add_log_to_queue (messages : nat) (log : Log) (w : World) : World :=
  let grpc_log := to_grpc log in
  let grpc_result := mkPartialRunResult false [grpc_log] None in
  put_nowait messages grpc_result w.

(** [LogHandler.handle] (the server's own logger is not modelled) *)
Definition handle (messages : nat) (log : Log) (w : World) : World :=
  _add_log_to_queue messages log w.

(** [_proxy_to_queue] and [environment.create] as seen from the
    drainer: [target] is the queue the pump was given. *)
Definition apply_event (target : nat) (e : Event) (w : World) : World :=
  match e with
  | LogHook queue log => handle queue log w
  | Producer =>
      match pending w with
      | item :: rest =>
          put_nowait target item
            (mkWorld (queues w) rest (done w) (clock w) (put_log w))
      | [] => mkWorld (queues w) [] true (clock w) (put_log w)
      end
  | Tick dt => advance (Z.of_N dt) w
  end.

Definition apply_events (target : nat) (es : list Event) (w : World) : World :=
  foldl (λ w e, apply_event target e w) w es.

(** The [while not queue.empty()] loop.  One batch of events happens
    before each call of [queue.empty()]; when the batches are used up
    nothing more happens and the loop empties the queue.  The drainer
    is the only consumer, so [get_nowait] cannot raise. *)
Fixpoint clear_final_messages (queue : nat) (batches : list (list Event))
    (w : World) : list Emission * World :=
  match batches with
  | [] =>
      (map (mkEmission (clock w) false) (queue_of queue w),
       set_queue queue [] w)
  | batch :: batches' =>
      let w1 := apply_events queue batch w in
      match queue_of queue w1 with
      | [] => ([], w1)
      | item :: items =>
          let '(out, w2) :=
            clear_final_messages queue batches' (set_queue queue items w1) in
          (mkEmission (clock w1) false item :: out, w2)
      end
  end.

(** The [while not is_completed()] loop, with the value of [timer].
    It gives back what was yielded, whether the loop was left, and the
    world at that moment; the loop is still running when the rounds
    given are used up before [is_completed()] answered [True]. *)
Fixpoint watch_loop (queue : nat) (timer : Time) (rounds : list Round)
    (w : World) : list Emission * bool * World :=
  match rounds with
  | [] => ([], false, w)
  | r :: rounds' =>
      let w1 := apply_events queue (before_check r) w in
      if done w1 then ([], true, w1)
      else
        let w2 := apply_events queue (during_get r) w1 in
        match queue_of queue w2 with
        | item :: items =>
            (* [queue.get] returned [item] *)
            let w3 := apply_events queue (before_reset r)
                        (set_queue queue items w2) in
            let '(out, exited, final) := watch_loop queue timer rounds' w3 in
            (mkEmission (clock w2) false item :: out, exited, final)
        | [] =>
            (* [QueueEmpty] after [_Q_WAIT_DELAY] *)
            let w3 := advance _Q_WAIT_DELAY w2 in
            if decide (clock w3 - timer > EMPTY_MESSAGE_INTERVAL)%Z then
              let w4 := apply_events queue (before_reset r) w3 in
              let '(out, exited, final) :=
                watch_loop queue (clock w4) rounds' w4 in
              (mkEmission (clock w4) true (mkPartialRunResult false [] None)
                 :: out, exited, final)
            else
              watch_loop queue timer rounds'
                (apply_events queue (before_reset r) w3)
        end
  end.

(** [IsolateServicer.watch_queue_until_completed]; [is_completed] is
    [future.done] of the callable the events speak of. *)
Definition watch_queue_until_completed (queue : nat)
    (rounds : list Round) (batches : list (list Event)) (w : World)
    : list Emission * bool * World :=
  let timer := clock w in
  match watch_loop queue timer rounds w with
  | (out, false, w1) => (out, false, w1)
  | (out, true, w1) =>
      let '(out', w2) := clear_final_messages queue batches w1 in
      (out ++ out', true, w2)
  end.

(** [IsolateServicer.log] *)
Definition log (message : string) (level : LogLevel) (source : LogSource)
    : list PartialRunResult :=
  [mkPartialRunResult false [to_grpc (mkLog message level source)] None].
End Drainer.

(** The loop once more, with the subtraction of line 396 as a
    parameter.  The readings of the clock are floats, and
    [elapsed now timer] stands for the float [now - timer], which is
    the exact difference rounded; the comparison with
    [EMPTY_MESSAGE_INTERVAL] is exact.  [watch_loop] is this loop with
    the subtraction taken as exact. *)
Section RoundedDrainer.
Variable EMPTY_MESSAGE_INTERVAL : Time.
Variable _Q_WAIT_DELAY : Time.
Variable to_grpc : Log → Log.
Variable elapsed : Time → Time → Time.

Fixpoint watch_loop_rounded (queue : nat) (timer : Time) (rounds : list Round)
    (w : World) : list Emission * bool * World :=
  match rounds with
  | [] => ([], false, w)
  | r :: rounds' =>
      let w1 := apply_events to_grpc queue (before_check r) w in
      if done w1 then ([], true, w1)
      else
        let w2 := apply_events to_grpc queue (during_get r) w1 in
        match queue_of queue w2 with
        | item :: items =>
            (* [queue.get] returned [item] *)
            let w3 := apply_events to_grpc queue (before_reset r)
                        (set_queue queue items w2) in
            let '(out, exited, final) :=
              watch_loop_rounded queue timer rounds' w3 in
            (mkEmission (clock w2) false item :: out, exited, final)
        | [] =>
            (* [QueueEmpty] after [_Q_WAIT_DELAY] *)
            let w3 := advance _Q_WAIT_DELAY w2 in
            if decide (elapsed (clock w3) timer > EMPTY_MESSAGE_INTERVAL)%Z
            then
              let w4 := apply_events to_grpc queue (before_reset r) w3 in
              let '(out, exited, final) :=
                watch_loop_rounded queue (clock w4) rounds' w4 in
              (mkEmission (clock w4) true (mkPartialRunResult false [] None)
                 :: out, exited, final)
            else
              watch_loop_rounded queue timer rounds'
                (apply_events to_grpc queue (before_reset r) w3)
        end
  end.
End RoundedDrainer.

(** ** More wire messages *)

Module FunctionCall.
Record t := mk {
  function : SerializedObject;
  setup_func : option SerializedObject }.
End FunctionCall.

Module EnvironmentDefinition.
Record t := mk {
  kind : string;
  configuration : string;
  force : bool }.
End EnvironmentDefinition.

Module BoundFunction.
Record t := mk {
  environments : list EnvironmentDefinition.t;
  function : SerializedObject;
  setup_func : option SerializedObject }.
End BoundFunction.

(** ** The worker side ([connections/grpc/agent.py], lines 33-172)

    The user's objects and what is done with them (deserializing,
    calling, serializing, hashing) belong to collaborators.  A call
    that can raise gives [inl] of the exception object with the text of
    [traceback.format_exc()], or [inr] of its value. *)

Inductive Serialization :=
| Serialized (definition : string)
| SerializationError
| OtherSerializationFailure.

(** How the streaming RPC of the agent ends. *)
Inductive RpcEnd :=
| Completed
| Aborted (code : StatusCode) (details : string).

Module AgentServicer.
Section AgentServicer.
Variable Obj : Type.
Variable from_grpc : SerializedObject → (Obj * string) + Obj.
Variable callable : Obj → bool.
Variable type_name : Obj → string.
Variable type_repr : Obj → string.
Variable call : Obj → list Obj → (Obj * string) + Obj.
Variable serialize_object : string → Obj → Serialization.
Variable sha256_digest_of : string → string → string.

(** [execute_function]; [inl] is the message of an [AbortException]. *)
Definition execute_function (function : SerializedObject)
    (function_kind : string) (extra_args : list Obj)
    : string + (Obj * bool * option string) :=
  if was_it_raised function then
    inl ("The " +:+ function_kind +:+
         " function must be callable, not a raised exception.")
  else
    match from_grpc function with
    | inl (exc, traceback) => inr (exc, true, Some traceback)
    | inr function =>
        if negb (callable function) then
          inl ("The " +:+ function_kind +:+
               " function must be callable, not " +:+ type_name function
               +:+ ".")
        else
          match call function extra_args with
          | inl (exc, stringized_tb) => inr (exc, true, Some stringized_tb)
          | inr result => inr (result, false, None)
          end
    end.

(** [send_object]; [inl] is the message of an [AbortException]. *)
Definition send_object (serialization_method : string) (result : Obj)
    (was_it_raised : bool) (stringized_tb : option string)
    : string + PartialRunResult :=
  match serialize_object serialization_method result with
  | SerializationError =>
      inl ("Error while serializing the execution result (object of type "
           +:+ type_repr result +:+ ").")
  | OtherSerializationFailure =>
      inl "An unexpected error occurred while serializing the result."
  | Serialized definition =>
      let serialized_obj :=
        mkSerializedObject serialization_method definition was_it_raised
          stringized_tb in
      inr (mkPartialRunResult true [] (Some serialized_obj))
  end.

(** The second [try] block of [Run]: run the function itself. *)
Definition run_function (request : FunctionCall.t) (extra_args : list Obj)
    (_run_cache : gmap string Obj)
    : list PartialRunResult * RpcEnd * gmap string Obj :=
  match execute_function (FunctionCall.function request) "function"
          extra_args with
  | inl message => ([], Aborted INVALID_ARGUMENT message, _run_cache)
  | inr (result, was_it_raised, stringized_tb) =>
      match send_object (method (FunctionCall.function request)) result
              was_it_raised stringized_tb with
      | inl message => ([], Aborted INVALID_ARGUMENT message, _run_cache)
      | inr packet => ([packet], Completed, _run_cache)
      end
  end.

(** [AgentServicer.Run]: the elements yielded, how the RPC ends
    ([context.abort] raises, so nothing runs after it) and the cache of
    set-up results. *)
Definition Run (request : FunctionCall.t) (_run_cache : gmap string Obj)
    : list PartialRunResult * RpcEnd * gmap string Obj :=
  match FunctionCall.setup_func request with
  | None => run_function request [] _run_cache
  | Some setup_func =>
      let cache_key :=
        sha256_digest_of (definition setup_func) (method setup_func) in
      match _run_cache !! cache_key with
      | Some cached => run_function request [cached] _run_cache
      | None =>
          match execute_function setup_func "setup" [] with
          | inl message => ([], Aborted INVALID_ARGUMENT message, _run_cache)
          | inr (result, was_it_raised, stringized_tb) =>
              if was_it_raised then
                match send_object (method setup_func) result was_it_raised
                        stringized_tb with
                | inl message =>
                    ([], Aborted INVALID_ARGUMENT message, _run_cache)
                | inr packet =>
                    ([packet],
                     Aborted INVALID_ARGUMENT
                       "The setup function has thrown an error.",
                     _run_cache)
                end
              else
                let _run_cache := <[cache_key := result]> _run_cache in
                run_function request [result] _run_cache
          end
      end
  end.
End AgentServicer.
End AgentServicer.

(** ** The task runner ([server.py], lines 169-314) *)

Record Task := mkTask {
  request : BoundFunction.t;
  future : option nat;
  agent : option nat }.

(** What happens while one environment is built: the events around the
    drainer, and what [environment.create] returns or raises. *)
Record Build := mkBuild {
  build_rounds : list Round;
  build_batches : list (list Event);
  build_result : PyException + string }.

(** What happens while the agent is running the call: the elements
    that [bridge.Run(input)] yields, the exception that ends the pump
    (if any), and the events around the drainer. *)
Record Pump := mkPump {
  agent_stream : list PartialRunResult;
  pump_exception : option PyException;
  pump_rounds : list Round;
  pump_batches : list (list Event) }.

Global Instance RunnerAgent_inhabited : Inhabited RunnerAgent :=
  populate (mkRunnerAgent 0 0 Open []).

(** What [primary_path, *inheritance_paths = []] would raise. *)
Definition unpack_error : PyException :=
  mkPyException ["ValueError"; "Exception"]
    "not enough values to unpack (expected at least 1, got 0)" UNKNOWN [].

Section TaskRunner.
Variable EMPTY_MESSAGE_INTERVAL : Time.
Variable _Q_WAIT_DELAY : Time.
Variable MAX_GRPC_WAIT_TIMEOUT : Time.
Variable to_grpc : Log → Log.
Variable AGENT_REQUIREMENTS : list string.
Variable INHERIT_FROM_LOCAL : bool.

(** The collaborators: environments ([from_grpc], the builders), the
    connection and the agent stub. *)
Variable Env : Type.
Variable from_grpc : EnvironmentDefinition.t → PyException + Env.
Variable python_version : Env → option string.
Variable active_python : string.
Variable VirtualPythonEnvironment : list string → string → Env.
Variable local_environment_path : string.
Variable create : Env → bool → Build.
Variable bridge_factory :
  Env → string → list string → Time → PyException + nat.
Variable bridge_Run : nat → FunctionCall.t → Pump.

(** Lines 196-202: the loop that decodes the environments. *)
Fixpoint decode_environments (definitions : list EnvironmentDefinition.t)
    : Exit (list (bool * Env)) :=
  match definitions with
  | [] => Returned []
  | env :: rest =>
      match from_grpc env with
      | inl exc =>
          if isinstance exc "ValueError" then
            Raised (GRPCException
                      ("Unknown environment kind: " +:+
                       EnvironmentDefinition.kind env)
                      INVALID_ARGUMENT)
          else if isinstance exc "TypeError" then
            Raised (GRPCException ("Invalid environment: " +:+ exc_str exc)
                      INVALID_ARGUMENT)
          else Raised (Uncaught exc)
      | inr environment =>
          match decode_environments rest with
          | Returned environments =>
              Returned ((EnvironmentDefinition.force env, environment)
                          :: environments)
          | Raised exception => Raised exception
          end
      end
  end.

(** Lines 240-251: build the environments one after the other,
    draining the queue while each one is built.  [None]: the drainer is
    still waiting for a builder. *)
Fixpoint build_environments (messages : nat) (environments : list (bool * Env))
    (w : World) : list PartialRunResult * option (Exit (list string)) * World :=
  match environments with
  | [] => ([], Some (Returned []), w)
  | (should_force_create, environment) :: rest =>
      let build := create environment should_force_create in
      let w0 := mkWorld (queues w) [] false (clock w) (put_log w) in
      match watch_queue_until_completed EMPTY_MESSAGE_INTERVAL _Q_WAIT_DELAY
              to_grpc messages (build_rounds build) (build_batches build) w0
      with
      | (out, false, w1) => (element <$> out, None, w1)
      | (out, true, w1) =>
          match build_result build with
          | inl e =>
              if isinstance e "EnvironmentCreationError" then
                (element <$> out,
                 Some (Raised (GRPCException (exc_str e) INVALID_ARGUMENT)),
                 w1)
              else (element <$> out, Some (Raised (Uncaught e)), w1)
          | inr path =>
              let '(out', exit, w2) := build_environments messages rest w1 in
              ((element <$> out) ++ out',
               match exit with
               | Some (Returned environment_paths) =>
                   Some (Returned (path :: environment_paths))
               | other => other
               end,
               w2)
          end
      end
  end.

(** Lines 288-310: what is done with [future.exception()] of the pump. *)
Definition classify_pump_exception (exception : option PyException)
    : list PartialRunResult * Exit unit :=
  match exception with
  | None => ([], Returned ())
  | Some exception =>
      if isinstance exception "RpcError" then
        ([], Raised (GRPCException (exc_str exception) (exc_code exception)))
      else
        let lines :=
          flat_map (λ line, log to_grpc line ERROR BRIDGE)
            (exc_traceback exception) in
        if isinstance exception "AgentError" then
          (lines, Raised (GRPCException (exc_str exception) ABORTED))
        else
          (lines,
           Raised (GRPCException
                     ("An unexpected error occurred: " +:+ exc_str exception
                      +:+ ".")
                     UNKNOWN))
  end.

(** Lines 264-310: the body of [with self.bridge_manager.establish(...)]. *)
Definition dispatch (agent : nat) (bridge_manager : BridgeManager)
    (state : Task * World * list PartialRunResult)
    : option (Exit unit) * BridgeManager
      * (Task * World * list PartialRunResult) :=
  let '(task, w, yielded) := state in
  let task := mkTask (request task) (future task) (Some agent) in
  let function_call :=
    FunctionCall.mk (BoundFunction.function (request task))
      (BoundFunction.setup_func (request task)) in
  let runner := agent_store bridge_manager !!! agent in
  let pump := bridge_Run (stub runner) function_call in
  let w0 := mkWorld (queues w) (agent_stream pump) false (clock w)
              (put_log w) in
  match watch_queue_until_completed EMPTY_MESSAGE_INTERVAL _Q_WAIT_DELAY
          to_grpc (message_queue runner) (pump_rounds pump)
          (pump_batches pump) w0
  with
  | (out, false, w1) =>
      (None, bridge_manager, (task, w1, yielded ++ (element <$> out)))
  | (out, true, w1) =>
      let '(lines, exit) := classify_pump_exception (pump_exception pump) in
      (Some exit, bridge_manager,
       (task, w1, yielded ++ (element <$> out) ++ lines))
  end.

(** [IsolateServicer._run_task]: the elements yielded, how the
    generator ends ([None]: it is still suspended), the task, the
    bridge manager and the world afterwards.  Applying the run
    settings (lines 210-218) decides where the log hook of the
    environments puts its logs, which the events of [Build] and [Pump]
    say. *)
Definition _run_task (task : Task) (bridge_manager : BridgeManager) (w : World)
    : list PartialRunResult * option (Exit unit) * Task * BridgeManager * World :=
  let messages := fresh (dom (queues w)) in
  let w := set_queue messages [] w in
  match decode_environments (BoundFunction.environments (request task)) with
  | Raised exception => ([], Some (Raised exception), task, bridge_manager, w)
  | Returned [] =>
      ([],
       Some (Raised (GRPCException
                       "At least one environment must be specified for a run!"
                       INVALID_ARGUMENT)),
       task, bridge_manager, w)
  | Returned ((primary_force, primary_environment) :: others) =>
      let environments :=
        match AGENT_REQUIREMENTS with
        | [] => (primary_force, primary_environment) :: others
        | _ =>
            let agent_environ :=
              VirtualPythonEnvironment AGENT_REQUIREMENTS
                (default active_python (python_version primary_environment)) in
            (primary_force, primary_environment)
              :: (false, agent_environ) :: others
        end in
      let extra_inheritance_paths :=
        if INHERIT_FROM_LOCAL then [local_environment_path] else [] in
      match build_environments messages environments w with
      | (yielded, None, w1) => (yielded, None, task, bridge_manager, w1)
      | (yielded, Some (Raised exception), w1) =>
          (yielded, Some (Raised exception), task, bridge_manager, w1)
      | (yielded, Some (Returned []), w1) =>
          (yielded, Some (Raised (Uncaught unpack_error)), task,
           bridge_manager, w1)
      | (yielded, Some (Returned (primary_path :: inheritance_paths)), w1) =>
          let inheritance_paths :=
            inheritance_paths ++ extra_inheritance_paths in
          let connection :=
            mkLocalPythonGRPC primary_path inheritance_paths
              (bridge_factory primary_environment primary_path
                 inheritance_paths) in
          let '(exit, bridge_manager, (task, w2, yielded)) :=
            establish MAX_GRPC_WAIT_TIMEOUT connection messages dispatch
              bridge_manager (task, w1, yielded) in
          (yielded, exit, task, bridge_manager, w2)
      end
  end.

(** How [IsolateServicer.Run] leaves the RPC: no status set, a status
    set by [abort_with_msg], or an exception it does not catch. *)
Inductive RunEnd :=
| RunReturned
| RunAborted (code : StatusCode) (details : string)
| RunCrashed (exception : PyException).

(** [IsolateServicer.Run] *)
Definition Run (request : BoundFunction.t) (bridge_manager : BridgeManager)
    (w : World)
    : list PartialRunResult * option RunEnd * BridgeManager * World :=
  let '(yielded, exit, _, bridge_manager, w) :=
    _run_task (mkTask request None None) bridge_manager w in
  (yielded,
   match exit with
   | None => None
   | Some (Returned _) => Some RunReturned
   | Some (Raised (GRPCException message code)) => Some (RunAborted code message)
   | Some (Raised (Uncaught exception)) => Some (RunCrashed exception)
   end,
   bridge_manager, w).
End TaskRunner.

(** ** Background tasks ([server.py], lines 169-184 and 316-378)

    [Submit] hands the task to [RUNNER_THREAD_POOL]; the worker threads
    of the pool and the handler threads of the RPC server run side by
    side.  A [concurrent.futures.Future] is modelled by its state and
    its done-callbacks; every callback the server adds is the
    [_callback] of [Submit], which pops one task id.

    [Future.cancel], [set_result] and [set_exception] set the state
    while they hold the lock of the future and call
    [_invoke_callbacks] after they have released it; the two are
    steps of their own here, so that other threads can see the new
    state while the callbacks have not run yet. *)

Inductive FutureState :=
  PENDING | RUNNING | CANCELLED_ | CANCELLED_AND_NOTIFIED | FINISHED.

Record Future := mkFuture {
  _state : FutureState;
  _exception : option PyException;
  _done_callbacks : list string }.

Definition is_terminal (state : FutureState) : bool :=
  match state with
  | CANCELLED_ | CANCELLED_AND_NOTIFIED | FINISHED => true
  | PENDING | RUNNING => false
  end.

(** The servicer with the objects its fields and threads refer to. *)
Record IsolateServicer := mkIsolateServicer {
  bridge_manager : BridgeManager;
  background_tasks : gmap string nat;
  task_store : gmap nat Task;
  future_store : gmap nat Future }.

Definition with_tasks (background_tasks : gmap string nat)
    (self : IsolateServicer) : IsolateServicer :=
  mkIsolateServicer (bridge_manager self) background_tasks (task_store self)
    (future_store self).

Definition with_future (f : nat) (fut : Future) (self : IsolateServicer)
    : IsolateServicer :=
  mkIsolateServicer (bridge_manager self) (background_tasks self)
    (task_store self) (<[f := fut]> (future_store self)).

Definition with_task (t : nat) (task : Task) (self : IsolateServicer)
    : IsolateServicer :=
  mkIsolateServicer (bridge_manager self) (background_tasks self)
    (<[t := task]> (task_store self)) (future_store self).

(** [Submit._callback], for each callback of the future:
    [self.background_tasks.pop(task_id, None)]. *)
Definition _invoke_callbacks (fut : Future) (self : IsolateServicer)
    : IsolateServicer :=
  with_tasks
    (foldl (λ tasks task_id, delete task_id tasks) (background_tasks self)
       (_done_callbacks fut))
    self.

(** What is done under the lock when a future leaves [PENDING] or
    [RUNNING]: the state (and the exception) is set. *)
Definition set_state (f : nat) (fut : Future) (state : FutureState)
    (exception : option PyException) (self : IsolateServicer)
    : IsolateServicer :=
  with_future f (mkFuture state exception (_done_callbacks fut)) self.

(** [Future._invoke_callbacks] of the future [f]. *)
Definition invoke_callbacks_of (f : nat) (self : IsolateServicer)
    : IsolateServicer :=
  match future_store self !! f with
  | Some fut => _invoke_callbacks fut self
  | None => self
  end.

(** [Future.cancel], as far as it holds the lock: a pending future
    becomes [CANCELLED], and only then are the callbacks invoked
    afterwards ([true]); a future in any other state is left alone. *)
Definition future_cancel (f : nat) (self : IsolateServicer)
    : bool * IsolateServicer :=
  match future_store self !! f with
  | Some fut =>
      match _state fut with
      | PENDING => (true, set_state f fut CANCELLED_ (_exception fut) self)
      | _ => (false, self)
      end
  | None => (false, self)
  end.

(** [Future.add_done_callback] with the [_callback] of [task_id]: a
    future that is already done calls it at once. *)
Definition add_done_callback (f : nat) (task_id : string)
    (self : IsolateServicer) : IsolateServicer :=
  match future_store self !! f with
  | Some fut =>
      if is_terminal (_state fut) then
        with_tasks (delete task_id (background_tasks self)) self
      else
        with_future f
          (mkFuture (_state fut) (_exception fut)
             (_done_callbacks fut ++ [task_id]))
          self
  | None => self
  end.

(** What the worker thread that runs a submitted task does to the
    objects the handlers see. *)
Inductive WorkerEvent :=
| set_running_or_notify_cancel (f : nat)
    (** the worker takes the work item of future [f] *)
| set_agent (t : nat) (agent : nat)
    (** line 264, [task.agent = agent], in the run of task [t] *)
| set_result (f : nat)
    (** [_run_task_in_background] returned: the state is set *)
| set_exception (f : nat) (exception : PyException)
    (** [_run_task_in_background] raised: the state is set *)
| invoke_callbacks (f : nat)
    (** the worker, past the lock in [set_result] or [set_exception],
        invokes the callbacks *).

Definition worker_event (e : WorkerEvent) (self : IsolateServicer)
    : IsolateServicer :=
  match e with
  | set_running_or_notify_cancel f =>
      match future_store self !! f with
      | Some fut =>
          match _state fut with
          | PENDING =>
              with_future f
                (mkFuture RUNNING (_exception fut) (_done_callbacks fut)) self
          | CANCELLED_ =>
              with_future f
                (mkFuture CANCELLED_AND_NOTIFIED (_exception fut)
                   (_done_callbacks fut)) self
          | _ => self
          end
      | None => self
      end
  | set_agent t agent =>
      match task_store self !! t with
      | Some task =>
          let running :=
            match future task with
            | None => true
            | Some f =>
                match future_store self !! f with
                | Some fut =>
                    match _state fut with RUNNING => true | _ => false end
                | None => false
                end
            end in
          if running then
            with_task t (mkTask (request task) (future task) (Some agent)) self
          else self
      | None => self
      end
  | set_result f =>
      match future_store self !! f with
      | Some fut =>
          match _state fut with
          | RUNNING => set_state f fut FINISHED None self
          | _ => self
          end
      | None => self
      end
  | set_exception f exception =>
      match future_store self !! f with
      | Some fut =>
          match _state fut with
          | RUNNING => set_state f fut FINISHED (Some exception) self
          | _ => self
          end
      | None => self
      end
  | invoke_callbacks f =>
      match future_store self !! f with
      | Some fut =>
          match _state fut with
          | FINISHED => _invoke_callbacks fut self
          | _ => self
          end
      | None => self
      end
  end.

Definition worker_events (es : list WorkerEvent) (self : IsolateServicer)
    : IsolateServicer :=
  foldl (λ self e, worker_event e self) self es.

(** Exceptions a handler does not catch. *)
Inductive HandlerError :=
| CancelledError
    (** raised by [Future.exception] on a cancelled future *)
| NoneHasNoAttribute
    (** [self.future] is [None] *)
| DictChangedSize
    (** [RuntimeError: dictionary changed size during iteration] *).

Inductive Outcome :=
| SubmitResponse (task_id : string)
| CancelResponse
| ListResponse (task_ids : gset string)
| StreamEnded
| ReturnedNone
| Raises (e : HandlerError).

(** What is left to do when [Task.cancel] returns. *)
Inductive Continuation :=
| ReturnToCancel
| ReturnToCancelTasks (remaining : list nat) (size : nat).

(** A handler thread, by the line it is about to execute. *)
Inductive Thread :=
| Submit_321 (request : BoundFunction.t) (task_id : string)
| Submit_322 (t : nat) (task_id : string)
| Submit_330 (t : nat) (task_id : string)
| Submit_336 (t : nat) (task_id : string)
| Run_346 (request : BoundFunction.t)
| Run_streaming (t : nat)
| List_359
| Cancel_374 (task_id : string)
| cancel_tasks_432
| cancel_tasks_next (remaining : list nat) (size : nat)
| Task_cancel_177 (t : nat) (k : Continuation)
| Task_cancel_177_callbacks (t f : nat) (k : Continuation)
| Task_cancel_178 (t : nat) (k : Continuation)
| Task_cancel_181 (t : nat) (k : Continuation)
| Task_cancel_waiting (t : nat) (k : Continuation)
| Finished (outcome : Outcome).

Definition resume (k : Continuation) : Thread :=
  match k with
  | ReturnToCancel => Finished CancelResponse
  | ReturnToCancelTasks remaining size => cancel_tasks_next remaining size
  end.

(** [self.future.exception(timeout=0.1)], before ([waited = false])
    and after the wait. *)
Definition future_exception (waited : bool) (t : nat) (k : Continuation)
    (self : IsolateServicer) : Thread :=
  match task_store self !! t with
  | Some task =>
      match future task with
      | None => Finished (Raises NoneHasNoAttribute)
      | Some f =>
          match _state <$> future_store self !! f with
          | Some CANCELLED_ | Some CANCELLED_AND_NOTIFIED =>
              Finished (Raises CancelledError)
          | Some FINISHED => resume k
          | _ =>
              if waited then Task_cancel_177 t k (* [TimeoutError]: pass *)
              else Task_cancel_waiting t k
          end
      end
  | None => Finished (Raises NoneHasNoAttribute)
  end.

(** One step of a handler thread. *)
Definition thread_step (th : Thread) (self : IsolateServicer)
    : Thread * IsolateServicer :=
  match th with
  | Submit_321 request task_id =>
      (* task = Task(request=request.function) *)
      let t := fresh (dom (task_store self)) in
      (Submit_322 t task_id, with_task t (mkTask request None None) self)
  | Submit_322 t task_id =>
      (* task.future = RUNNER_THREAD_POOL.submit(...) *)
      let f := fresh (dom (future_store self)) in
      let self := with_future f (mkFuture PENDING None []) self in
      match task_store self !! t with
      | Some task =>
          (Submit_330 t task_id,
           with_task t (mkTask (request task) (Some f) (agent task)) self)
      | None => (Submit_330 t task_id, self)
      end
  | Submit_330 t task_id =>
      (* self.background_tasks[task_id] = task *)
      (Submit_336 t task_id,
       with_tasks (<[task_id := t]> (background_tasks self)) self)
  | Submit_336 t task_id =>
      (* task.future.add_done_callback(_callback) *)
      match task_store self !! t ≫= future with
      | Some f =>
          (Finished (SubmitResponse task_id), add_done_callback f task_id self)
      | None => (Finished (Raises NoneHasNoAttribute), self)
      end
  | Run_346 request =>
      (* self._run_task(Task(request=request)) *)
      let t := fresh (dom (task_store self)) in
      (Run_streaming t, with_task t (mkTask request None None) self)
  | Run_streaming t => (Finished StreamEnded, self)
  | List_359 => (Finished (ListResponse (dom (background_tasks self))), self)
  | Cancel_374 task_id =>
      (* task = self.background_tasks.get(task_id) *)
      match background_tasks self !! task_id with
      | Some t => (Task_cancel_177 t ReturnToCancel, self)
      | None => (Finished CancelResponse, self)
      end
  | cancel_tasks_432 =>
      (* for task in self.background_tasks.values() *)
      (cancel_tasks_next (map_to_list (background_tasks self)).*2
         (size (background_tasks self)), self)
  | cancel_tasks_next remaining size_at_start =>
      if decide (size (background_tasks self) = size_at_start) then
        match remaining with
        | [] => (Finished ReturnedNone, self)
        | t :: remaining =>
            (Task_cancel_177 t (ReturnToCancelTasks remaining size_at_start),
             self)
        end
      else (Finished (Raises DictChangedSize), self)
  | Task_cancel_177 t k =>
      (* self.future.cancel(): the part under the lock *)
      match task_store self !! t ≫= future with
      | Some f =>
          match future_cancel f self with
          | (true, self) => (Task_cancel_177_callbacks t f k, self)
          | (false, self) => (Task_cancel_178 t k, self)
          end
      | None => (Finished (Raises NoneHasNoAttribute), self)
      end
  | Task_cancel_177_callbacks t f k =>
      (* self.future.cancel(): self._invoke_callbacks() *)
      (Task_cancel_178 t k, invoke_callbacks_of f self)
  | Task_cancel_178 t k =>
      (* if self.agent: self.agent.terminate() *)
      match task_store self !! t ≫= agent with
      | Some a =>
          (Task_cancel_181 t k,
           mkIsolateServicer
             (mkBridgeManager
                (alter terminate a (agent_store (bridge_manager self)))
                (_agents (bridge_manager self)))
             (background_tasks self) (task_store self) (future_store self))
      | None => (Task_cancel_181 t k, self)
      end
  | Task_cancel_181 t k => (future_exception false t k self, self)
  | Task_cancel_waiting t k => (future_exception true t k self, self)
  | Finished outcome => (Finished outcome, self)
  end.

(** A handler run from start to end, with what the workers do before
    each of its steps.  [None]: the handler has not returned when the
    events given are used up. *)
Fixpoint run_handler (schedule : list (list WorkerEvent)) (th : Thread)
    (self : IsolateServicer) : option (Outcome * IsolateServicer) :=
  match th with
  | Finished outcome => Some (outcome, self)
  | _ =>
      match schedule with
      | [] => None
      | batch :: schedule' =>
          let '(th', self') := thread_step th (worker_events batch self) in
          run_handler schedule' th' self'
      end
  end.

(** [IsolateServicer.Submit]; [task_id] is what [uuid.uuid4()] gives. *)
Definition Submit (request : BoundFunction.t) (task_id : string)
    (schedule : list (list WorkerEvent)) (self : IsolateServicer) :=
  run_handler schedule (Submit_321 request task_id) self.

(** [IsolateServicer.Cancel] *)
Definition Cancel (task_id : string) (schedule : list (list WorkerEvent))
    (self : IsolateServicer) :=
  run_handler schedule (Cancel_374 task_id) self.

(** [IsolateServicer.List] (the order of the ids is not modelled) *)
Definition List_ (schedule : list (list WorkerEvent)) (self : IsolateServicer) :=
  run_handler schedule List_359 self.

(** [IsolateServicer.cancel_tasks].  The iteration is over the values
    the dict had when it began, and stops with [RuntimeError] when the
    size of the dict is found changed. *)
Definition cancel_tasks (schedule : list (list WorkerEvent))
    (self : IsolateServicer) :=
  run_handler schedule cancel_tasks_432 self.

(** The handlers that the RPC server (or its owner) can start. *)
Definition is_request (th : Thread) : Prop :=
  match th with
  | Submit_321 _ _ | Run_346 _ | List_359 | Cancel_374 _ | cancel_tasks_432 =>
      True
  | _ => False
  end.

(** The threads of the server side by side: a request arrives, a
    handler makes a step, or a worker does. *)
Inductive server_step
    : list Thread * IsolateServicer → list Thread * IsolateServicer → Prop :=
| request_arrives ths self th :
    is_request th →
    server_step (ths, self) (ths ++ [th], self)
| handler_steps ths self i th th' self' :
    ths !! i = Some th →
    thread_step th self = (th', self') →
    server_step (ths, self) (<[i := th']> ths, self')
| worker_steps ths self e :
    server_step (ths, self) (ths, worker_event e self).

Definition new_servicer : IsolateServicer :=
  mkIsolateServicer (mkBridgeManager ∅ ∅) ∅ ∅ ∅.

(** ** The agent of the server package ([server/agent.py], lines 18-102)

    This agent yields its own log lines on the stream of the RPC, and
    [abort_with_msg] sets the status and returns.  Deserializing,
    calling and serializing belong to collaborators: a call that can
    raise gives [inl] of the exception (with the text of
    [traceback.format_exc()] where the code asks for it). *)

Module ServerAgent.
Section ServerAgent.
Variable Obj : Type.
Variable peer : string.
Variable from_grpc : SerializedObject → (PyException * string) + Obj.
Variable callable : Obj → bool.
Variable type_name : Obj → string.
Variable call : Obj → Obj + Obj.
Variable to_grpc :
  Obj → string → bool → (PyException * string) + SerializedObject.

(** [AgentServicer.log] *)
Definition log (message : string) (level : LogLevel) (source : LogSource)
    : list PartialRunResult :=
  let log := mkLog message level source in
  [mkPartialRunResult false [log] None].

(** [AgentServicer.abort_with_msg] with the default code. *)
Definition abort_with_msg (message : string) : RunEnd :=
  RunAborted INVALID_ARGUMENT message.

(** [AgentServicer.Run]: the elements yielded and how the RPC is left. *)
Definition Run (request : SerializedObject) : list PartialRunResult * RunEnd :=
  let connected :=
    log ("A connection has been established: " +:+ peer +:+ "!") TRACE BRIDGE in
  if was_it_raised request then
    (connected,
     abort_with_msg
       "The input function must be callable, not a raised exception.")
  else
    match from_grpc request with
    | inl (exc, format_exc) =>
        if isinstance exc "SerializationError" then
          (connected ++ log format_exc TRACE BRIDGE,
           abort_with_msg "The input function could not be deserialized.")
        else (connected, RunCrashed exc)
    | inr function =>
        if negb (callable function) then
          (connected,
           abort_with_msg
             ("The input function must be callable, not " +:+
              type_name function +:+ "."))
        else
          let starting :=
            log "Starting the execution of the input function." TRACE BRIDGE in
          let '(result, was_it_raised) :=
            match call function with
            | inl exc => (exc, true)
            | inr result => (result, false)
            end in
          let completed :=
            log "Completed the execution of the input function." TRACE BRIDGE
          in
          match to_grpc result (method request) was_it_raised with
          | inl (exc, format_exc) =>
              if isinstance exc "SerializationError" then
                (connected ++ starting ++ completed ++
                   log format_exc ERROR BRIDGE,
                 abort_with_msg
                   "The result of the input function could not be serialized.")
              else
                (connected ++ starting ++ completed ++
                   log format_exc ERROR BRIDGE,
                 abort_with_msg
                   "An unexpected error occurred while serializing the result.")
          | inr serialized_result =>
              (connected ++ starting ++ completed ++
                 log "Serialization of the result is complete. Sending the result."
                   TRACE BRIDGE ++
                 [mkPartialRunResult true [] (Some serialized_result)],
               RunReturned)
          end
    end.
End ServerAgent.
End ServerAgent.

(** ** The controller side of the IPC bridge
    ([backends/connections/ipc/_base.py], lines 119-143) *)

(** What one turn of the loop of [poll_until_result] can see: the
    answer of [process.poll()] and, when the connection has data, what
    [connection.recv()] gives. *)
Record Poll (Obj : Type) := mkPoll {
  returncode : option Z;
  received : option (Obj * bool) }.
Arguments mkPoll {Obj} returncode received.
Arguments returncode {Obj} p.
Arguments received {Obj} p.

Inductive PollResult (Obj : Type) :=
| ResultReturned (result : Obj)
| ResultRaised (result : Obj)
| OSErrorRaised (message : string).
Arguments ResultReturned {Obj} result.
Arguments ResultRaised {Obj} result.
Arguments OSErrorRaised {Obj} message.

(** [IsolatedProcessConnection.poll_until_result]; [None]: the loop is
    still turning when the polls given are used up. *)
Fixpoint poll_until_result {Obj : Type} (polls : list (Poll Obj))
    : option (PollResult Obj) :=
  match polls with
  | [] => None
  | p :: polls' =>
      match returncode p with
      | Some _ =>
          Some (OSErrorRaised
                  "The isolated process has exited unexpectedly with code '{}'.")
      | None =>
          match received p with
          | None => poll_until_result polls'
          | Some (result, did_it_raise) =>
              if did_it_raise then Some (ResultRaised result)
              else Some (ResultReturned result)
          end
      end
  end.

(** ** Caching a function without parameters
    ([backends/common.py], lines 30-44) *)

Section CacheStatic.
Variable State A : Type.
Variable func : State → Exit A * State.

(** The [wrapper] that [cache_static(func)] returns, with the cell
    [_function_cache] it closes over ([None]: [_NO_HIT]). *)
Definition wrapper (_function_cache : option A) (s : State)
    : Exit A * (option A * State) :=
  match _function_cache with
  | None =>
      match func s with
      | (Returned value, s') => (Returned value, (Some value, s'))
      | (Raised exception, s') => (Raised exception, (None, s'))
      end
  | Some value => (Returned value, (Some value, s))
  end.

(** Calls of the wrapper one after the other; between two calls the
    rest of the program changes the state as [between] says. *)
Fixpoint wrapper_calls (between : list (State → State)) (_function_cache : option A)
    (s : State) : list (Exit A) * (option A * State) :=
  match between with
  | [] => ([], (_function_cache, s))
  | change :: between' =>
      let '(exit, (_function_cache, s)) := wrapper _function_cache (change s) in
      let '(exits, final) := wrapper_calls between' _function_cache s in
      (exit :: exits, final)
  end.
End CacheStatic.

(** * Vocabulary of the properties, and the data of the examples *)

(** What [check_connectivity] answers for a pooled reference. *)
Definition accessible (store : gmap nat RunnerAgent) (agent : nat) : bool :=
  from_option check_connectivity false (store !! agent).

(** [terminate] on each of the given agents, first to last. *)
Definition terminate_all (agents : list nat) (store : gmap nat RunnerAgent)
    : gmap nat RunnerAgent :=
  foldl (λ store agent, alter terminate agent store) store agents.

(** Pooled agents exist, no agent is pooled twice, and no agent is
    pooled under two keys. *)
Definition pool_wf (self : BridgeManager) : Prop :=
  (∀ key agent, agent ∈ agents_of key self →
     is_Some (agent_store self !! agent)) ∧
  (∀ key, NoDup (agents_of key self)) ∧
  (∀ key1 key2 agent, agent ∈ agents_of key1 self →
     agent ∈ agents_of key2 self → key1 = key2).

(** Two connections over the same three paths, layered in different
    orders, and a manager that pools one ready agent for the first. *)
Definition connection_ab : LocalPythonGRPC :=
  mkLocalPythonGRPC "env" ["a"; "b"] (λ _, inr 7).
Definition connection_ba : LocalPythonGRPC :=
  mkLocalPythonGRPC "env" ["b"; "a"] (λ _, inr 8).
Definition manager_ab : BridgeManager :=
  mkBridgeManager {[ 0 := mkRunnerAgent 7 0 Open [IDLE; READY] ]}
    {[ ["env"; "a"; "b"] := [0] ]}.

(** A body that raises at once, and one that terminates the agent it
    borrowed and then raises (what [Task.cancel] does to a running
    task). *)
Definition body_raises (agent : nat) (self : BridgeManager) (rest : unit)
    : option (Exit unit) * BridgeManager * unit :=
  (Some (Raised (GRPCException "boom" UNKNOWN)), self, rest).

Definition body_terminates_and_raises (agent : nat) (self : BridgeManager)
    (rest : unit) : option (Exit unit) * BridgeManager * unit :=
  (Some (Raised (GRPCException "cancelled" CANCELLED)),
   mkBridgeManager (alter terminate agent (agent_store self)) (_agents self),
   rest).

(** The items put on [queue] so far, in the order of the puts. *)
Definition items_put (queue : nat) (w : World) : list PartialRunResult :=
  (filter (λ p, p.1 = queue) (put_log w)).*2.

(** The elements the drainer took from the queue, in the order it
    yielded them. *)
Definition real_elements (out : list Emission) : list PartialRunResult :=
  element <$> filter (λ e, synthetic e = false) out.

(** From [w] to [w'] the drainer yielded [out]: whatever was put on
    the queue in between is either yielded or still queued, behind
    what was queued before, in the order of the puts. *)
Definition drained (queue : nat) (w : World) (out : list Emission)
    (w' : World) : Prop :=
  ∃ new, items_put queue w' = items_put queue w ++ new ∧
         real_elements out ++ queue_of queue w' = queue_of queue w ++ new.

(** The times at which the drainer yielded its own empty packets. *)
Definition synthetic_times (out : list Emission) : list Time :=
  at_time <$> filter (λ e, synthetic e = true) out.

(** Each time is more than [interval] after the one before it, the
    first one more than [interval] after [since]. *)
Fixpoint spaced (interval since : Time) (times : list Time) : Prop :=
  match times with
  | [] => True
  | t :: times' => (t - since > interval)%Z ∧ spaced interval t times'
  end.

Definition keep_alive : PartialRunResult := mkPartialRunResult false [] None.

(** The value of [timer] after the drainer has yielded [out]: the time
    of the last empty packet it made, and [since], the reading at the
    call, when it has made none. *)
Definition last_reset (since : Time) (out : list Emission) : Time :=
  default since (last (synthetic_times out)).

Definition a_result : SerializedObject :=
  mkSerializedObject "pickle" "42" false None.
Definition terminal_element : PartialRunResult :=
  mkPartialRunResult true [] (Some a_result).
Definition late_log : Log := mkLog "Sending the result." INFO BRIDGE.
Definition late_log_element : PartialRunResult :=
  mkPartialRunResult false [late_log] None.

(** The pump has one element to forward; nothing was put on any queue
    yet. *)
Definition world_before_dispatch : World :=
  mkWorld ∅ [terminal_element] false 0%Z [].

(** The pump forwards the terminal element, the log hook then puts a
    log on the same queue, and only after both were yielded does the
    pump return. *)
Definition log_after_terminal : list Round :=
  [ mkRound [Producer; LogHook 0 late_log] [] [];
    mkRound [] [] [];
    mkRound [Producer] [] [] ].

(** Elements arrive for as long as the interval lasts, then the queue
    is empty for one [queue.get]. *)
Definition busy_then_idle : list Round :=
  [ mkRound [] [Tick 600000%N; LogHook 0 late_log] [];
    mkRound [] [] [] ].

(** The stack trace of an exception as the servicer logs it. *)
Definition traceback_logs (to_grpc : Log → Log) (exception : PyException)
    : list PartialRunResult :=
  (λ line, mkPartialRunResult false [to_grpc (mkLog line ERROR BRIDGE)] None)
    <$> exc_traceback exception.

(** Collaborators for the examples: "virtualenv" is the one known
    kind, and the configuration "bogus" is one its builder rejects. *)
Definition value_error : PyException :=
  mkPyException ["ValueError"; "Exception"] "Unknown environment: 'does-not-exist'"
    UNKNOWN [].
Definition type_error : PyException :=
  mkPyException ["TypeError"; "Exception"] "unexpected keyword argument 'bogus'"
    UNKNOWN [].
Definition agent_error : PyException :=
  mkPyException ["AgentError"; "Exception"] "agent died" UNKNOWN
    ["Traceback (most recent call last):"; "AgentError: agent died"].
Definition rpc_error : PyException :=
  mkPyException ["_MultiThreadedRendezvous"; "RpcError"; "Exception"]
    "connection reset" UNAVAILABLE [].

Definition example_from_grpc (d : EnvironmentDefinition.t)
    : PyException + string :=
  if decide (EnvironmentDefinition.kind d = "virtualenv") then
    if decide (EnvironmentDefinition.configuration d = "bogus")
    then inl type_error else inr "virtualenv"
  else inl value_error.

Definition example_create (environment : string) (force : bool) : Build :=
  mkBuild [mkRound [LogHook 0 (mkLog "Creating the environment" INFO BUILDER)]
             [] [];
           mkRound [Producer] [] []]
    [] (inr "/cache/venv").

Definition example_pump (exception : option PyException) (stub : nat)
    (call : FunctionCall.t) : Pump :=
  mkPump [terminal_element] exception
    [mkRound [Producer] [] []; mkRound [Producer] [] []] [].

Definition example_run_task_with (pump : nat → FunctionCall.t → Pump)
    (environments : list EnvironmentDefinition.t) :=
  _run_task 600000%Z 100%Z 10%Z id [] false string example_from_grpc
    (λ _, None) "3.11" (λ _ _, "agent-env") "/usr" example_create
    (λ _ _ _ _, inr 7) pump
    (mkTask (BoundFunction.mk environments a_result None) None None)
    (mkBridgeManager ∅ ∅) (mkWorld ∅ [] false 0%Z []).

Definition example_run_task (exception : option PyException)
    (environments : list EnvironmentDefinition.t) :=
  example_run_task_with (example_pump exception) environments.

Definition venv : EnvironmentDefinition.t :=
  EnvironmentDefinition.mk "virtualenv" "requirements: pyjokes" false.
Definition malformed : EnvironmentDefinition.t :=
  EnvironmentDefinition.mk "virtualenv" "bogus" false.
Definition unknown_kind : EnvironmentDefinition.t :=
  EnvironmentDefinition.mk "does-not-exist" "" false.

(** The number of elements with [is_complete=true]. *)
Definition terminal_count (l : list PartialRunResult) : nat :=
  length (filter (λ m, is_complete m = true) l).

Definition carries_result (m : PartialRunResult) : Prop :=
  is_complete m = true → is_Some (result m).

(** The terminal elements that are queued or still to be forwarded. *)
Definition terminals_ahead (queue : nat) (w : World) : nat :=
  terminal_count (queue_of queue w) + terminal_count (pending w).

Definition all_ahead (P : PartialRunResult → Prop) (queue : nat) (w : World)
    : Prop :=
  Forall P (queue_of queue w) ∧ Forall P (pending w).

(** What the agent can yield: nothing, or one element, complete and
    with a result. *)
Definition agent_stream_shape (stream : list PartialRunResult) : Prop :=
  stream = [] ∨
  ∃ packet, stream = [packet] ∧ is_complete packet = true ∧
            is_Some (result packet) ∧ logs packet = [].

(** An agent whose objects are strings: deserializing gives the
    definition back, everything is callable and returns "42". *)
Definition example_agent_Run :=
  AgentServicer.Run string (λ o, inr (definition o)) (λ _, true) (λ _, "str")
    (λ _, "<class 'str'>") (λ _ _, inr "42") (λ _ o, Serialized o)
    (λ d _, d).

(** The pump forwards the agent's element, a log of the agent arrives
    through the log hook, and then the pump returns. *)
Definition pump_with_late_log (stub : nat) (call : FunctionCall.t) : Pump :=
  mkPump [terminal_element] None
    [mkRound [Producer; LogHook 0 late_log] [] [];
     mkRound [] [] [];
     mkRound [Producer] [] []] [].

(** The agent's element arrives when the interval has just passed and
    the pump takes a moment to return: an empty packet follows it. *)
Definition pump_slow_to_return (stub : nat) (call : FunctionCall.t) : Pump :=
  mkPump [terminal_element] None
    [mkRound [Tick 600000%N; Producer] [] [];
     mkRound [] [] [];
     mkRound [Producer] [] []] [].

Definition has_future (self : IsolateServicer) (t : nat) : Prop :=
  ∃ task, task_store self !! t = Some task ∧ is_Some (future task).

Definition registry_has_futures (self : IsolateServicer) : Prop :=
  ∀ task_id t, background_tasks self !! task_id = Some t → has_future self t.

Definition continuation_ok (self : IsolateServicer) (k : Continuation) : Prop :=
  match k with
  | ReturnToCancel => True
  | ReturnToCancelTasks remaining _ => Forall (has_future self) remaining
  end.

(** What a handler knows about the tasks it holds, by the line it is
    at: from line 330 on [Submit] holds a task whose future is set,
    and [Task.cancel] only runs on tasks taken from the registry. *)
Definition thread_ok (self : IsolateServicer) (th : Thread) : Prop :=
  match th with
  | Submit_322 t _ => is_Some (task_store self !! t)
  | Submit_330 t _ | Submit_336 t _ => has_future self t
  | cancel_tasks_next remaining _ => Forall (has_future self) remaining
  | Task_cancel_177 t k | Task_cancel_177_callbacks t _ k
  | Task_cancel_178 t k | Task_cancel_181 t k
  | Task_cancel_waiting t k => has_future self t ∧ continuation_ok self k
  | Finished (Raises NoneHasNoAttribute) => False
  | _ => True
  end.

Definition server_ok (state : list Thread * IsolateServicer) : Prop :=
  registry_has_futures state.2 ∧ Forall (thread_ok state.2) state.1.

(** Tasks are never dropped and a future, once set, stays. *)
Definition tasks_extend (tasks tasks' : gmap nat Task) : Prop :=
  ∀ t task, tasks !! t = Some task →
    ∃ task', tasks' !! t = Some task' ∧
             (is_Some (future task) → is_Some (future task')).

(** Task [t] has future [f], and [f] is a future of the pool. *)
Definition task_future (self : IsolateServicer) (t f : nat) : Prop :=
  (∃ task, task_store self !! t = Some task ∧ future task = Some f) ∧
  is_Some (future_store self !! f).

(** The lines of [Task.cancel] when it was called from [Cancel]. *)
Definition in_task_cancel (t : nat) (th : Thread) : Prop :=
  th = Task_cancel_177 t ReturnToCancel ∨
  (∃ f, th = Task_cancel_177_callbacks t f ReturnToCancel) ∨
  th = Task_cancel_178 t ReturnToCancel ∨
  th = Task_cancel_181 t ReturnToCancel ∨
  th = Task_cancel_waiting t ReturnToCancel.

(** A handler running alone for [n] steps. *)
Fixpoint handler_alone (n : nat) (th : Thread) (self : IsolateServicer)
    : Thread * IsolateServicer :=
  match n with
  | 0 => (th, self)
  | S n => let '(th', self') := thread_step th self in handler_alone n th' self'
  end.

Definition example_request : BoundFunction.t :=
  BoundFunction.mk [venv] a_result None.

(** The servicer after one [Submit], with the workers idle. *)
Definition servicer_after_submit : IsolateServicer :=
  (handler_alone 4 (Submit_321 example_request "task-1") new_servicer).2.

(** The worker takes the task, [Cancel] arrives and waits, and the
    task ends while it waits. *)
Definition task_ends_during_cancel : list (list WorkerEvent) :=
  [ [set_running_or_notify_cancel 0]; []; []; [];
    [set_agent 0 5; set_result 0; invoke_callbacks 0] ].

(** A manager that knows one ready agent and pools none, and one whose
    only agent has a channel that shut down. *)
Definition manager_idle : BridgeManager :=
  mkBridgeManager {[ 0 := mkRunnerAgent 7 0 Open [IDLE; READY] ]} ∅.
Definition manager_stale : BridgeManager :=
  mkBridgeManager {[ 0 := mkRunnerAgent 7 0 Open [READY; SHUTDOWN] ]} ∅.

(** The servicer after one [Submit] on a server whose bridge manager
    knows the agent 0, with the workers idle. *)
Definition servicer_with_agent_after_submit : IsolateServicer :=
  (handler_alone 4 (Submit_321 example_request "task-1")
     (mkIsolateServicer manager_idle ∅ ∅ ∅)).2.

(** The worker takes the task; [Cancel] finds no agent on the task and
    waits; during the wait the task is given the agent 0 and ends.
    The worker has set the result and not yet invoked the callbacks. *)
Definition agent_set_during_the_wait : list (list WorkerEvent) :=
  [ [set_running_or_notify_cancel 0]; []; []; [];
    [set_agent 0 0; set_result 0] ].

(** The servicer when [handler] has ended. *)
Definition servicer_after (handler : option (Outcome * IsolateServicer))
    : IsolateServicer :=
  from_option snd new_servicer handler.

Definition servicer_after_one_cancel : IsolateServicer :=
  servicer_after
    (Cancel "task-1" agent_set_during_the_wait
       servicer_with_agent_after_submit).

Definition servicer_after_two_cancels : IsolateServicer :=
  servicer_after (Cancel "task-1" [[]; []; []; []] servicer_after_one_cancel).

(** From [w] to [w'] nothing was taken from [queue]: it holds what it
    held, followed by what was put on it. *)
Definition untouched (queue : nat) (w w' : World) : Prop :=
  ∃ new, items_put queue w' = items_put queue w ++ new ∧
         queue_of queue w' = queue_of queue w ++ new.

(** From [w] to [w'] the pump forwarded [moved], the first of what it
    had left, by putting it on [queue]; and it is done only when it has
    nothing left. *)
Definition forwarded (queue : nat) (w w' : World) : Prop :=
  ((done w = true → pending w = []) → done w' = true → pending w' = []) ∧
  ∃ moved new, pending w = moved ++ pending w' ∧
               items_put queue w' = items_put queue w ++ new ∧
               sublist moved new.

(** How far the clock moved, and that nothing was yielded after the
    time of the world at the end. *)
Definition timed (w : World) (out : list Emission) (w' : World) : Prop :=
  (clock w ≤ clock w')%Z ∧ Forall (λ e, (at_time e ≤ clock w')%Z) out.

(** The state of a future, and a future that was cancelled. *)
Definition state_of (self : IsolateServicer) (f : nat) : option FutureState :=
  _state <$> future_store self !! f.

Definition cancelled (self : IsolateServicer) (f : nat) : Prop :=
  state_of self f = Some CANCELLED_ ∨
  state_of self f = Some CANCELLED_AND_NOTIFIED.

(** The ids whose [_callback] is on a future. *)
Definition callbacks_of (self : IsolateServicer) (f : nat)
    : option (list string) :=
  _done_callbacks <$> future_store self !! f.

(** An element that carries one log line and nothing else. *)
Definition log_element (m : PartialRunResult) : Prop :=
  is_complete m = false ∧ result m = None ∧ length (logs m) = 1.

(** A poll that finds the process alive and nothing to receive. *)
Definition idle {Obj : Type} (p : Poll Obj) : Prop :=
  returncode p = None ∧ received p = None.

(** A function that counts its calls in the state and fails on the
    first one. *)
Definition fails_once (calls : nat) : Exit nat * nat :=
  match calls with
  | 0 => (Raised (GRPCException "not ready" UNAVAILABLE), 1)
  | _ => (Returned (calls * 10), S calls)
  end.

(** A manager that pools a ready agent made with the queue 5 for the
    paths of the example environment, and a world in which that queue
    still holds the result of a run that its client gave up (the
    generator was closed at a [yield]: the agent went back to the pool
    and the pump put its element on the queue with no one draining
    it). *)
Definition manager_with_pooled_agent : BridgeManager :=
  mkBridgeManager {[ 0 := mkRunnerAgent 7 5 Open [IDLE; READY] ]}
    {[ ["/cache/venv"] := [0] ]}.
Definition world_with_leftover : World :=
  mkWorld {[ 5 := [terminal_element] ]} [] false 0%Z [].

(** The queue of a run in that world is the queue 6: the builder's
    log hook puts its line there. *)
Definition create_logging_to (messages : nat) (environment : string)
    (force : bool) : Build :=
  mkBuild [mkRound [LogHook messages
                      (mkLog "Creating the environment" INFO BUILDER)] [] [];
           mkRound [Producer] [] []]
    [] (inr "/cache/venv").

Definition example_run_task_reusing :=
  _run_task 600000%Z 100%Z 10%Z id [] false string example_from_grpc
    (λ _, None) "3.11" (λ _ _, "agent-env") "/usr" (create_logging_to 6)
    (λ _ _ _ _, inr 7) (example_pump None)
    (mkTask (BoundFunction.mk [venv] a_result None) None None)
    manager_with_pooled_agent world_with_leftover.

(** * Properties *)


(** ** Connectivity *)

(** C9. [is_accessible] answers true exactly when the recorded history
    of connectivity states is not empty and its most recent entry is
    [READY]; with an empty history it answers false. *)
Theorem C9_is_accessible_iff_last_ready (agent : RunnerAgent) :
  (is_accessible agent = true ↔
     _channel_state_history agent ≠ [] ∧
     ∃ earlier, _channel_state_history agent = earlier ++ [READY]) ∧
  (_channel_state_history agent = [] → is_accessible agent = false).
Proof.
  unfold is_accessible. split.
  - destruct (last (_channel_state_history agent)) as [c|] eqn:Hlast.
    + apply last_Some in Hlast as [earlier Hh]. rewrite Hh. split.
      * destruct c; try discriminate. intros _. split; [|by eexists].
        by destruct earlier.
      * intros [_ [earlier' Heq]].
        apply app_inj_tail in Heq as [_ ->]. done.
    + apply last_None in Hlast. rewrite Hlast. split; [done|].
      by intros [? _].
  - intros ->. done.
Qed.

Lemma C9_is_accessible_witness :
  is_accessible (mkRunnerAgent 0 0 Open []) = false.
Proof.
  apply (C9_is_accessible_iff_last_ready (mkRunnerAgent 0 0 Open [])).
  reflexivity.
Defined.

(** ** The bridge manager *)

Lemma accessible_alter_terminate store victim agent :
  accessible (alter terminate victim store) agent = accessible store agent.
Proof.
  unfold accessible. rewrite lookup_alter. case_decide; [subst|done].
  by destruct (store !! agent).
Qed.

Lemma accessible_terminate_all dead store agent :
  accessible (terminate_all dead store) agent = accessible store agent.
Proof.
  revert store. induction dead as [|d dead IH]; intros store; [done|].
  simpl. rewrite IH. apply accessible_alter_terminate.
Qed.

Lemma pop_accessible_spec candidates store :
  (∃ dead agent rest,
      candidates = dead ++ agent :: rest ∧
      Forall (λ d, accessible store d = false) dead ∧
      accessible store agent = true ∧
      pop_accessible candidates store =
        (Some agent, rest, terminate_all dead store)) ∨
  (Forall (λ d, accessible store d = false) candidates ∧
   pop_accessible candidates store =
     (None, [], terminate_all candidates store)).
Proof.
  revert store. induction candidates as [|c cs IH]; intros store.
  - right. by split.
  - simpl. fold (accessible store c).
    destruct (accessible store c) eqn:Hc.
    + left. exists [], c, cs. by repeat split.
    + destruct (IH (alter terminate c store))
        as [(dead & agent & rest & -> & Hdead & Hagent & Hpop)|[Hall Hpop]].
      * left. exists (c :: dead), agent, rest.
        rewrite accessible_alter_terminate in Hagent.
        repeat split; [|done|done].
        constructor; [done|].
        eapply Forall_impl; [exact Hdead|]. simpl. intros d.
        by rewrite accessible_alter_terminate.
      * right. split; [|done].
        constructor; [done|].
        eapply Forall_impl; [exact Hall|]. simpl. intros d.
        by rewrite accessible_alter_terminate.
Qed.

Lemma terminate_all_lookup_notin dead store agent :
  agent ∉ dead → terminate_all dead store !! agent = store !! agent.
Proof.
  revert store. induction dead as [|d dead IH]; intros store Hn; [done|].
  simpl. rewrite IH by set_solver.
  rewrite lookup_alter_ne; [done|set_solver].
Qed.

Lemma terminate_all_lookup_in dead store agent :
  agent ∈ dead →
  terminate_all dead store !! agent = terminate <$> store !! agent.
Proof.
  revert store. induction dead as [|d dead IH]; intros store Hin; [set_solver|].
  simpl. destruct (decide (agent ∈ dead)) as [Hd|Hd].
  - rewrite IH by done. rewrite lookup_alter. case_decide; [subst|done].
    by destruct (store !! agent).
  - rewrite terminate_all_lookup_notin by done.
    assert (agent = d) as -> by set_solver.
    by rewrite lookup_alter_eq.
Qed.

Lemma terminate_all_dom dead store :
  dom (terminate_all dead store) = dom store.
Proof.
  revert store. induction dead as [|d dead IH]; intros store; [done|].
  simpl. rewrite IH. apply dom_alter_L.
Qed.

Lemma agents_of_insert key key' stack store pool :
  agents_of key' (mkBridgeManager store (<[key := stack]> pool)) =
  if decide (key = key') then stack
  else agents_of key' (mkBridgeManager store pool).
Proof.
  unfold agents_of. simpl. rewrite lookup_insert.
  by case_decide.
Qed.

Lemma pop_accessible_hit dead agent rest store :
  Forall (λ d, accessible store d = false) dead →
  accessible store agent = true →
  pop_accessible (dead ++ agent :: rest) store =
    (Some agent, rest, terminate_all dead store).
Proof.
  revert store. induction dead as [|d dead IH]; intros store Hdead Hagent.
  - simpl. fold (accessible store agent). by rewrite Hagent.
  - inversion Hdead as [|? ? Hd Hdead']; subst. simpl.
    fold (accessible store d). rewrite Hd. apply IH.
    + eapply Forall_impl; [exact Hdead'|]. simpl. intros x.
      by rewrite accessible_alter_terminate.
    + by rewrite accessible_alter_terminate.
Qed.

Lemma pop_accessible_miss candidates store :
  Forall (λ d, accessible store d = false) candidates →
  pop_accessible candidates store =
    (None, [], terminate_all candidates store).
Proof.
  revert store. induction candidates as [|d dead IH]; intros store Hdead.
  - done.
  - inversion Hdead as [|? ? Hd Hdead']; subst. simpl.
    fold (accessible store d). rewrite Hd. apply IH.
    eapply Forall_impl; [exact Hdead'|]. simpl. intros x.
    by rewrite accessible_alter_terminate.
Qed.

Lemma stack_cases (store : gmap nat RunnerAgent) (stack : list nat) :
  (∃ below agent dead,
      stack = below ++ agent :: dead ∧
      accessible store agent = true ∧
      Forall (λ d, accessible store d = false) dead) ∨
  Forall (λ d, accessible store d = false) stack.
Proof.
  destruct (pop_accessible_spec (rev stack) store)
    as [(dead & agent & rest & Heq & Hdead & Hagent & _)|[Hall _]].
  - left. exists (rev rest), agent, (rev dead).
    apply (f_equal (@rev nat)) in Heq. rewrite rev_involutive in Heq.
    rewrite Heq, rev_app_distr. simpl. rewrite <- app_assoc. simpl.
    repeat split; [done|]. by apply Forall_rev.
  - right. apply Forall_rev in Hall. by rewrite rev_involutive in Hall.
Qed.

Section BridgeManagerProperties.
Variable MAX_GRPC_WAIT_TIMEOUT : Time.

Local Abbreviation allocate := (_allocate_new_agent MAX_GRPC_WAIT_TIMEOUT).

Lemma allocate_hit connection queue self below agent dead :
  agents_of (_identify connection) self = below ++ agent :: dead →
  accessible (agent_store self) agent = true →
  Forall (λ d, accessible (agent_store self) d = false) dead →
  allocate connection queue self =
    (Returned agent,
     mkBridgeManager (terminate_all (rev dead) (agent_store self))
       (<[_identify connection := below]> (_agents self))).
Proof.
  intros Hstack Hagent Hdead. unfold _allocate_new_agent.
  rewrite Hstack, rev_app_distr. simpl. rewrite <- app_assoc. simpl.
  rewrite pop_accessible_hit; [|by apply Forall_rev|done].
  by rewrite rev_involutive.
Qed.

Lemma allocate_miss connection queue self :
  Forall (λ d, accessible (agent_store self) d = false)
    (agents_of (_identify connection) self) →
  allocate connection queue self =
    let store :=
      terminate_all (rev (agents_of (_identify connection) self))
        (agent_store self) in
    let pool := <[_identify connection := []]> (_agents self) in
    match _establish_bridge connection MAX_GRPC_WAIT_TIMEOUT with
    | inl exception => (Raised (Uncaught exception), mkBridgeManager store pool)
    | inr stub =>
        (Returned (fresh (dom (agent_store self))),
         mkBridgeManager
           (<[fresh (dom (agent_store self)) :=
                mkRunnerAgent stub queue Open []]> store) pool)
    end.
Proof.
  intros Hdead. unfold _allocate_new_agent.
  rewrite pop_accessible_miss by by apply Forall_rev.
  simpl. by rewrite terminate_all_dom.
Qed.

Lemma allocate_other_key connection queue self key :
  key ≠ _identify connection →
  agents_of key (allocate connection queue self).2 = agents_of key self.
Proof.
  intros Hne. unfold _allocate_new_agent.
  destruct (pop_accessible _ _) as [[found rest] store].
  destruct found as [agent|]; [|destruct (_establish_bridge _ _)]; simpl;
    rewrite agents_of_insert; by case_decide.
Qed.

Lemma allocate_not_pooled_elsewhere connection queue self key agent :
  pool_wf self →
  key ≠ _identify connection →
  (allocate connection queue self).1 = Returned agent →
  agent ∉ agents_of key self.
Proof.
  intros (Hexists & _ & Hdisj) Hne.
  destruct (stack_cases (agent_store self)
              (agents_of (_identify connection) self))
    as [(below & a & dead & Hstack & Ha & Hdead)|Hall].
  - rewrite (allocate_hit _ _ _ _ _ _ Hstack Ha Hdead). simpl.
    intros [= ->] Hin. apply Hne. apply (Hdisj _ _ agent); [done|].
    rewrite Hstack. set_solver.
  - rewrite (allocate_miss _ _ _ Hall). simpl.
    destruct (_establish_bridge _ _); simpl; [done|].
    intros [= <-] Hin. apply Hexists in Hin.
    apply elem_of_dom in Hin. by apply is_fresh in Hin.
Qed.

(** C7. The pool is keyed by the ordered list of paths.  Allocation
    looks only at the stack of that key, from its top: the first
    candidate whose last recorded state is [READY] is returned, the
    candidates above it are terminated and leave the stack; a bridge
    is opened with [_establish_bridge(MAX_GRPC_WAIT_TIMEOUT)] only
    when no candidate is accessible, and then the stack is empty.
    Connections that differ in a path or in the order of the paths
    have different keys, the stack of another key is left as it is,
    and the agent handed out is not pooled under another key. *)
Theorem C7_allocation_by_ordered_key (connection : LocalPythonGRPC)
    (queue : nat) (self : BridgeManager) :
  let key := _identify connection in
  let store := agent_store self in
  (∀ below agent dead,
      agents_of key self = below ++ agent :: dead →
      accessible store agent = true →
      Forall (λ d, accessible store d = false) dead →
      allocate connection queue self =
        (Returned agent,
         mkBridgeManager (terminate_all (rev dead) store)
           (<[key := below]> (_agents self)))) ∧
  (∀ dead d, d ∈ dead →
             terminate_all dead store !! d = terminate <$> store !! d) ∧
  (Forall (λ d, accessible store d = false) (agents_of key self) →
   allocate connection queue self =
     let store' := terminate_all (rev (agents_of key self)) store in
     let pool := <[key := []]> (_agents self) in
     match _establish_bridge connection MAX_GRPC_WAIT_TIMEOUT with
     | inl exception =>
         (Raised (Uncaught exception), mkBridgeManager store' pool)
     | inr stub =>
         (Returned (fresh (dom store)),
          mkBridgeManager
            (<[fresh (dom store) := mkRunnerAgent stub queue Open []]> store')
            pool)
     end) ∧
  ((∃ below agent dead,
       agents_of key self = below ++ agent :: dead ∧
       accessible store agent = true ∧
       Forall (λ d, accessible store d = false) dead) ∨
   Forall (λ d, accessible store d = false) (agents_of key self)) ∧
  (∀ other : LocalPythonGRPC,
      environment_path other ≠ environment_path connection ∨
      extra_inheritance_paths other ≠ extra_inheritance_paths connection →
      _identify other ≠ key ∧
      agents_of (_identify other) (allocate connection queue self).2 =
        agents_of (_identify other) self ∧
      (pool_wf self →
       ∀ agent, (allocate connection queue self).1 = Returned agent →
                agent ∉ agents_of (_identify other) self)).
Proof.
  intros key store. split; [|split; [|split; [|split]]].
  - intros below agent dead. apply allocate_hit.
  - intros dead d. apply terminate_all_lookup_in.
  - apply allocate_miss.
  - apply stack_cases.
  - intros other Hdiff.
    assert (_identify other ≠ key) as Hne.
    { unfold key, _identify. intros [= H1 H2]. by destruct Hdiff. }
    split; [done|]. split.
    + by apply allocate_other_key.
    + intros Hwf agent. by apply allocate_not_pooled_elsewhere.
Qed.
End BridgeManagerProperties.

Lemma manager_ab_agents key :
  agents_of key manager_ab = if decide (key = ["env"; "a"; "b"]) then [0] else [].
Proof.
  unfold agents_of, manager_ab. simpl. case_decide as Hk.
  - subst. by rewrite lookup_singleton_eq.
  - by rewrite lookup_singleton_ne.
Qed.

Lemma manager_ab_wf : pool_wf manager_ab.
Proof.
  split; [|split].
  - intros key agent. rewrite manager_ab_agents. case_decide; [|set_solver].
    intros ->%list_elem_of_singleton. by eexists.
  - intros key. rewrite manager_ab_agents. case_decide; [|constructor].
    apply NoDup_singleton.
  - intros key1 key2 agent. rewrite !manager_ab_agents.
    repeat case_decide; subst; set_solver.
Qed.

Lemma allocate_manager_ab :
  _allocate_new_agent 10%Z connection_ab 1 manager_ab =
    (Returned 0,
     mkBridgeManager (agent_store manager_ab)
       (<[["env"; "a"; "b"] := []]> (_agents manager_ab))).
Proof.
  apply (allocate_hit 10%Z connection_ab 1 manager_ab [] 0 []);
    [apply manager_ab_agents|reflexivity|constructor].
Qed.

Lemma C7_allocation_witness :
  _allocate_new_agent 10%Z connection_ab 1 manager_ab =
    (Returned 0,
     mkBridgeManager (agent_store manager_ab)
       (<[["env"; "a"; "b"] := []]> (_agents manager_ab))) ∧
  _identify connection_ba ≠ _identify connection_ab ∧
  0 ∉ agents_of (_identify connection_ba) manager_ab.
Proof.
  pose proof (C7_allocation_by_ordered_key 10%Z connection_ab 1 manager_ab)
    as (Hhit & _ & _ & _ & Hother).
  split; [|split].
  - apply (Hhit [] 0 []); [apply manager_ab_agents|reflexivity|constructor].
  - apply (Hother connection_ba). right. discriminate.
  - apply (Hother connection_ba); [right; discriminate|apply manager_ab_wf|].
    rewrite (Hhit [] 0 []); [reflexivity|apply manager_ab_agents|reflexivity|constructor].
Defined.

Section PoolInvariant.
Variable MAX_GRPC_WAIT_TIMEOUT : Time.

(** Taking part of one stack away keeps the pool well formed. *)
Lemma pool_wf_shrink self store key below :
  pool_wf self →
  dom store = dom (agent_store self) →
  below ⊆ agents_of key self →
  NoDup below →
  pool_wf (mkBridgeManager store (<[key := below]> (_agents self))).
Proof.
  intros (Hexists & Hnodup & Hdisj) Hdom Hsub Hnd.
  assert (∀ key' agent,
    agent ∈ agents_of key'
              (mkBridgeManager store (<[key := below]> (_agents self))) →
    agent ∈ agents_of key' self) as Hin.
  { intros key' agent. rewrite agents_of_insert.
    case_decide; [subst; apply Hsub|]. done. }
  split; [|split].
  - intros key' agent Ha. apply Hin in Ha. apply Hexists in Ha.
    simpl. apply elem_of_dom. rewrite Hdom. by apply elem_of_dom.
  - intros key'. rewrite agents_of_insert. case_decide; [done|].
    apply Hnodup.
  - intros key1 key2 agent H1 H2. eapply Hdisj; by apply Hin.
Qed.

Lemma allocate_wf connection queue self agent self' :
  pool_wf self →
  _allocate_new_agent MAX_GRPC_WAIT_TIMEOUT connection queue self =
    (Returned agent, self') →
  pool_wf self' ∧
  is_Some (agent_store self' !! agent) ∧
  ∀ key, agent ∉ agents_of key self'.
Proof.
  intros Hwf. pose proof Hwf as (Hexists & Hnodup & Hdisj).
  destruct (stack_cases (agent_store self)
              (agents_of (_identify connection) self))
    as [(below & a & dead & Hstack & Ha & Hdead)|Hall].
  - rewrite (allocate_hit _ _ _ _ _ _ _ Hstack Ha Hdead).
    intros [= -> <-].
    pose proof (Hnodup (_identify connection)) as Hnd.
    rewrite Hstack in Hnd. apply NoDup_app in Hnd as (Hnb & Hsep & Hnd).
    apply NoDup_cons in Hnd as [Hnotin _].
    split; [|split].
    + apply pool_wf_shrink; [done|apply terminate_all_dom| |done].
      rewrite Hstack. set_solver.
    + simpl. apply elem_of_dom. rewrite terminate_all_dom.
      apply elem_of_dom, (Hexists (_identify connection)).
      rewrite Hstack. set_solver.
    + intros key. rewrite agents_of_insert. case_decide as Hk.
      * intros Hin. apply Hsep in Hin. set_solver.
      * intros Hin. apply Hk. symmetry.
        apply (Hdisj _ _ agent); [done|]. rewrite Hstack. set_solver.
  - rewrite (allocate_miss _ _ _ _ Hall). simpl.
    destruct (_establish_bridge _ _) as [exception|stub]; [done|].
    intros [= <- <-].
    assert (pool_wf
      (mkBridgeManager
         (terminate_all (rev (agents_of (_identify connection) self))
            (agent_store self))
         (<[_identify connection := []]> (_agents self)))) as Hwf'.
    { apply pool_wf_shrink; [done|apply terminate_all_dom|set_solver|].
      constructor. }
    destruct Hwf' as (Hexists' & Hnodup' & Hdisj').
    split; [split; [|split]|split].
    + intros key agent Hin. simpl.
      destruct (decide (agent = fresh (dom (agent_store self)))) as [->|Hn].
      * rewrite lookup_insert_eq. by eexists.
      * rewrite lookup_insert_ne by done. by apply (Hexists' key).
    + done.
    + done.
    + simpl. rewrite lookup_insert_eq. by eexists.
    + intros key Hin. apply Hexists' in Hin. simpl in Hin.
      apply elem_of_dom in Hin. rewrite terminate_all_dom in Hin.
      by apply is_fresh in Hin.
Qed.

Lemma cache_agent_wf connection agent self :
  pool_wf self →
  is_Some (agent_store self !! agent) →
  (∀ key, agent ∉ agents_of key self) →
  pool_wf (_cache_agent connection agent self).
Proof.
  intros (Hexists & Hnodup & Hdisj) Hstored Hfree.
  unfold _cache_agent.
  assert (∀ key' a,
    a ∈ agents_of key'
          (mkBridgeManager (agent_store self)
             (<[_identify connection :=
                  agents_of (_identify connection) self ++ [agent]]>
                (_agents self))) ↔
    a ∈ agents_of key' self ∨ (key' = _identify connection ∧ a = agent))
    as Hin.
  { intros key' a. rewrite agents_of_insert. case_decide; [subst|].
    - rewrite elem_of_app, list_elem_of_singleton. naive_solver.
    - naive_solver. }
  split; [|split].
  - intros key' a [Ha|[_ ->]]%Hin; [by apply (Hexists key')|done].
  - intros key'. rewrite agents_of_insert. case_decide; [|apply Hnodup].
    apply NoDup_app. split; [apply Hnodup|]. split; [|apply NoDup_singleton].
    intros x Hx ->%list_elem_of_singleton. by apply (Hfree _ Hx).
  - intros key1 key2 a [H1|[-> ->]]%Hin [H2|[-> ?]]%Hin; subst.
    + by apply (Hdisj _ _ a).
    + by apply Hfree in H1.
    + by apply Hfree in H2.
    + done.
Qed.
End PoolInvariant.

(** C1 (as the code has it).  Once [establish] has handed out an agent,
    the agent is pushed back on the stack of its key when the body is
    left, whether the body returned or raised; [establish] passes the
    body's exit on and changes nothing else: it never closes the bound
    cleanup scope of the agent. *)
Theorem C1_establish_returns_agent_on_every_exit
    (MAX_GRPC_WAIT_TIMEOUT : Time) (A S : Type)
    (connection : LocalPythonGRPC) (queue : nat)
    (body : nat → BridgeManager → S → option (Exit A) * BridgeManager * S)
    (self self1 self2 : BridgeManager) (rest rest2 : S)
    (agent : nat) (exit : Exit A) :
  _allocate_new_agent MAX_GRPC_WAIT_TIMEOUT connection queue self =
    (Returned agent, self1) →
  body agent self1 rest = (Some exit, self2, rest2) →
  ∃ self3,
    establish MAX_GRPC_WAIT_TIMEOUT connection queue body self rest =
      (Some exit, self3, rest2) ∧
    agents_of (_identify connection) self3 =
      agents_of (_identify connection) self2 ++ [agent] ∧
    (∀ key, key ≠ _identify connection →
            agents_of key self3 = agents_of key self2) ∧
    agent_store self3 = agent_store self2.
Proof.
  intros Halloc Hbody. exists (_cache_agent connection agent self2).
  unfold establish. rewrite Halloc, Hbody. split; [done|].
  unfold _cache_agent. split; [|split].
  - rewrite agents_of_insert. by case_decide.
  - intros key Hne. rewrite agents_of_insert. by case_decide.
  - done.
Qed.

Lemma C1_establish_witness :
  ∃ self3,
    establish 10%Z connection_ab 1 body_terminates_and_raises manager_ab () =
      (Some (Raised (GRPCException "cancelled" CANCELLED)), self3, ()) ∧
    agents_of (_identify connection_ab) self3 = [0] ∧
    _bound_context <$> agent_store self3 !! 0 = Some Closed.
Proof.
  pose proof allocate_manager_ab as Halloc.
  destruct (C1_establish_returns_agent_on_every_exit 10%Z unit unit
              connection_ab 1 body_terminates_and_raises manager_ab _ _ () ()
              0 _ Halloc eq_refl)
    as (self3 & Hrun & Hstack & _ & Hstore).
  exists self3. split; [exact Hrun|]. split.
  - rewrite Hstack. simpl. rewrite agents_of_insert. by case_decide.
  - rewrite Hstore. simpl. by rewrite lookup_alter_eq.
Defined.

(** C1, as stated, fails: after a body that raised, the agent is back
    on the stack of its key and its cleanup scope is still open. *)
Lemma C1_exceptional_exit_counterexample :
  ∃ self3,
    establish 10%Z connection_ab 1 body_raises manager_ab () =
      (Some (Raised (GRPCException "boom" UNKNOWN)), self3, ()) ∧
    0 ∈ agents_of (_identify connection_ab) self3 ∧
    _bound_context <$> agent_store self3 !! 0 = Some Open.
Proof.
  exists (_cache_agent connection_ab 0
            (mkBridgeManager (agent_store manager_ab)
               (<[["env"; "a"; "b"] := []]> (_agents manager_ab)))).
  unfold establish.
  rewrite allocate_manager_ab.
  split; [done|]. split.
  - unfold _cache_agent. rewrite agents_of_insert. case_decide; [|done].
    set_solver.
  - done.
Qed.

(** ** The drainer *)

Lemma real_elements_app out1 out2 :
  real_elements (out1 ++ out2) = real_elements out1 ++ real_elements out2.
Proof. unfold real_elements. by rewrite filter_app, fmap_app. Qed.

Lemma drained_refl queue w : drained queue w [] w.
Proof. exists []. by rewrite !app_nil_r. Qed.

Lemma drained_trans queue w1 out1 w2 out2 w3 :
  drained queue w1 out1 w2 → drained queue w2 out2 w3 →
  drained queue w1 (out1 ++ out2) w3.
Proof.
  intros (new1 & Hp1 & Hq1) (new2 & Hp2 & Hq2). exists (new1 ++ new2).
  split.
  - by rewrite Hp2, Hp1, app_assoc.
  - rewrite real_elements_app, <- app_assoc, Hq2, !app_assoc. by rewrite Hq1.
Qed.

Lemma drained_nil_l queue w1 w2 out w3 :
  drained queue w1 [] w2 → drained queue w2 out w3 → drained queue w1 out w3.
Proof. apply (drained_trans queue w1 []). Qed.

Lemma drained_cons queue w1 e w2 out w3 :
  drained queue w1 [e] w2 → drained queue w2 out w3 →
  drained queue w1 (e :: out) w3.
Proof. apply (drained_trans queue w1 [e]). Qed.

Lemma queue_of_put_nowait queue queue' item w :
  queue_of queue (put_nowait queue' item w) =
  if decide (queue' = queue) then queue_of queue w ++ [item]
  else queue_of queue w.
Proof.
  unfold queue_of, put_nowait. simpl. rewrite lookup_insert.
  case_decide; by subst.
Qed.

Lemma items_put_put_nowait queue queue' item w :
  items_put queue (put_nowait queue' item w) =
  if decide (queue' = queue) then items_put queue w ++ [item]
  else items_put queue w.
Proof.
  unfold items_put, put_nowait. simpl. rewrite filter_app, fmap_app.
  rewrite filter_cons, filter_nil. simpl.
  repeat case_decide; try done. by rewrite app_nil_r.
Qed.

Lemma drained_put_nowait queue queue' item w :
  drained queue w [] (put_nowait queue' item w).
Proof.
  exists (if decide (queue' = queue) then [item] else []).
  rewrite items_put_put_nowait, queue_of_put_nowait.
  case_decide; by rewrite ?app_nil_r.
Qed.

Lemma queue_of_set_queue queue items w :
  queue_of queue (set_queue queue items w) = items.
Proof. unfold queue_of, set_queue. simpl. by rewrite lookup_insert_eq. Qed.

Lemma drained_get queue item items w at_ :
  queue_of queue w = item :: items →
  drained queue w [mkEmission at_ false item] (set_queue queue items w).
Proof.
  intros Hq. exists []. rewrite queue_of_set_queue, Hq.
  by rewrite !app_nil_r.
Qed.

Lemma drained_synthetic queue w at_ item :
  drained queue w [mkEmission at_ true item] w.
Proof. exists []. by rewrite !app_nil_r. Qed.

Section DrainerProperties.
Variable EMPTY_MESSAGE_INTERVAL : Time.
Variable _Q_WAIT_DELAY : Time.
Variable to_grpc : Log → Log.

Local Abbreviation event := (apply_event to_grpc).
Local Abbreviation events := (apply_events to_grpc).
Local Abbreviation clear := (clear_final_messages to_grpc).
Local Abbreviation loop :=
  (watch_loop EMPTY_MESSAGE_INTERVAL _Q_WAIT_DELAY to_grpc).
Local Abbreviation watch :=
  (watch_queue_until_completed EMPTY_MESSAGE_INTERVAL _Q_WAIT_DELAY to_grpc).

Lemma drained_apply_event queue e w :
  drained queue w [] (event queue e w).
Proof.
  destruct e as [queue' l| |dt]; simpl.
  - apply drained_put_nowait.
  - destruct (pending w) as [|item rest].
    + exists []. by rewrite !app_nil_r.
    + exists [item]. rewrite items_put_put_nowait, queue_of_put_nowait.
      by rewrite !decide_True by done.
  - exists []. by rewrite !app_nil_r.
Qed.

Lemma drained_apply_events queue es w :
  drained queue w [] (events queue es w).
Proof.
  revert w. induction es as [|e es IH]; intros w; [apply drained_refl|].
  simpl. eapply drained_nil_l; [apply drained_apply_event|apply IH].
Qed.

(** Completion and the clock only move forward. *)
Lemma apply_events_done queue es w :
  done w = true → done (events queue es w) = true.
Proof.
  revert w. induction es as [|e es IH]; intros w Hd; [done|].
  simpl. apply IH. destruct e as [? ?| |?]; simpl; [done| |done].
  by destruct (pending w).
Qed.

Lemma apply_events_clock queue es w :
  (clock w ≤ clock (events queue es w))%Z.
Proof.
  revert w. induction es as [|e es IH]; intros w; [done|].
  simpl. etrans; [|apply IH].
  destruct e as [? ?| |?]; simpl; [done| |lia].
  by destruct (pending w).
Qed.

Lemma drained_advance queue dt w : drained queue w [] (advance dt w).
Proof. exists []. by rewrite !app_nil_r. Qed.

Lemma real_elements_queue at_ (items : list PartialRunResult) :
  real_elements (map (mkEmission at_ false) items) = items.
Proof.
  unfold real_elements. induction items as [|x xs IH]; [done|].
  rewrite map_cons, filter_cons_True by done. by rewrite fmap_cons, IH.
Qed.

Lemma clear_final_messages_spec queue batches w out w' :
  clear queue batches w = (out, w') →
  drained queue w out w' ∧ queue_of queue w' = [] ∧
  (done w = true → done w' = true) ∧
  Forall (λ e, synthetic e = false) out.
Proof.
  revert w out w'. induction batches as [|batch batches IH];
    intros w out w'; simpl.
  - intros [= <- <-]. rewrite queue_of_set_queue. split; [|split; [|split]].
    + exists []. rewrite queue_of_set_queue, !app_nil_r.
      split; [done|]. apply real_elements_queue.
    + done.
    + done.
    + apply Forall_fmap, Forall_true. done.
  - destruct (queue_of queue (events queue batch w))
      as [|item items] eqn:Hq.
    + intros [= <- <-]. split; [|split; [|split]].
      * apply drained_apply_events.
      * done.
      * apply apply_events_done.
      * constructor.
    + destruct (clear queue batches _)
        as [out2 w2] eqn:Hrec.
      intros [= <- <-].
      apply IH in Hrec as (Hdr & Hempty & Hdone & Hreal).
      split; [|split; [|split]].
      * eapply drained_nil_l; [apply drained_apply_events|].
        eapply drained_cons; [by apply drained_get|done].
      * done.
      * intros Hd. apply Hdone. simpl. by apply apply_events_done.
      * by constructor.
Qed.

Lemma watch_loop_spec queue timer rounds w out exited w' :
  loop queue timer rounds w = (out, exited, w') →
  drained queue w out w' ∧ (exited = true → done w' = true).
Proof.
  revert timer w out. induction rounds as [|r rounds IH];
    intros timer w out; simpl.
  { intros [= <- <- <-]. split; [apply drained_refl|done]. }
  destruct (done (events queue (before_check r) w)) eqn:Hdone.
  { intros [= <- <- <-]. split; [apply drained_apply_events|done]. }
  set (w1 := events queue (before_check r) w).
  set (w2 := events queue (during_get r) w1).
  assert (drained queue w [] w2) as Hw2.
  { eapply drained_nil_l; apply drained_apply_events. }
  destruct (queue_of queue w2) as [|item items] eqn:Hq.
  - case_decide.
    + destruct (loop queue _ rounds _) as [[out2 exited2] final] eqn:Hrec.
      intros [= <- <- <-]. apply IH in Hrec as [Hdr Hd]. split; [|done].
      eapply drained_nil_l; [exact Hw2|].
      eapply drained_cons; [apply drained_synthetic|].
      eapply drained_nil_l; [apply drained_advance|].
      eapply drained_nil_l; [apply drained_apply_events|exact Hdr].
    + intros Hrec. apply IH in Hrec as [Hdr Hd]. split; [|done].
      eapply drained_nil_l; [exact Hw2|].
      eapply drained_nil_l; [apply drained_advance|].
      eapply drained_nil_l; [apply drained_apply_events|exact Hdr].
  - destruct (loop queue _ rounds _) as [[out2 exited2] final] eqn:Hrec.
    intros [= <- <- <-]. apply IH in Hrec as [Hdr Hd]. split; [|done].
    eapply drained_nil_l; [exact Hw2|].
    eapply drained_cons; [by apply drained_get|].
    eapply drained_nil_l; [apply drained_apply_events|exact Hdr].
Qed.
End DrainerProperties.

Section DrainerTheorems.
Variable EMPTY_MESSAGE_INTERVAL : Time.
Variable _Q_WAIT_DELAY : Time.
Variable to_grpc : Log → Log.

Local Abbreviation events := (apply_events to_grpc).
Local Abbreviation clear := (clear_final_messages to_grpc).
Local Abbreviation loop :=
  (watch_loop EMPTY_MESSAGE_INTERVAL _Q_WAIT_DELAY to_grpc).
Local Abbreviation watch :=
  (watch_queue_until_completed EMPTY_MESSAGE_INTERVAL _Q_WAIT_DELAY to_grpc).

(** C2 (as the code has it).  When [watch_queue_until_completed]
    returns, [is_completed()] has answered true and the queue is
    empty, and what it took from the queue is exactly what the queue
    held at the start followed by everything put on it during the
    call, in the order of the puts: an element put before another is
    yielded before it.  Once the future is done the next turn of the
    loop leaves it and the function returns. *)
Theorem C2_drainer_is_fifo_and_complete (queue : nat)
    (rounds : list Round) (batches : list (list Event)) (w : World) :
  (∀ out w',
      watch queue rounds batches w = (out, true, w') →
      done w' = true ∧ queue_of queue w' = [] ∧
      ∃ new, items_put queue w' = items_put queue w ++ new ∧
             real_elements out = queue_of queue w ++ new) ∧
  (done w = true → rounds ≠ [] →
   ∃ out w', watch queue rounds batches w = (out, true, w')).
Proof.
  split.
  - intros out w'. unfold watch_queue_until_completed.
    destruct (loop queue (clock w) rounds w) as [[out1 [|]] w1] eqn:Hloop;
      [|done].
    destruct (clear queue batches w1) as [out2 w2] eqn:Hclear.
    intros [= <- <-].
    apply watch_loop_spec in Hloop as [Hd1 Hdone].
    apply clear_final_messages_spec in Hclear as (Hd2 & Hempty & Hkeep & _).
    split; [by apply Hkeep, Hdone|]. split; [done|].
    destruct (drained_trans _ _ _ _ _ _ Hd1 Hd2) as (new & Hput & Hq).
    exists new. split; [done|]. by rewrite Hempty, app_nil_r in Hq.
  - intros Hdone Hrounds. destruct rounds as [|r rounds]; [done|].
    unfold watch_queue_until_completed. simpl.
    rewrite apply_events_done by done.
    destruct (clear queue batches _) as [out2 w2].
    by eexists _, _.
Qed.

Lemma synthetic_times_cons_real e out :
  synthetic e = false → synthetic_times (e :: out) = synthetic_times out.
Proof.
  intros He. unfold synthetic_times. rewrite filter_cons_False; [done|].
  by rewrite He.
Qed.

Lemma synthetic_times_cons_synthetic e out :
  synthetic e = true →
  synthetic_times (e :: out) = at_time e :: synthetic_times out.
Proof.
  intros He. unfold synthetic_times. by rewrite filter_cons_True.
Qed.

Lemma synthetic_times_app_real out out' :
  Forall (λ e, synthetic e = false) out' →
  synthetic_times (out ++ out') = synthetic_times out.
Proof.
  intros Hreal. unfold synthetic_times. rewrite filter_app.
  assert (filter (λ e, synthetic e = true) out' = []) as ->.
  { induction Hreal as [|e out' He _ IH]; [done|].
    rewrite filter_cons_False; [done|]. by rewrite He. }
  by rewrite app_nil_r.
Qed.

Lemma watch_loop_keep_alive queue timer rounds w :
  spaced EMPTY_MESSAGE_INTERVAL timer
    (synthetic_times (loop queue timer rounds w).1.1) ∧
  Forall (λ e, synthetic e = true → element e = keep_alive)
    (loop queue timer rounds w).1.1.
Proof.
  revert timer w. induction rounds as [|r rounds IH]; intros timer w; simpl.
  { split; [done|constructor]. }
  destruct (done (events queue (before_check r) w)).
  { split; [done|constructor]. }
  set (w2 := events queue (during_get r) _).
  destruct (queue_of queue w2) as [|item items].
  - case_decide as Hlate.
    + match goal with |- context [loop queue ?t rounds ?w'] =>
        specialize (IH t w');
        destruct (loop queue t rounds w') as [[out exited] final] end.
      simpl in *. destruct IH as [IHs IHk].
      split; [|by constructor]. split; [|done].
      pose proof (apply_events_clock to_grpc queue (before_reset r)
                    (advance _Q_WAIT_DELAY w2)) as Hclock.
      simpl in Hclock. lia.
    + apply IH.
  - match goal with |- context [loop queue ?t rounds ?w'] =>
      specialize (IH t w');
      destruct (loop queue t rounds w') as [[out exited] final] end.
    simpl in *. destruct IH as [IHs IHk].
    split; [done|]. by constructor.
Qed.

Lemma watch_loop_emits_when_late queue timer r rounds w :
  done (events queue (before_check r) w) = false →
  queue_of queue
    (events queue (during_get r) (events queue (before_check r) w)) = [] →
  (clock (events queue (during_get r) (events queue (before_check r) w))
     + _Q_WAIT_DELAY - timer > EMPTY_MESSAGE_INTERVAL)%Z →
  ∃ at_ out',
    (loop queue timer (r :: rounds) w).1.1 =
      mkEmission at_ true keep_alive :: out' ∧
    (clock (events queue (during_get r) (events queue (before_check r) w))
       + _Q_WAIT_DELAY ≤ at_)%Z.
Proof.
  intros Hnd Hq Hlate. simpl. rewrite Hnd, Hq.
  rewrite decide_True by (simpl; lia).
  destruct (loop queue _ rounds _) as [[out' exited] final].
  eexists _, out'. split; [done|].
  match goal with |- (_ ≤ clock (events queue ?es ?w'))%Z =>
    pose proof (apply_events_clock to_grpc queue es w') as Hclock end.
  simpl in Hclock. simpl. lia.
Qed.

Lemma watch_synthetic_is_keep_alive queue rounds batches w :
  Forall (λ e, synthetic e = true → element e = keep_alive)
    (watch queue rounds batches w).1.1.
Proof.
  pose proof (watch_loop_keep_alive queue (clock w) rounds w) as [_ Hk].
  unfold watch_queue_until_completed.
  destruct (loop queue (clock w) rounds w) as [[out1 [|]] w1]; [|done].
  destruct (clear queue batches w1) as [out2 w2] eqn:Hclear.
  apply clear_final_messages_spec in Hclear as (_ & _ & _ & Hreal).
  simpl. apply Forall_app. split; [done|].
  eapply Forall_impl; [exact Hreal|]. simpl. intros e He. by rewrite He.
Qed.

Lemma last_reset_cons since e out :
  last_reset since (e :: out) =
  if synthetic e then last_reset (at_time e) out else last_reset since out.
Proof.
  unfold last_reset. destruct (synthetic e) eqn:He.
  - rewrite synthetic_times_cons_synthetic by done. rewrite last_cons.
    by destruct (last (synthetic_times out)).
  - by rewrite synthetic_times_cons_real.
Qed.

Lemma watch_loop_rounded_exact queue timer rounds w :
  watch_loop_rounded EMPTY_MESSAGE_INTERVAL _Q_WAIT_DELAY to_grpc Z.sub
    queue timer rounds w = loop queue timer rounds w.
Proof.
  revert timer w. induction rounds as [|r rounds IH]; intros timer w; simpl;
    [done|].
  destruct (done _); [done|].
  destruct (queue_of queue _) as [|item items].
  - case_decide; by rewrite IH.
  - by rewrite IH.
Qed.

Section Rounded.
Variable elapsed : Time → Time → Time.

Local Abbreviation rounded :=
  (watch_loop_rounded EMPTY_MESSAGE_INTERVAL _Q_WAIT_DELAY to_grpc elapsed).

(** The loop over [pre ++ rest] is the loop over [pre] followed, when
    it has not been left, by the loop over [rest] with the timer at
    its last reset. *)
Lemma watch_loop_rounded_app queue pre rest : ∀ timer w,
  rounded queue timer (pre ++ rest) w =
  match rounded queue timer pre w with
  | (out, true, w1) => (out, true, w1)
  | (out, false, w1) =>
      let '(out', exited, w2) :=
        rounded queue (last_reset timer out) rest w1 in
      (out ++ out', exited, w2)
  end.
Proof.
  induction pre as [|r pre IH]; intros timer w.
  { simpl. unfold last_reset. simpl.
    by destruct (rounded queue timer rest w) as [[out' exited] w2]. }
  simpl. destruct (done _); [done|].
  destruct (queue_of queue _) as [|item items].
  - case_decide.
    + rewrite IH.
      destruct (rounded queue _ pre _) as [[out [|]] w1]; [done|].
      rewrite last_reset_cons. simpl.
      by destruct (rounded queue _ rest w1) as [[out' exited] w2].
    + apply IH.
  - rewrite IH.
    destruct (rounded queue _ pre _) as [[out [|]] w1]; [done|].
    rewrite last_reset_cons. simpl.
    by destruct (rounded queue _ rest w1) as [[out' exited] w2].
Qed.

Lemma watch_loop_rounded_spaced queue timer rounds w :
  (∀ now since,
     (elapsed now since > EMPTY_MESSAGE_INTERVAL)%Z →
     (now - since > EMPTY_MESSAGE_INTERVAL)%Z) →
  spaced EMPTY_MESSAGE_INTERVAL timer
    (synthetic_times (rounded queue timer rounds w).1.1).
Proof.
  intros Hsound. revert timer w.
  induction rounds as [|r rounds IH]; intros timer w; simpl; [done|].
  destruct (done (events queue (before_check r) w)); [done|].
  set (w2 := events queue (during_get r) _).
  destruct (queue_of queue w2) as [|item items].
  - case_decide as Hlate.
    + match goal with |- context [rounded queue ?t rounds ?w'] =>
        specialize (IH t w');
        destruct (rounded queue t rounds w') as [[out exited] final] end.
      simpl in *. split; [|done]. apply Hsound in Hlate.
      pose proof (apply_events_clock to_grpc queue (before_reset r)
                    (advance _Q_WAIT_DELAY w2)) as Hclock.
      simpl in *. lia.
    + apply IH.
  - match goal with |- context [rounded queue ?t rounds ?w'] =>
      specialize (IH t w');
      destruct (rounded queue t rounds w') as [[out exited] final] end.
    simpl in *. done.
Qed.

(** One turn of the loop in which [queue.get] times out. *)
Lemma watch_loop_rounded_timeout queue timer r w :
  done (events queue (before_check r) w) = false →
  queue_of queue
    (events queue (during_get r) (events queue (before_check r) w)) = [] →
  (rounded queue timer [r] w).1.1 =
  if decide (elapsed
               (clock (events queue (during_get r)
                         (events queue (before_check r) w)) + _Q_WAIT_DELAY)
               timer > EMPTY_MESSAGE_INTERVAL)%Z
  then [mkEmission
          (clock (events queue (before_reset r)
                    (advance _Q_WAIT_DELAY
                       (events queue (during_get r)
                          (events queue (before_check r) w)))))
          true keep_alive]
  else [].
Proof.
  intros Hnd Hq. simpl. rewrite Hnd, Hq. simpl. by case_decide.
Qed.

(** One turn of the loop in which [queue.get] returns an element. *)
Lemma watch_loop_rounded_get queue timer r w item items :
  done (events queue (before_check r) w) = false →
  queue_of queue
    (events queue (during_get r) (events queue (before_check r) w))
    = item :: items →
  (rounded queue timer [r] w).1.1 =
  [mkEmission
     (clock (events queue (during_get r) (events queue (before_check r) w)))
     false item].
Proof. intros Hnd Hq. simpl. by rewrite Hnd, Hq. Qed.
End Rounded.

End DrainerTheorems.

(** ** Concrete runs of the drainer *)

(** C2, as stated, fails: the log below was put on the queue before the
    pump's future completed, and it is yielded after the element with
    [is_complete=true]. *)
Lemma C2_log_after_terminal_counterexample :
  let run := watch_queue_until_completed 600000%Z 100%Z id 0
               log_after_terminal [] world_before_dispatch in
  element <$> run.1.1 = [terminal_element; late_log_element] ∧
  run.1.2 = true ∧ done run.2 = true ∧
  (* once the log is on the queue the future is still not done *)
  (let w2 := apply_events id 0 [Producer; LogHook 0 late_log]
               world_before_dispatch in
   done w2 = false ∧ (0, late_log_element) ∈ put_log w2).
Proof.
  vm_compute. split; [done|]. split; [done|]. split; [done|].
  split; [done|]. set_solver.
Qed.

Lemma C2_drainer_witness :
  ∃ out w',
    watch_queue_until_completed 600000%Z 100%Z id 0 log_after_terminal []
      world_before_dispatch = (out, true, w') ∧
    done w' = true ∧ queue_of 0 w' = [] ∧
    real_elements out = items_put 0 w'.
Proof.
  destruct (watch_queue_until_completed 600000%Z 100%Z id 0 log_after_terminal []
              world_before_dispatch) as [[out [|]] w'] eqn:Hrun;
    [|by vm_compute in Hrun].
  exists out, w'. split; [done|].
  destruct (C2_drainer_is_fifo_and_complete 600000%Z 100%Z id 0
              log_after_terminal [] world_before_dispatch) as [Hfifo _].
  destruct (Hfifo out w' Hrun) as (Hdone & Hempty & new & Hput & Hreal).
  split; [done|]. split; [done|]. by rewrite Hput, Hreal.
Defined.



(** ** The task runner *)

Lemma flat_map_singleton {A B} (f : A → B) (l : list A) :
  flat_map (λ x, [f x]) l = f <$> l.
Proof. induction l as [|x l IH]; [done|]. simpl. by rewrite IH. Qed.

Section TaskRunnerProperties.
Variable EMPTY_MESSAGE_INTERVAL : Time.
Variable _Q_WAIT_DELAY : Time.
Variable MAX_GRPC_WAIT_TIMEOUT : Time.
Variable to_grpc : Log → Log.
Variable AGENT_REQUIREMENTS : list string.
Variable INHERIT_FROM_LOCAL : bool.
Variable Env : Type.
Variable from_grpc : EnvironmentDefinition.t → PyException + Env.
Variable python_version : Env → option string.
Variable active_python : string.
Variable VirtualPythonEnvironment : list string → string → Env.
Variable local_environment_path : string.
Variable create : Env → bool → Build.
Variable bridge_factory :
  Env → string → list string → Time → PyException + nat.
Variable bridge_Run : nat → FunctionCall.t → Pump.

Local Abbreviation classify := (classify_pump_exception to_grpc).
Local Abbreviation dispatching :=
  (dispatch EMPTY_MESSAGE_INTERVAL _Q_WAIT_DELAY to_grpc bridge_Run).
Local Abbreviation watch :=
  (watch_queue_until_completed EMPTY_MESSAGE_INTERVAL _Q_WAIT_DELAY to_grpc).
Local Abbreviation decode := (decode_environments Env from_grpc).
Local Abbreviation run_task :=
  (_run_task EMPTY_MESSAGE_INTERVAL _Q_WAIT_DELAY MAX_GRPC_WAIT_TIMEOUT
     to_grpc AGENT_REQUIREMENTS INHERIT_FROM_LOCAL Env from_grpc
     python_version active_python VirtualPythonEnvironment local_environment_path create
     bridge_factory bridge_Run).


Lemma decode_first_failure good bad rest exc :
  Forall (λ d, ∃ environment, from_grpc d = inr environment) good →
  from_grpc bad = inl exc →
  decode (good ++ bad :: rest) =
    if isinstance exc "ValueError" then
      Raised (GRPCException
                ("Unknown environment kind: " +:+ EnvironmentDefinition.kind bad)
                INVALID_ARGUMENT)
    else if isinstance exc "TypeError" then
      Raised (GRPCException ("Invalid environment: " +:+ exc_str exc)
                INVALID_ARGUMENT)
    else Raised (Uncaught exc).
Proof.
  intros Hgood Hbad. induction Hgood as [|d good [environment Hd] _ IH].
  - simpl. by rewrite Hbad.
  - simpl. rewrite Hd, IH. by repeat case_match.
Qed.

(** C6 (as the code has it).  [_run_task] raises a [GRPCException]
    with status [INVALID_ARGUMENT] before it yields anything when the
    environments cannot be decoded or none is given.  The message is
    that of the first environment, in the order of the request, that
    fails to decode: "Unknown environment kind: <kind>" when decoding
    raised a [ValueError], "Invalid environment: <text>" when it raised
    a [TypeError]; with no environment at all it is "At least one
    environment must be specified for a run!". *)
Theorem C6_validation_fails_before_any_element (task : Task)
    (bridge_manager : BridgeManager) (w : World) :
  (∀ good bad rest exc,
      BoundFunction.environments (request task) = good ++ bad :: rest →
      Forall (λ d, ∃ environment, from_grpc d = inr environment) good →
      from_grpc bad = inl exc →
      (isinstance exc "ValueError" = true →
       (run_task task bridge_manager w).1.1 =
         ([], Some (Raised (GRPCException
                              ("Unknown environment kind: " +:+
                               EnvironmentDefinition.kind bad)
                              INVALID_ARGUMENT)), task)) ∧
      (isinstance exc "ValueError" = false →
       isinstance exc "TypeError" = true →
       (run_task task bridge_manager w).1.1 =
         ([], Some (Raised (GRPCException
                              ("Invalid environment: " +:+ exc_str exc)
                              INVALID_ARGUMENT)), task))) ∧
  (BoundFunction.environments (request task) = [] →
   (run_task task bridge_manager w).1.1 =
     ([], Some (Raised (GRPCException
                          "At least one environment must be specified for a run!"
                          INVALID_ARGUMENT)), task)).
Proof.
  split.
  - intros good bad rest exc Henvs Hgood Hbad.
    pose proof (decode_first_failure good bad rest exc Hgood Hbad) as Hdec.
    rewrite <- Henvs in Hdec. unfold _run_task. rewrite Hdec. split.
    + by intros ->.
    + by intros -> ->.
  - intros Henvs. unfold _run_task. by rewrite Henvs.
Qed.
End TaskRunnerProperties.

(** ** Concrete runs of the task runner *)

(** The happy path: the builder's log, then the terminal element; the
    agent is pooled afterwards under the path of the environment. *)
Example run_task_happy_path :
  let '(yielded, exit, task, bridge_manager, w) := example_run_task None [venv] in
  yielded =
    [mkPartialRunResult false [mkLog "Creating the environment" INFO BUILDER]
       None;
     terminal_element] ∧
  exit = Some (Returned ()) ∧
  agent task = Some 0 ∧
  agents_of ["/cache/venv"] bridge_manager = [0].
Proof. vm_compute. done. Qed.


(** An agent error ends the run with [ABORTED], after the terminal
    element and the lines of the stack trace. *)
Example run_task_agent_error :
  (example_run_task (Some agent_error) [venv]).1.1.1 =
    ([mkPartialRunResult false [mkLog "Creating the environment" INFO BUILDER]
        None;
      terminal_element;
      mkPartialRunResult false
        [mkLog "Traceback (most recent call last):" ERROR BRIDGE] None;
      mkPartialRunResult false [mkLog "AgentError: agent died" ERROR BRIDGE]
        None],
     Some (Raised (GRPCException "agent died" ABORTED))).
Proof. vm_compute. done. Qed.

Lemma C6_validation_witness :
  (example_run_task None [venv; unknown_kind; malformed]).1.1.1 =
    ([], Some (Raised (GRPCException
                         "Unknown environment kind: does-not-exist"
                         INVALID_ARGUMENT))) ∧
  (example_run_task None [malformed]).1.1.1 =
    ([], Some (Raised (GRPCException
                         "Invalid environment: unexpected keyword argument 'bogus'"
                         INVALID_ARGUMENT))) ∧
  (example_run_task None []).1.1.1 =
    ([], Some (Raised (GRPCException
                         "At least one environment must be specified for a run!"
                         INVALID_ARGUMENT))).
Proof.
  unfold example_run_task, example_run_task_with. split; [|split].
  - match goal with |- (?run ?task ?bm ?w).1.1.1 = _ =>
      destruct (C6_validation_fails_before_any_element 600000%Z 100%Z 10%Z id
                  [] false string example_from_grpc (λ _, None) "3.11"
                  (λ _ _, "agent-env") "/usr" example_create
                  (λ _ _ _ _, inr 7) (example_pump None) task bm w)
        as [Hfail _] end.
    destruct (Hfail [venv] unknown_kind [malformed] value_error) as [Hvalue _];
      [reflexivity| |reflexivity|].
    + constructor; [by eexists|constructor].
    + by rewrite Hvalue.
  - match goal with |- (?run ?task ?bm ?w).1.1.1 = _ =>
      destruct (C6_validation_fails_before_any_element 600000%Z 100%Z 10%Z id
                  [] false string example_from_grpc (λ _, None) "3.11"
                  (λ _ _, "agent-env") "/usr" example_create
                  (λ _ _ _ _, inr 7) (example_pump None) task bm w)
        as [Hfail _] end.
    destruct (Hfail [] malformed [] type_error) as [_ Htype];
      [reflexivity|constructor|reflexivity|].
    by rewrite Htype.
  - match goal with |- (?run ?task ?bm ?w).1.1.1 = _ =>
      destruct (C6_validation_fails_before_any_element 600000%Z 100%Z 10%Z id
                  [] false string example_from_grpc (λ _, None) "3.11"
                  (λ _ _, "agent-env") "/usr" example_create
                  (λ _ _ _ _, inr 7) (example_pump None) task bm w)
        as [_ Hempty] end.
    by rewrite Hempty.
Defined.

(** C6, as stated, fails: the request below has an environment of an
    unknown kind, and the message is that of the malformed one before
    it. *)
Lemma C6_unknown_kind_after_malformed_counterexample :
  unknown_kind ∈ [malformed; unknown_kind] ∧
  example_from_grpc unknown_kind = inl value_error ∧
  isinstance value_error "ValueError" = true ∧
  (example_run_task None [malformed; unknown_kind]).1.1.1 =
    ([], Some (Raised (GRPCException
                         "Invalid environment: unexpected keyword argument 'bogus'"
                         INVALID_ARGUMENT))).
Proof. split; [set_solver|]. vm_compute. done. Qed.

(** ** Terminal elements *)

Lemma terminal_count_app l1 l2 :
  terminal_count (l1 ++ l2) = terminal_count l1 + terminal_count l2.
Proof. unfold terminal_count. by rewrite filter_app, length_app. Qed.

Lemma terminal_count_cons m l :
  terminal_count (m :: l) =
  (if is_complete m then 1 else 0) + terminal_count l.
Proof.
  unfold terminal_count. rewrite filter_cons.
  destruct (is_complete m); by case_decide.
Qed.

Section TerminalElements.
Variable EMPTY_MESSAGE_INTERVAL : Time.
Variable _Q_WAIT_DELAY : Time.
Variable to_grpc : Log → Log.

Local Abbreviation events := (apply_events to_grpc).
Local Abbreviation clear := (clear_final_messages to_grpc).
Local Abbreviation loop :=
  (watch_loop EMPTY_MESSAGE_INTERVAL _Q_WAIT_DELAY to_grpc).
Local Abbreviation watch :=
  (watch_queue_until_completed EMPTY_MESSAGE_INTERVAL _Q_WAIT_DELAY to_grpc).

Lemma apply_event_terminals queue e w :
  terminals_ahead queue (apply_event to_grpc queue e w) =
  terminals_ahead queue w.
Proof.
  unfold terminals_ahead. destruct e as [queue' l| |dt]; simpl.
  - unfold handle, _add_log_to_queue. rewrite queue_of_put_nowait.
    case_decide; [|done]. rewrite terminal_count_app, terminal_count_cons.
    simpl. simpl. change (terminal_count []) with 0. lia.
  - destruct (pending w) as [|item rest] eqn:Hp; simpl; [done|].
    rewrite queue_of_put_nowait, decide_True by done.
    rewrite terminal_count_app, !terminal_count_cons.
    change (queue_of queue (mkWorld (queues w) rest (done w) (clock w)
                              (put_log w))) with (queue_of queue w).
    simpl. change (terminal_count []) with 0. destruct (is_complete item); lia.
  - done.
Qed.

Lemma apply_events_terminals queue es w :
  terminals_ahead queue (events queue es w) = terminals_ahead queue w.
Proof.
  revert w. induction es as [|e es IH]; intros w; [done|].
  simpl. by rewrite IH, apply_event_terminals.
Qed.

Lemma set_queue_terminals queue item items w :
  queue_of queue w = item :: items →
  (if is_complete item then 1 else 0) +
    terminals_ahead queue (set_queue queue items w) =
  terminals_ahead queue w.
Proof.
  intros Hq. unfold terminals_ahead.
  rewrite queue_of_set_queue, Hq, terminal_count_cons.
  destruct (is_complete item); simpl; lia.
Qed.

Lemma clear_final_messages_terminals queue batches w :
  terminal_count (element <$> (clear queue batches w).1) +
    terminals_ahead queue (clear queue batches w).2 =
  terminals_ahead queue w.
Proof.
  revert w. induction batches as [|batch batches IH]; intros w; simpl.
  - unfold terminals_ahead. rewrite queue_of_set_queue. simpl.
    rewrite <- list_fmap_compose.
    replace (element ∘ mkEmission (clock w) false) with (@id PartialRunResult)
      by done.
    rewrite list_fmap_id. simpl. change (terminal_count []) with 0. lia.
  - destruct (queue_of queue (events queue batch w)) as [|item items] eqn:Hq.
    + simpl. rewrite apply_events_terminals.
      simpl. change (terminal_count []) with 0. lia.
    + specialize (IH (set_queue queue items (events queue batch w))).
      destruct (clear queue batches _) as [out2 w2]. simpl in *.
      rewrite terminal_count_cons. simpl.
      pose proof (set_queue_terminals queue item items _ Hq) as Hset.
      rewrite apply_events_terminals in Hset. unfold fmap in *.
      destruct (is_complete item); lia.
Qed.

Lemma watch_loop_terminals queue timer rounds w :
  terminal_count (element <$> (loop queue timer rounds w).1.1) +
    terminals_ahead queue (loop queue timer rounds w).2 =
  terminals_ahead queue w.
Proof.
  revert timer w. induction rounds as [|r rounds IH]; intros timer w; simpl.
  { simpl. change (terminal_count []) with 0. lia. }
  destruct (done (events queue (before_check r) w)).
  { simpl. rewrite apply_events_terminals.
    simpl. change (terminal_count []) with 0. lia. }
  set (w2 := events queue (during_get r) _).
  assert (terminals_ahead queue w2 = terminals_ahead queue w) as Hw2.
  { unfold w2. by rewrite !apply_events_terminals. }
  destruct (queue_of queue w2) as [|item items] eqn:Hq.
  - assert (∀ es, terminals_ahead queue
                    (events queue es (advance _Q_WAIT_DELAY w2)) =
                  terminals_ahead queue w) as Hadv.
    { intros es. by rewrite apply_events_terminals, <- Hw2. }
    case_decide as Hlate.
    + match goal with |- context [loop queue ?t rounds ?w'] =>
        specialize (IH t w');
        destruct (loop queue t rounds w') as [[out exited] final] end.
      simpl in *. rewrite terminal_count_cons. simpl.
      rewrite Hadv in IH. unfold fmap in *. lia.
    + rewrite IH. apply Hadv.
  - match goal with |- context [loop queue ?t rounds ?w'] =>
      specialize (IH t w');
      destruct (loop queue t rounds w') as [[out exited] final] end.
    simpl in *. rewrite terminal_count_cons. simpl.
    rewrite apply_events_terminals in IH.
    pose proof (set_queue_terminals queue item items _ Hq) as Hset.
    unfold fmap in *. destruct (is_complete item); lia.
Qed.

Lemma watch_terminals queue rounds batches w :
  terminal_count (element <$> (watch queue rounds batches w).1.1) +
    terminals_ahead queue (watch queue rounds batches w).2 =
  terminals_ahead queue w.
Proof.
  unfold watch_queue_until_completed.
  pose proof (watch_loop_terminals queue (clock w) rounds w) as Hloop.
  destruct (loop queue (clock w) rounds w) as [[out1 [|]] w1]; [|done].
  pose proof (clear_final_messages_terminals queue batches w1) as Hclear.
  destruct (clear queue batches w1) as [out2 w2]. simpl in *.
  rewrite fmap_app, terminal_count_app. lia.
Qed.
End TerminalElements.

Section YieldedElements.
Variable EMPTY_MESSAGE_INTERVAL : Time.
Variable _Q_WAIT_DELAY : Time.
Variable to_grpc : Log → Log.

(** A property that the elements of the log hook and the drainer's own
    packet have. *)
Variable P : PartialRunResult → Prop.
Hypothesis P_log : ∀ l, P (mkPartialRunResult false [to_grpc l] None).
Hypothesis P_keep_alive : P keep_alive.

Local Abbreviation events := (apply_events to_grpc).
Local Abbreviation clear := (clear_final_messages to_grpc).
Local Abbreviation loop :=
  (watch_loop EMPTY_MESSAGE_INTERVAL _Q_WAIT_DELAY to_grpc).
Local Abbreviation watch :=
  (watch_queue_until_completed EMPTY_MESSAGE_INTERVAL _Q_WAIT_DELAY to_grpc).

Local Abbreviation all_ahead := (all_ahead P).

Lemma apply_event_all_ahead queue e w :
  all_ahead queue w → all_ahead queue (apply_event to_grpc queue e w).
Proof.
  intros [Hq Hp]. destruct e as [queue' l| |dt]; simpl.
  - split; [|done]. unfold handle, _add_log_to_queue.
    rewrite queue_of_put_nowait. case_decide; [|done].
    apply Forall_app. split; [done|]. by constructor.
  - destruct (pending w) as [|item rest] eqn:Hpending; [by split|].
    inversion Hp; subst. split; [|done].
    rewrite queue_of_put_nowait, decide_True by done.
    apply Forall_app. split; [done|]. by constructor.
  - by split.
Qed.

Lemma apply_events_all_ahead queue es w :
  all_ahead queue w → all_ahead queue (events queue es w).
Proof.
  revert w. induction es as [|e es IH]; intros w Hw; [done|].
  simpl. by apply IH, apply_event_all_ahead.
Qed.

Lemma set_queue_all_ahead queue item items w :
  queue_of queue w = item :: items → all_ahead queue w →
  P item ∧ all_ahead queue (set_queue queue items w).
Proof.
  intros Hq [Hall Hp]. rewrite Hq in Hall. inversion Hall; subst.
  split; [done|]. split; [|done]. by rewrite queue_of_set_queue.
Qed.

Lemma clear_final_messages_all queue batches w :
  all_ahead queue w →
  Forall P (element <$> (clear queue batches w).1) ∧
  all_ahead queue (clear queue batches w).2.
Proof.
  revert w. induction batches as [|batch batches IH]; intros w Hw; simpl.
  - destruct Hw as [Hq Hp]. split.
    + rewrite <- list_fmap_compose.
      by replace (element ∘ mkEmission (clock w) false)
        with (@id PartialRunResult); [rewrite list_fmap_id|].
    + split; [|done]. by rewrite queue_of_set_queue.
  - apply (apply_events_all_ahead queue batch) in Hw.
    destruct (queue_of queue (events queue batch w)) as [|item items] eqn:Hq.
    + split; [constructor|done].
    + destruct (set_queue_all_ahead _ _ _ _ Hq Hw) as [Hitem Hrest].
      specialize (IH _ Hrest).
      destruct (clear queue batches _) as [out2 w2]. simpl in *.
      destruct IH. split; [by constructor|done].
Qed.

Lemma watch_loop_all queue timer rounds w :
  all_ahead queue w →
  Forall P (element <$> (loop queue timer rounds w).1.1) ∧
  all_ahead queue (loop queue timer rounds w).2.
Proof.
  revert timer w. induction rounds as [|r rounds IH]; intros timer w Hw; simpl.
  { split; [constructor|done]. }
  apply (apply_events_all_ahead queue (before_check r)) in Hw.
  destruct (done (events queue (before_check r) w)).
  { split; [constructor|done]. }
  apply (apply_events_all_ahead queue (during_get r)) in Hw.
  set (w2 := events queue (during_get r) _) in *.
  destruct (queue_of queue w2) as [|item items] eqn:Hq.
  - assert (∀ es, all_ahead queue (events queue es (advance _Q_WAIT_DELAY w2)))
      as Hadv.
    { intros es. by apply apply_events_all_ahead. }
    case_decide as Hlate.
    + match goal with |- context [loop queue ?t rounds ?w'] =>
        specialize (IH t w' (Hadv _));
        destruct (loop queue t rounds w') as [[out exited] final] end.
      simpl in *. destruct IH. split; [by constructor|done].
    + apply IH, Hadv.
  - destruct (set_queue_all_ahead _ _ _ _ Hq Hw) as [Hitem Hrest].
    apply (apply_events_all_ahead queue (before_reset r)) in Hrest.
    match goal with |- context [loop queue ?t rounds ?w'] =>
      specialize (IH t w' Hrest);
      destruct (loop queue t rounds w') as [[out exited] final] end.
    simpl in *. destruct IH. split; [by constructor|done].
Qed.

Lemma watch_all queue rounds batches w :
  all_ahead queue w →
  Forall P (element <$> (watch queue rounds batches w).1.1).
Proof.
  intros Hw. unfold watch_queue_until_completed.
  destruct (watch_loop_all queue (clock w) rounds w Hw) as [Hout Hw1].
  destruct (loop queue (clock w) rounds w) as [[out1 [|]] w1]; [|done].
  destruct (clear_final_messages_all queue batches w1 Hw1) as [Hout2 _].
  destruct (clear queue batches w1) as [out2 w2]. simpl in *.
  rewrite fmap_app. by apply Forall_app.
Qed.
End YieldedElements.

Section AgentStream.
Variable Obj : Type.
Variable from_grpc : SerializedObject → (Obj * string) + Obj.
Variable callable : Obj → bool.
Variable type_name : Obj → string.
Variable type_repr : Obj → string.
Variable call : Obj → list Obj → (Obj * string) + Obj.
Variable serialize_object : string → Obj → Serialization.
Variable sha256_digest_of : string → string → string.

Local Abbreviation agent_send_object :=
  (AgentServicer.send_object Obj type_repr serialize_object).
Local Abbreviation agent_run_function :=
  (AgentServicer.run_function Obj from_grpc callable type_name type_repr call
     serialize_object).
Local Abbreviation agent_Run :=
  (AgentServicer.Run Obj from_grpc callable type_name type_repr call
     serialize_object sha256_digest_of).

Lemma send_object_terminal serialization_method value raised stringized_tb
    packet :
  agent_send_object serialization_method value raised stringized_tb =
    inr packet →
  is_complete packet = true ∧ is_Some (result packet) ∧ logs packet = [].
Proof.
  unfold AgentServicer.send_object.
  destruct (serialize_object serialization_method value); [|done|done].
  intros [= <-]. simpl. by eauto.
Qed.

Lemma run_function_shape request extra_args _run_cache :
  agent_stream_shape (agent_run_function request extra_args _run_cache).1.1.
Proof.
  unfold AgentServicer.run_function.
  destruct (AgentServicer.execute_function _ _ _ _ _ _ _ _)
    as [message|[[value raised] stringized_tb]]; [by left|].
  destruct (agent_send_object _ value raised stringized_tb)
    as [message|packet] eqn:Hsend; [by left|].
  right. exists packet. split; [done|]. by eapply send_object_terminal.
Qed.

Lemma agent_Run_shape request _run_cache :
  agent_stream_shape (agent_Run request _run_cache).1.1.
Proof.
  unfold AgentServicer.Run.
  destruct (FunctionCall.setup_func request) as [setup_func|];
    [|apply run_function_shape].
  destruct (_run_cache !! _) as [cached|]; [apply run_function_shape|].
  destruct (AgentServicer.execute_function _ _ _ _ _ setup_func _ _)
    as [message|[[value raised] stringized_tb]]; [by left|].
  destruct raised; [|apply run_function_shape].
  destruct (agent_send_object _ value true stringized_tb)
    as [message|packet] eqn:Hsend; [by left|].
  right. exists packet. split; [done|]. by eapply send_object_terminal.
Qed.
End AgentStream.

Lemma agent_stream_shape_counts stream :
  agent_stream_shape stream →
  terminal_count stream ≤ 1 ∧ Forall carries_result stream.
Proof.
  intros [->|(packet & -> & Hc & Hr & _)].
  - split; [by apply Nat.le_0_l|constructor].
  - split.
    + rewrite terminal_count_cons, Hc. done.
    + constructor; [by intros _|constructor].
Qed.


(** ** Concrete streams *)

Example agent_run_happy_path :
  (example_agent_Run (FunctionCall.mk a_result None) ∅).1 =
    ([mkPartialRunResult true []
        (Some (mkSerializedObject "pickle" "42" false None))], Completed).
Proof. reflexivity. Qed.

Example keep_alive_after_terminal :
  (example_run_task_with pump_slow_to_return [venv]).1.1.1 =
    ([mkPartialRunResult false [mkLog "Creating the environment" INFO BUILDER]
        None;
      terminal_element;
      keep_alive],
     Some (Returned ())).
Proof. vm_compute. done. Qed.

(** ** Background tasks *)

Lemma tasks_extend_refl tasks : tasks_extend tasks tasks.
Proof. intros t task Ht. by exists task. Qed.

Lemma tasks_extend_has_future self self' t :
  tasks_extend (task_store self) (task_store self') →
  has_future self t → has_future self' t.
Proof.
  intros Hext (task & Ht & Hf).
  destruct (Hext t task Ht) as (task' & Ht' & Hkeep).
  exists task'. split; [done|]. by apply Hkeep.
Qed.

Lemma tasks_extend_known self self' t :
  tasks_extend (task_store self) (task_store self') →
  is_Some (task_store self !! t) → is_Some (task_store self' !! t).
Proof.
  intros Hext [task Ht]. destruct (Hext t task Ht) as (task' & Ht' & _).
  by exists task'.
Qed.

Lemma tasks_extend_fresh tasks task :
  tasks_extend tasks (<[fresh (dom tasks) := task]> tasks).
Proof.
  intros t task0 Ht. exists task0. split; [|done].
  rewrite lookup_insert_ne; [done|]. intros <-.
  apply (is_fresh (dom tasks)). apply elem_of_dom. by eexists.
Qed.

Lemma task_store_invoke_callbacks fut self :
  task_store (_invoke_callbacks fut self) = task_store self.
Proof. done. Qed.

Lemma task_store_invoke_callbacks_of f self :
  task_store (invoke_callbacks_of f self) = task_store self.
Proof.
  unfold invoke_callbacks_of. by destruct (future_store self !! f).
Qed.

Lemma task_store_future_cancel f self :
  task_store (future_cancel f self).2 = task_store self.
Proof.
  unfold future_cancel. destruct (future_store self !! f) as [fut|]; [|done].
  by destruct (_state fut).
Qed.

Lemma task_store_add_done_callback f task_id self :
  task_store (add_done_callback f task_id self) = task_store self.
Proof.
  unfold add_done_callback.
  destruct (future_store self !! f) as [fut|]; [|done].
  by destruct (is_terminal (_state fut)).
Qed.

Lemma worker_event_tasks_extend e self :
  tasks_extend (task_store self) (task_store (worker_event e self)).
Proof.
  destruct e as [f|t agent|f|f exception|f]; simpl.
  - destruct (future_store self !! f) as [fut|]; [|apply tasks_extend_refl].
    destruct (_state fut); apply tasks_extend_refl.
  - destruct (task_store self !! t) as [task|] eqn:Ht;
      [|apply tasks_extend_refl].
    match goal with |- context [if ?b then _ else _] => destruct b end;
      [|apply tasks_extend_refl].
    intros t0 task0 Ht0. simpl.
    destruct (decide (t0 = t)) as [->|Hne].
    + rewrite lookup_insert_eq. eexists. split; [done|].
      simpl. by simplify_eq.
    + rewrite lookup_insert_ne by done. by exists task0.
  - destruct (future_store self !! f) as [fut|]; [|apply tasks_extend_refl].
    destruct (_state fut); apply tasks_extend_refl.
  - destruct (future_store self !! f) as [fut|]; [|apply tasks_extend_refl].
    destruct (_state fut); apply tasks_extend_refl.
  - destruct (future_store self !! f) as [fut|]; [|apply tasks_extend_refl].
    destruct (_state fut); apply tasks_extend_refl.
Qed.

Lemma thread_step_tasks_extend th self :
  tasks_extend (task_store self) (task_store (thread_step th self).2).
Proof.
  destruct th; simpl; try apply tasks_extend_refl.
  - apply tasks_extend_fresh.
  - destruct (task_store self !! t) as [task|] eqn:Ht;
      [|apply tasks_extend_refl].
    simpl. intros t0 task0 Ht0.
    destruct (decide (t0 = t)) as [->|Hne].
    + rewrite lookup_insert_eq. eexists. split; [done|].
      simpl. by eauto.
    + rewrite lookup_insert_ne by done. by exists task0.
  - destruct (task_store self !! t ≫= future); simpl;
      [rewrite task_store_add_done_callback|]; apply tasks_extend_refl.
  - apply tasks_extend_fresh.
  - destruct (background_tasks self !! task_id); apply tasks_extend_refl.
  - case_decide; [destruct remaining|]; apply tasks_extend_refl.
  - destruct (task_store self !! t ≫= future) as [f|]; simpl;
      [|apply tasks_extend_refl].
    pose proof (task_store_future_cancel f self) as Hsame.
    destruct (future_cancel f self) as [[] self']; simpl in *;
      rewrite Hsame; apply tasks_extend_refl.
  - rewrite task_store_invoke_callbacks_of. apply tasks_extend_refl.
  - destruct (task_store self !! t ≫= agent); apply tasks_extend_refl.
Qed.

Lemma foldl_delete_subseteq (ids : list string) (tasks : gmap string nat) :
  foldl (λ tasks task_id, delete task_id tasks) tasks ids ⊆ tasks.
Proof.
  revert tasks. induction ids as [|task_id ids IH]; intros tasks; [done|].
  simpl. etrans; [apply IH|]. apply delete_subseteq.
Qed.

Lemma invoke_callbacks_of_registry f self :
  background_tasks (invoke_callbacks_of f self) ⊆ background_tasks self.
Proof.
  unfold invoke_callbacks_of. destruct (future_store self !! f); [|done].
  apply foldl_delete_subseteq.
Qed.

(** Cancelling a future under the lock leaves the registry alone. *)
Lemma future_cancel_registry f self :
  background_tasks (future_cancel f self).2 = background_tasks self.
Proof.
  unfold future_cancel. destruct (future_store self !! f) as [fut|]; [|done].
  by destruct (_state fut).
Qed.

Lemma add_done_callback_registry f task_id self :
  background_tasks (add_done_callback f task_id self)
    ⊆ background_tasks self.
Proof.
  unfold add_done_callback.
  destruct (future_store self !! f) as [fut|]; [|done].
  destruct (is_terminal (_state fut)); [|done]. apply delete_subseteq.
Qed.

Lemma worker_event_registry e self :
  background_tasks (worker_event e self) ⊆ background_tasks self.
Proof.
  destruct e as [f|t agent|f|f exception|f]; simpl.
  - destruct (future_store self !! f) as [fut|]; [|done].
    by destruct (_state fut).
  - destruct (task_store self !! t) as [task|]; [|done].
    by match goal with |- context [if ?b then _ else _] => destruct b end.
  - destruct (future_store self !! f) as [fut|]; [|done].
    by destruct (_state fut).
  - destruct (future_store self !! f) as [fut|]; [|done].
    by destruct (_state fut).
  - destruct (future_store self !! f) as [fut|]; [|done].
    destruct (_state fut); try done. apply foldl_delete_subseteq.
Qed.

Lemma registry_has_futures_mono self self' :
  registry_has_futures self →
  background_tasks self' ⊆ background_tasks self →
  tasks_extend (task_store self) (task_store self') →
  registry_has_futures self'.
Proof.
  intros Hreg Hsub Hext task_id t Ht.
  eapply tasks_extend_has_future; [done|].
  apply (Hreg task_id). by eapply lookup_weaken.
Qed.

Lemma continuation_ok_mono self self' k :
  tasks_extend (task_store self) (task_store self') →
  continuation_ok self k → continuation_ok self' k.
Proof.
  intros Hext. destruct k as [|remaining size_]; [done|]. simpl.
  intros Hall. eapply Forall_impl; [exact Hall|].
  intros t. by apply tasks_extend_has_future.
Qed.

Lemma thread_ok_mono self self' th :
  tasks_extend (task_store self) (task_store self') →
  thread_ok self th → thread_ok self' th.
Proof.
  intros Hext. destruct th; simpl; try done.
  - by apply tasks_extend_known.
  - by apply tasks_extend_has_future.
  - by apply tasks_extend_has_future.
  - intros Hall. eapply Forall_impl; [exact Hall|].
    intros t. by apply tasks_extend_has_future.
  - intros [? ?]. split; [by eapply tasks_extend_has_future|].
    by eapply continuation_ok_mono.
  - intros [? ?]. split; [by eapply tasks_extend_has_future|].
    by eapply continuation_ok_mono.
  - intros [? ?]. split; [by eapply tasks_extend_has_future|].
    by eapply continuation_ok_mono.
  - intros [? ?]. split; [by eapply tasks_extend_has_future|].
    by eapply continuation_ok_mono.
  - intros [? ?]. split; [by eapply tasks_extend_has_future|].
    by eapply continuation_ok_mono.
Qed.

Lemma has_future_lookup self t :
  has_future self t → ∃ f, task_store self !! t ≫= future = Some f.
Proof. intros (task & -> & [f Hf]). by exists f. Qed.

Lemma resume_ok self k : continuation_ok self k → thread_ok self (resume k).
Proof. by destruct k. Qed.

Lemma future_exception_ok waited t k self :
  has_future self t → continuation_ok self k →
  thread_ok self (future_exception waited t k self).
Proof.
  intros Ht Hk. pose proof Ht as (task & Hlookup & [f Hf]).
  unfold future_exception. rewrite Hlookup, Hf.
  destruct (_state <$> future_store self !! f) as [[]|];
    try destruct waited; simpl; try done; by apply resume_ok.
Qed.

(** The step of a handler keeps what the handlers know and what the
    registry holds. *)
Lemma thread_step_ok th self :
  registry_has_futures self → thread_ok self th →
  registry_has_futures (thread_step th self).2 ∧
  thread_ok (thread_step th self).2 (thread_step th self).1.
Proof.
  intros Hreg Hth.
  pose proof (thread_step_tasks_extend th self) as Hext.
  destruct th; simpl in *.
  - split; [by eapply registry_has_futures_mono|].
    rewrite lookup_insert_eq. by eexists.
  - destruct Hth as [task Ht]. rewrite Ht in *. simpl in *.
    split; [by eapply registry_has_futures_mono|].
    eexists. split; [apply lookup_insert_eq|]. by eexists.
  - split; [|done]. intros task_id' t' Hl. simpl in Hl.
    apply lookup_insert_Some in Hl as [[_ <-]|[_ Hl]]; [done|].
    by apply (Hreg task_id').
  - destruct (has_future_lookup _ _ Hth) as [f Hf]. rewrite Hf in *.
    simpl in *. split; [|done].
    eapply registry_has_futures_mono; [done| |done].
    apply add_done_callback_registry.
  - split; [by eapply registry_has_futures_mono|done].
  - done.
  - done.
  - destruct (background_tasks self !! task_id) as [t|] eqn:Hl; [|done].
    split; [done|]. split; [|done]. by apply (Hreg task_id).
  - split; [done|]. apply Forall_fmap, Forall_forall.
    intros [task_id t] Hin. apply elem_of_map_to_list in Hin.
    by apply (Hreg task_id).
  - case_decide; [|done]. destruct remaining as [|t remaining]; [done|].
    inversion Hth; subst. done.
  - destruct Hth as [Ht Hk]. destruct (has_future_lookup _ _ Ht) as [f Hf].
    rewrite Hf in *. simpl in *.
    pose proof (future_cancel_registry f self) as Hsame.
    destruct (future_cancel f self) as [[] self']; simpl in *.
    + split.
      { eapply registry_has_futures_mono; [done|by rewrite Hsame|done]. }
      split; [by eapply tasks_extend_has_future|
              by eapply continuation_ok_mono].
    + split.
      { eapply registry_has_futures_mono; [done|by rewrite Hsame|done]. }
      split; [by eapply tasks_extend_has_future|
              by eapply continuation_ok_mono].
  - destruct Hth as [Ht Hk]. split.
    + eapply registry_has_futures_mono; [done| |done].
      apply invoke_callbacks_of_registry.
    + split; [by eapply tasks_extend_has_future|
              by eapply continuation_ok_mono].
  - destruct Hth as [Ht Hk].
    destruct (task_store self !! t ≫= agent); simpl; by repeat split.
  - destruct Hth as [Ht Hk]. split; [done|]. by apply future_exception_ok.
  - destruct Hth as [Ht Hk]. split; [done|]. by apply future_exception_ok.
  - done.
Qed.

Lemma server_step_ok state state' :
  server_ok state → server_step state state' → server_ok state'.
Proof.
  intros [Hreg Hths] Hstep. destruct Hstep as
    [ths self th Hnew|ths self i th th' self' Hi Hstep|ths self e]; simpl in *.
  - split; [done|]. apply Forall_app. split; [done|].
    constructor; [|constructor]. by destruct th.
  - pose proof (thread_step_tasks_extend th self) as Hext.
    pose proof (Forall_lookup_1 _ _ _ _ Hths Hi) as Hth.
    destruct (thread_step_ok th self Hreg Hth) as [Hreg' Hth'].
    rewrite Hstep in *. simpl in *. split; [done|].
    apply Forall_insert; [|done].
    eapply Forall_impl; [exact Hths|]. intros th0. by apply thread_ok_mono.
  - pose proof (worker_event_tasks_extend e self) as Hext. split.
    + eapply registry_has_futures_mono; [done| |done].
      apply worker_event_registry.
    + eapply Forall_impl; [exact Hths|]. intros th0. by apply thread_ok_mono.
Qed.

Lemma server_steps_ok state state' :
  rtc server_step state state' → server_ok state → server_ok state'.
Proof.
  induction 1 as [state|state1 state2 state3 Hstep _ IH]; [done|].
  intros Hok. by apply IH, (server_step_ok state1).
Qed.

Lemma new_server_ok : server_ok ([], new_servicer).
Proof.
  split; [|constructor]. intros task_id t Hl. simpl in Hl.
  by rewrite lookup_empty in Hl.
Qed.

(** C10. In every state the server reaches, with handlers and workers
    interleaved in any way, every task in [background_tasks] has a
    future: [Submit] sets [task.future] (line 322) before it inserts
    the task (line 330), and no step clears the field.  So no handler
    ever ends with the error of calling a method on a missing future:
    [Task.cancel], reached through [Cancel] or [cancel_tasks], runs
    only on tasks whose future is set; a handler about to insert its
    task (line 330) holds a task whose future is set.  A task whose future is [None]
    (as the one [Run] creates) is not in the registry. *)
Theorem C10_registered_tasks_have_futures
    (ths : list Thread) (self : IsolateServicer) :
  rtc server_step ([], new_servicer) (ths, self) →
  (∀ task_id t, background_tasks self !! task_id = Some t →
     ∃ task f, task_store self !! t = Some task ∧ future task = Some f) ∧
  (∀ th, th ∈ ths → th ≠ Finished (Raises NoneHasNoAttribute)) ∧
  (∀ t task_id, Submit_330 t task_id ∈ ths →
     ∃ task f, task_store self !! t = Some task ∧ future task = Some f) ∧
  (∀ t task, task_store self !! t = Some task → future task = None →
     ∀ task_id, background_tasks self !! task_id ≠ Some t).
Proof.
  intros Hreach.
  destruct (server_steps_ok _ _ Hreach new_server_ok) as [Hreg Hths].
  simpl in *. split; [|split; [|split]]; [| |
    intros t task_id Hin;
    apply (proj1 (Forall_forall _ _) Hths) in Hin;
    destruct Hin as (task & Ht & [f Hf]); by exists task, f|].
  - intros task_id t Hl.
    destruct (Hreg task_id t Hl) as (task & Ht & [f Hf]). by exists task, f.
  - intros th Hin ->.
    by apply (proj1 (Forall_forall _ _) Hths) in Hin.
  - intros t task Ht Hnone task_id Hl.
    destruct (Hreg task_id t Hl) as (task' & Ht' & [f Hf]).
    rewrite Ht in Ht'. injection Ht' as <-. by rewrite Hnone in Hf.
Qed.

(** *** Cancelling a background task *)

Lemma foldl_delete_lookup (ids : list string) (tasks : gmap string nat)
    task_id t :
  foldl (λ tasks task_id, delete task_id tasks) tasks ids !! task_id = Some t →
  task_id ∉ ids ∧ tasks !! task_id = Some t.
Proof.
  revert tasks. induction ids as [|i ids IH]; intros tasks; simpl.
  - intros Hl. split; [set_solver|done].
  - intros Hl. apply IH in Hl as [Hnotin Hl].
    apply lookup_delete_Some in Hl as [Hne Hl]. split; [set_solver|done].
Qed.

Lemma foldl_delete_elem (ids : list string) (tasks : gmap string nat)
    task_id :
  task_id ∈ ids →
  foldl (λ tasks task_id, delete task_id tasks) tasks ids !! task_id = None.
Proof.
  intros Hin.
  destruct (foldl _ tasks ids !! task_id) as [t|] eqn:Hl; [|done].
  by apply foldl_delete_lookup in Hl as [Hnotin _].
Qed.

Lemma worker_events_registry es self :
  background_tasks (worker_events es self) ⊆ background_tasks self.
Proof.
  revert self. induction es as [|e es IH]; intros self; [done|].
  simpl. etrans; [apply IH|]. apply worker_event_registry.
Qed.

Lemma worker_event_task_future e self t f :
  task_future self t f → task_future (worker_event e self) t f.
Proof.
  intros [(task & Ht & Hf) [fut Hfut]].
  destruct e as [f0|t0 agent|f0|f0 exception|f0]; simpl.
  - destruct (future_store self !! f0) as [fut0|] eqn:Hf0;
      [|by split; eauto].
    destruct (_state fut0); (split; [by eauto|]); try (by eexists); simpl;
      destruct (decide (f = f0)) as [->|?];
      rewrite ?lookup_insert_eq, ?lookup_insert_ne by done; by eauto.
  - destruct (task_store self !! t0) as [task0|] eqn:Ht0; [|by split; eauto].
    match goal with |- context [if ?b then _ else _] => destruct b end;
      [|by split; eauto].
    split; [|by eexists]. simpl.
    destruct (decide (t = t0)) as [->|?].
    + rewrite lookup_insert_eq. rewrite Ht in Ht0. injection Ht0 as <-.
      by eauto.
    + rewrite lookup_insert_ne by done. by eauto.
  - destruct (future_store self !! f0) as [fut0|] eqn:Hf0;
      [|by split; eauto].
    destruct (_state fut0); (split; [by eauto|]); try (by eexists); simpl;
      destruct (decide (f = f0)) as [->|?];
      rewrite ?lookup_insert_eq, ?lookup_insert_ne by done; by eauto.
  - destruct (future_store self !! f0) as [fut0|] eqn:Hf0;
      [|by split; eauto].
    destruct (_state fut0); (split; [by eauto|]); try (by eexists); simpl;
      destruct (decide (f = f0)) as [->|?];
      rewrite ?lookup_insert_eq, ?lookup_insert_ne by done; by eauto.
  - destruct (future_store self !! f0) as [fut0|] eqn:Hf0;
      [|by split; eauto].
    destruct (_state fut0); (split; [by eauto|]); by eexists.
Qed.

Lemma worker_events_task_future es self t f :
  task_future self t f → task_future (worker_events es self) t f.
Proof.
  revert self. induction es as [|e es IH]; intros self H; [done|].
  simpl. by apply IH, worker_event_task_future.
Qed.

Lemma future_cancel_task_future f0 self t f :
  task_future self t f → task_future (future_cancel f0 self).2 t f.
Proof.
  intros [(task & Ht & Hf) [fut Hfut]]. unfold future_cancel.
  destruct (future_store self !! f0) as [fut0|] eqn:Hf0; [|by split; eauto].
  destruct (_state fut0); (split; [by eauto|]); try (by eexists); simpl.
  destruct (decide (f = f0)) as [->|?];
    rewrite ?lookup_insert_eq, ?lookup_insert_ne by done; by eauto.
Qed.

Lemma invoke_callbacks_of_task_future f0 self t f :
  task_future self t f → task_future (invoke_callbacks_of f0 self) t f.
Proof.
  unfold invoke_callbacks_of. by destruct (future_store self !! f0).
Qed.

Lemma state_of_with_future f f' fut self :
  state_of (with_future f' fut self) f =
  if decide (f = f') then Some (_state fut) else state_of self f.
Proof.
  unfold state_of, with_future. simpl. case_decide; [subst|].
  - by rewrite lookup_insert_eq.
  - by rewrite lookup_insert_ne.
Qed.

Lemma callbacks_of_with_future f f' fut self :
  callbacks_of (with_future f' fut self) f =
  if decide (f = f') then Some (_done_callbacks fut) else callbacks_of self f.
Proof.
  unfold callbacks_of, with_future. simpl. case_decide; [subst|].
  - by rewrite lookup_insert_eq.
  - by rewrite lookup_insert_ne.
Qed.

(** What the workers do changes the state of a future that is not done
    yet, and nothing else of it: a cancelled future stays cancelled, a
    finished one finished, and the callbacks stay as they are. *)
Lemma worker_event_cancelled e self f :
  cancelled self f → cancelled (worker_event e self) f.
Proof.
  unfold cancelled. intros Hc.
  destruct e as [f0|t0 a|f0|f0 exception|f0]; simpl.
  - destruct (future_store self !! f0) as [fut0|] eqn:Hf0; [|done].
    destruct (_state fut0) eqn:Hs0; try done;
      rewrite !state_of_with_future; case_decide; subst; try done;
      unfold state_of in Hc; rewrite Hf0 in Hc; simpl in Hc;
      rewrite Hs0 in Hc; simpl; destruct Hc; by eauto.
  - destruct (task_store self !! t0) as [task0|]; [|done].
    match goal with |- context [if ?b then _ else _] => destruct b end; done.
  - destruct (future_store self !! f0) as [fut0|] eqn:Hf0; [|done].
    destruct (_state fut0) eqn:Hs0; try done.
    unfold set_state. rewrite !state_of_with_future. case_decide; [|done].
    subst. unfold state_of in Hc. rewrite Hf0 in Hc. simpl in Hc.
    rewrite Hs0 in Hc. by destruct Hc.
  - destruct (future_store self !! f0) as [fut0|] eqn:Hf0; [|done].
    destruct (_state fut0) eqn:Hs0; try done.
    unfold set_state. rewrite !state_of_with_future. case_decide; [|done].
    subst. unfold state_of in Hc. rewrite Hf0 in Hc. simpl in Hc.
    rewrite Hs0 in Hc. by destruct Hc.
  - destruct (future_store self !! f0) as [fut0|]; [|done].
    by destruct (_state fut0).
Qed.

Lemma worker_events_cancelled es self f :
  cancelled self f → cancelled (worker_events es self) f.
Proof.
  revert self. induction es as [|e es IH]; intros self H; [done|].
  simpl. by apply IH, worker_event_cancelled.
Qed.

Lemma worker_event_finished e self f :
  state_of self f = Some FINISHED →
  state_of (worker_event e self) f = Some FINISHED.
Proof.
  intros Hc.
  destruct e as [f0|t0 a|f0|f0 exception|f0]; simpl.
  - destruct (future_store self !! f0) as [fut0|] eqn:Hf0; [|done].
    destruct (_state fut0) eqn:Hs0; try done;
      rewrite !state_of_with_future; case_decide; subst; try done;
      unfold state_of in Hc; rewrite Hf0 in Hc; simpl in Hc;
      by rewrite Hs0 in Hc.
  - destruct (task_store self !! t0) as [task0|]; [|done].
    match goal with |- context [if ?b then _ else _] => destruct b end; done.
  - destruct (future_store self !! f0) as [fut0|] eqn:Hf0; [|done].
    destruct (_state fut0) eqn:Hs0; try done.
    unfold set_state. rewrite !state_of_with_future. by case_decide.
  - destruct (future_store self !! f0) as [fut0|] eqn:Hf0; [|done].
    destruct (_state fut0) eqn:Hs0; try done.
    unfold set_state. rewrite !state_of_with_future. by case_decide.
  - destruct (future_store self !! f0) as [fut0|]; [|done].
    by destruct (_state fut0).
Qed.

Lemma worker_events_finished es self f :
  state_of self f = Some FINISHED →
  state_of (worker_events es self) f = Some FINISHED.
Proof.
  revert self. induction es as [|e es IH]; intros self H; [done|].
  simpl. by apply IH, worker_event_finished.
Qed.

Lemma worker_event_callbacks e self f :
  callbacks_of (worker_event e self) f = callbacks_of self f.
Proof.
  destruct e as [f0|t0 a|f0|f0 exception|f0]; simpl.
  - destruct (future_store self !! f0) as [fut0|] eqn:Hf0; [|done].
    destruct (_state fut0); try done;
      rewrite callbacks_of_with_future; case_decide; subst; try done;
      unfold callbacks_of; by rewrite Hf0.
  - destruct (task_store self !! t0) as [task0|]; [|done].
    match goal with |- context [if ?b then _ else _] => destruct b end; done.
  - destruct (future_store self !! f0) as [fut0|] eqn:Hf0; [|done].
    destruct (_state fut0); try done.
    unfold set_state. rewrite callbacks_of_with_future.
    case_decide; subst; [|done]. unfold callbacks_of. by rewrite Hf0.
  - destruct (future_store self !! f0) as [fut0|] eqn:Hf0; [|done].
    destruct (_state fut0); try done.
    unfold set_state. rewrite callbacks_of_with_future.
    case_decide; subst; [|done]. unfold callbacks_of. by rewrite Hf0.
  - destruct (future_store self !! f0) as [fut0|]; [|done].
    by destruct (_state fut0).
Qed.

Lemma worker_events_callbacks es self f :
  callbacks_of (worker_events es self) f = callbacks_of self f.
Proof.
  revert self. induction es as [|e es IH]; intros self; [done|].
  simpl. by rewrite IH, worker_event_callbacks.
Qed.

Lemma run_handler_step schedule th self r :
  run_handler schedule th self = Some r →
  (∀ outcome, th ≠ Finished outcome) →
  ∃ batch rest,
    schedule = batch :: rest ∧
    run_handler rest (thread_step th (worker_events batch self)).1
      (thread_step th (worker_events batch self)).2 = Some r.
Proof.
  intros Hrun Hth. destruct schedule as [|batch rest].
  { destruct th; try done. by destruct (Hth outcome). }
  exists batch, rest. split; [done|].
  destruct th; try (by destruct (Hth outcome)); cbn [run_handler] in Hrun;
    by destruct (thread_step _ _).
Qed.

Lemma run_handler_cons batch schedule th self th' self' :
  (∀ outcome, th ≠ Finished outcome) →
  thread_step th (worker_events batch self) = (th', self') →
  run_handler (batch :: schedule) th self = run_handler schedule th' self'.
Proof.
  intros Hth Hstep.
  destruct th; try (by destruct (Hth outcome)); cbn [run_handler];
    by rewrite Hstep.
Qed.

Lemma run_handler_finished schedule outcome self :
  run_handler schedule (Finished outcome) self = Some (outcome, self).
Proof. by destruct schedule. Qed.

(** How [Task.cancel], called from [Cancel], can end. *)
Lemma task_cancel_outcome schedule : ∀ th self t f outcome self1,
  in_task_cancel t th →
  task_future self t f →
  run_handler schedule th self = Some (outcome, self1) →
  (outcome = CancelResponse ∧ state_of self1 f = Some FINISHED) ∨
  (outcome = Raises CancelledError ∧ cancelled self1 f).
Proof.
  induction schedule as [|batch schedule IH];
    intros th self t f outcome self1 Hth Htf Hrun.
  { destruct Hth as [-> | [[f0 ->] | [-> | [-> | ->]]]]; discriminate. }
  pose proof (worker_events_task_future batch self t f Htf) as Htf'.
  set (self' := worker_events batch self) in *.
  pose proof Htf' as [(task & Ht & Hf) [fut Hfut]].
  assert (∀ waited,
    run_handler schedule (future_exception waited t ReturnToCancel self') self'
      = Some (outcome, self1) →
    (outcome = CancelResponse ∧ state_of self1 f = Some FINISHED) ∨
    (outcome = Raises CancelledError ∧ cancelled self1 f)) as Hexc.
  { intros waited. unfold future_exception. rewrite Ht, Hf, Hfut. simpl.
    destruct (_state fut) eqn:Hstate.
    - destruct waited; apply (IH _ _ t f); unfold in_task_cancel; by eauto 6.
    - destruct waited; apply (IH _ _ t f); unfold in_task_cancel; by eauto 6.
    - rewrite run_handler_finished. intros [= <- <-]. right.
      split; [done|]. left. unfold state_of. by rewrite Hfut, <- Hstate.
    - rewrite run_handler_finished. intros [= <- <-]. right.
      split; [done|]. right. unfold state_of. by rewrite Hfut, <- Hstate.
    - rewrite run_handler_finished. intros [= <- <-]. left.
      split; [done|]. unfold state_of. by rewrite Hfut, <- Hstate. }
  destruct Hth as [-> | [[f0 ->] | [-> | [-> | ->]]]];
    cbn [run_handler thread_step] in Hrun; fold self' in Hrun.
  - rewrite Ht in Hrun. simpl in Hrun. rewrite Hf in Hrun.
    pose proof (future_cancel_task_future f self' t f Htf') as Htf2.
    destruct (future_cancel f self') as [[] self2]; simpl in *;
      apply (IH _ _ t f) in Hrun; unfold in_task_cancel; by eauto 6.
  - apply (IH _ _ t f) in Hrun; unfold in_task_cancel; eauto 6.
    by apply invoke_callbacks_of_task_future.
  - destruct (task_store self' !! t ≫= agent);
      apply (IH _ _ t f) in Hrun; unfold in_task_cancel; by eauto 6.
  - by apply (Hexc false).
  - by apply (Hexc true).
Qed.

Lemma cancel_unknown task_id batch schedule self :
  background_tasks (worker_events batch self) !! task_id = None →
  Cancel task_id (batch :: schedule) self =
    Some (CancelResponse, worker_events batch self).
Proof.
  intros Hnone. unfold Cancel. simpl. rewrite Hnone. by destruct schedule.
Qed.

Lemma cancel_known task_id batch schedule self t f outcome self1 :
  background_tasks (worker_events batch self) !! task_id = Some t →
  task_future self t f →
  Cancel task_id (batch :: schedule) self = Some (outcome, self1) →
  (outcome = CancelResponse ∧ state_of self1 f = Some FINISHED) ∨
  (outcome = Raises CancelledError ∧ cancelled self1 f).
Proof.
  intros Hl Htf. unfold Cancel. simpl. rewrite Hl. intros Hrun.
  apply (task_cancel_outcome schedule (Task_cancel_177 t ReturnToCancel)
           (worker_events batch self) t f); [by left| |done].
  by apply worker_events_task_future.
Qed.

(** [Cancel] of a task that no worker has taken when [future.cancel()]
    is called. *)
Lemma cancel_pending task_id batch1 batch2 batch3 batch4 batch5 schedule
    self t f :
  background_tasks (worker_events batch1 self) !! task_id = Some t →
  task_future self t f →
  state_of (worker_events batch2 (worker_events batch1 self)) f
    = Some PENDING →
  ∃ self1,
    Cancel task_id
      (batch1 :: batch2 :: batch3 :: batch4 :: batch5 :: schedule) self =
      Some (Raises CancelledError, self1) ∧
    cancelled self1 f ∧
    ∀ callbacks i, callbacks_of self f = Some callbacks → i ∈ callbacks →
                   background_tasks self1 !! i = None.
Proof.
  intros Hl Htf Hpending. unfold Cancel.
  set (s1 := worker_events batch1 self) in *.
  pose proof (worker_events_task_future batch1 self t f Htf) as Htf1.
  pose proof (worker_events_task_future batch2 s1 t f Htf1) as Htf2.
  set (s2 := worker_events batch2 s1) in *.
  pose proof Htf2 as [(task2 & Ht2 & Hf2) [fut2 Hfut2]].
  assert (_state fut2 = PENDING) as Hstate.
  { unfold state_of in Hpending. rewrite Hfut2 in Hpending.
    by injection Hpending. }
  set (s2' := set_state f fut2 CANCELLED_ (_exception fut2) s2).
  assert (future_cancel f s2 = (true, s2')) as Hcancel.
  { unfold future_cancel. by rewrite Hfut2, Hstate. }
  assert (cancelled s2' f) as Hc.
  { left. unfold s2', set_state. by rewrite state_of_with_future, decide_True. }
  assert (task_future s2' t f) as Htf2'.
  { pose proof (future_cancel_task_future f s2 t f Htf2) as H.
    by rewrite Hcancel in H. }
  assert (callbacks_of s2' f = callbacks_of self f) as Hcb2.
  { unfold s2', set_state. rewrite callbacks_of_with_future, decide_True by done.
    simpl. unfold s2, s1. rewrite <- (worker_events_callbacks batch1 self f),
      <- (worker_events_callbacks batch2 (worker_events batch1 self) f).
    unfold callbacks_of. fold s1 s2. by rewrite Hfut2. }
  pose proof (worker_events_task_future batch3 s2' t f Htf2') as Htf3.
  pose proof (worker_events_cancelled batch3 s2' f Hc) as Hc3.
  pose proof (worker_events_callbacks batch3 s2' f) as Hcb3.
  set (s3 := worker_events batch3 s2') in *.
  set (s3' := invoke_callbacks_of f s3).
  assert (task_future s3' t f) as Htf3'
    by (by apply invoke_callbacks_of_task_future).
  assert (cancelled s3' f) as Hc3'.
  { unfold s3', invoke_callbacks_of. by destruct (future_store s3 !! f). }
  assert (∀ callbacks i, callbacks_of self f = Some callbacks →
            i ∈ callbacks → background_tasks s3' !! i = None) as Hgone.
  { intros callbacks i Hcbs Hin. rewrite <- Hcb2, <- Hcb3 in Hcbs.
    unfold s3', invoke_callbacks_of. unfold callbacks_of in Hcbs.
    destruct (future_store s3 !! f) as [fut3|]; [|done].
    injection Hcbs as <-. by apply foldl_delete_elem. }
  pose proof (worker_events_task_future batch4 s3' t f Htf3') as Htf4.
  pose proof (worker_events_cancelled batch4 s3' f Hc3') as Hc4.
  pose proof (worker_events_registry batch4 s3') as Hsub4.
  set (s4 := worker_events batch4 s3') in *.
  assert (∃ s4',
    thread_step (Task_cancel_178 t ReturnToCancel) s4 =
      (Task_cancel_181 t ReturnToCancel, s4') ∧
    task_future s4' t f ∧ cancelled s4' f ∧
    background_tasks s4' = background_tasks s4)
    as (s4' & Hstep4 & Htf4' & Hc4' & Hreg4').
  { simpl. destruct (task_store s4 !! t ≫= agent); by eexists. }
  pose proof (worker_events_task_future batch5 s4' t f Htf4') as Htf5.
  pose proof (worker_events_cancelled batch5 s4' f Hc4') as Hc5.
  pose proof (worker_events_registry batch5 s4') as Hsub5.
  set (s5 := worker_events batch5 s4') in *.
  exists s5. split; [|split; [done|]].
  - rewrite (run_handler_cons batch1 _ (Cancel_374 task_id) self
               (Task_cancel_177 t ReturnToCancel) s1);
      [|done|simpl; fold s1; by rewrite Hl].
    rewrite (run_handler_cons batch2 _ (Task_cancel_177 t ReturnToCancel) s1
               (Task_cancel_177_callbacks t f ReturnToCancel) s2');
      [|done|simpl; fold s2; rewrite Ht2; simpl; by rewrite Hf2, Hcancel].
    rewrite (run_handler_cons batch3 _
               (Task_cancel_177_callbacks t f ReturnToCancel) s2'
               (Task_cancel_178 t ReturnToCancel) s3'); [|done|done].
    rewrite (run_handler_cons batch4 _ (Task_cancel_178 t ReturnToCancel) s3'
               (Task_cancel_181 t ReturnToCancel) s4'); [|done|exact Hstep4].
    rewrite (run_handler_cons batch5 _ (Task_cancel_181 t ReturnToCancel) s4'
               (Finished (Raises CancelledError)) s5);
      [apply run_handler_finished|done|].
    pose proof Htf5 as [(task5 & Ht5 & Hf5) [fut5 Hfut5]].
    cbn [thread_step]. fold s5. unfold future_exception. rewrite Ht5, Hf5.
    unfold cancelled, state_of in Hc5.
    destruct Hc5 as [Hs|Hs]; by rewrite Hs.
  - intros callbacks i Hcbs Hin.
    pose proof (Hgone callbacks i Hcbs Hin) as Hnone.
    destruct (background_tasks s5 !! i) as [t'|] eqn:Hl5; [|done].
    apply (lookup_weaken _ _ _ _ Hl5) in Hsub5. rewrite Hreg4' in Hsub5.
    apply (lookup_weaken _ _ _ _ Hsub5) in Hsub4. by rewrite Hnone in Hsub4.
Qed.

(** [Cancel] of a registered task whose future is finished already. *)
Lemma cancel_finished task_id batch1 batch2 batch3 batch4 schedule self t f :
  background_tasks (worker_events batch1 self) !! task_id = Some t →
  task_future self t f →
  state_of self f = Some FINISHED →
  Cancel task_id (batch1 :: batch2 :: batch3 :: batch4 :: schedule) self =
    Some (CancelResponse,
          worker_events batch4
            (thread_step (Task_cancel_178 t ReturnToCancel)
               (worker_events batch3
                  (worker_events batch2 (worker_events batch1 self)))).2).
Proof.
  intros Hl Htf Hdone. unfold Cancel.
  pose proof (worker_events_task_future batch1 self t f Htf) as Htf1.
  pose proof (worker_events_finished batch1 self f Hdone) as Hd1.
  set (s1 := worker_events batch1 self) in *.
  pose proof (worker_events_task_future batch2 s1 t f Htf1) as Htf2.
  pose proof (worker_events_finished batch2 s1 f Hd1) as Hd2.
  set (s2 := worker_events batch2 s1) in *.
  pose proof Htf2 as [(task2 & Ht2 & Hf2) [fut2 Hfut2]].
  assert (future_cancel f s2 = (false, s2)) as Hcancel.
  { unfold future_cancel. rewrite Hfut2. unfold state_of in Hd2.
    rewrite Hfut2 in Hd2. injection Hd2 as ->. done. }
  pose proof (worker_events_task_future batch3 s2 t f Htf2) as Htf3.
  pose proof (worker_events_finished batch3 s2 f Hd2) as Hd3.
  set (s3 := worker_events batch3 s2) in *.
  set (s3' := (thread_step (Task_cancel_178 t ReturnToCancel) s3).2).
  assert (thread_step (Task_cancel_178 t ReturnToCancel) s3 =
            (Task_cancel_181 t ReturnToCancel, s3') ∧
          task_future s3' t f ∧ state_of s3' f = Some FINISHED)
    as (Hstep3 & Htf3' & Hd3').
  { unfold s3'. simpl. by destruct (task_store s3 !! t ≫= agent). }
  pose proof (worker_events_task_future batch4 s3' t f Htf3') as Htf4.
  pose proof (worker_events_finished batch4 s3' f Hd3') as Hd4.
  set (s4 := worker_events batch4 s3') in *.
  rewrite (run_handler_cons batch1 _ (Cancel_374 task_id) self
             (Task_cancel_177 t ReturnToCancel) s1);
    [|done|simpl; fold s1; by rewrite Hl].
  rewrite (run_handler_cons batch2 _ (Task_cancel_177 t ReturnToCancel) s1
             (Task_cancel_178 t ReturnToCancel) s2);
    [|done|simpl; fold s2; rewrite Ht2; simpl; by rewrite Hf2, Hcancel].
  rewrite (run_handler_cons batch3 _ (Task_cancel_178 t ReturnToCancel) s2
             (Task_cancel_181 t ReturnToCancel) s3'); [|done|exact Hstep3].
  rewrite (run_handler_cons batch4 _ (Task_cancel_181 t ReturnToCancel) s3'
             (Finished CancelResponse) s4);
    [apply run_handler_finished|done|].
  pose proof Htf4 as [(task4 & Ht4 & Hf4) [fut4 Hfut4]].
  cbn [thread_step]. fold s4. unfold future_exception. rewrite Ht4, Hf4.
  unfold state_of in Hd4. by rewrite Hd4.
Qed.


(** *** What [Submit] needs *)

Lemma fresh_task_unknown (tasks : gmap nat Task) :
  tasks !! fresh (dom tasks) = None.
Proof. apply not_elem_of_dom, is_fresh. Qed.

Lemma fresh_future_unknown (futures : gmap nat Future) :
  futures !! fresh (dom futures) = None.
Proof. apply not_elem_of_dom, is_fresh. Qed.

Lemma worker_events_known es self t :
  is_Some (task_store self !! t) →
  is_Some (task_store (worker_events es self) !! t).
Proof.
  revert self. induction es as [|e es IH]; intros self Hs; [done|].
  simpl. apply IH.
  eapply tasks_extend_known; [apply worker_event_tasks_extend|done].
Qed.

(** *** Concrete runs of the handlers *)

Lemma handler_alone_reachable n th self :
  rtc server_step ([th], self)
    ([(handler_alone n th self).1], (handler_alone n th self).2).
Proof.
  revert th self. induction n as [|n IH]; intros th self; [done|].
  simpl. destruct (thread_step th self) as [th' self'] eqn:Hstep.
  eapply rtc_l; [|apply IH].
  by apply (handler_steps [th] self 0 th th' self').
Qed.

Example submit_registers_task :
  Submit example_request "task-1" [[]; []; []; []] new_servicer =
    Some (SubmitResponse "task-1", servicer_after_submit) ∧
  background_tasks servicer_after_submit !! "task-1" = Some 0 ∧
  task_store servicer_after_submit !! 0 =
    Some (mkTask example_request (Some 0) None) ∧
  future_store servicer_after_submit !! 0 =
    Some (mkFuture PENDING None ["task-1"]).
Proof. vm_compute. done. Qed.

Lemma servicer_after_submit_task_future :
  task_future servicer_after_submit 0 0.
Proof.
  split.
  - exists (mkTask example_request (Some 0) None). by vm_compute.
  - exists (mkFuture PENDING None ["task-1"]). by vm_compute.
Qed.

(** [Cancel] on a task that is running: it returns when the task has
    ended, and the id is out of the registry once the worker has
    invoked the callbacks. *)
Example cancel_running_task :
  ∃ self1,
    Cancel "task-1" task_ends_during_cancel servicer_after_submit =
      Some (CancelResponse, self1) ∧
    background_tasks self1 !! "task-1" = None ∧
    state_of self1 0 = Some FINISHED.
Proof. eexists. vm_compute. done. Qed.

(** [Cancel] on a task that no worker has taken yet: the future is
    cancelled, its callback unregisters the task, and
    [Future.exception] raises [CancelledError], which [Task.cancel]
    does not catch. *)
Example cancel_pending_task :
  ∃ self1,
    Cancel "task-1" [[]; []; []; []; []] servicer_after_submit =
      Some (Raises CancelledError, self1) ∧
    background_tasks self1 !! "task-1" = None ∧
    state_of self1 0 = Some CANCELLED_.
Proof. eexists. vm_compute. done. Qed.



Lemma C10_registered_tasks_witness :
  ∃ task f,
    background_tasks servicer_after_submit !! "task-1" = Some 0 ∧
    task_store servicer_after_submit !! 0 = Some task ∧
    future task = Some f.
Proof.
  assert (rtc server_step ([], new_servicer)
            ([(handler_alone 4 (Submit_321 example_request "task-1")
                 new_servicer).1], servicer_after_submit)) as Hreach.
  { eapply rtc_l; [|apply handler_alone_reachable].
    by apply (request_arrives [] new_servicer
                (Submit_321 example_request "task-1")). }
  destruct (C10_registered_tasks_have_futures _ _ Hreach)
    as (Hreg & _ & _ & _).
  assert (background_tasks servicer_after_submit !! "task-1" = Some 0) as Hl
    by (by vm_compute).
  destruct (Hreg "task-1" 0 Hl) as (task & f & Ht & Hf).
  by exists task, f.
Defined.


(** ** The drainer: a way to prove what holds from its start to its end *)

Section DrainerRelation.
Variable EMPTY_MESSAGE_INTERVAL : Time.
Variable _Q_WAIT_DELAY : Time.
Variable to_grpc : Log → Log.
Variable queue : nat.

(** A relation between the world at the start, what was yielded and
    the world at the end that every step of the drainer and of the
    other threads keeps. *)
Variable R : World → list Emission → World → Prop.
Hypothesis R_refl : ∀ w, R w [] w.
Hypothesis R_trans : ∀ w1 out1 w2 out2 w3,
  R w1 out1 w2 → R w2 out2 w3 → R w1 (out1 ++ out2) w3.
Hypothesis R_event : ∀ e w, R w [] (apply_event to_grpc queue e w).
Hypothesis R_get : ∀ w item items,
  queue_of queue w = item :: items →
  R w [mkEmission (clock w) false item] (set_queue queue items w).
Hypothesis R_flush : ∀ w,
  R w (map (mkEmission (clock w) false) (queue_of queue w))
    (set_queue queue [] w).
Hypothesis R_timeout : ∀ w, R w [] (advance _Q_WAIT_DELAY w).
Hypothesis R_keep_alive : ∀ w,
  R w [mkEmission (clock w) true (mkPartialRunResult false [] None)] w.

Local Abbreviation events := (apply_events to_grpc).
Local Abbreviation clear := (clear_final_messages to_grpc).
Local Abbreviation loop :=
  (watch_loop EMPTY_MESSAGE_INTERVAL _Q_WAIT_DELAY to_grpc).
Local Abbreviation watch :=
  (watch_queue_until_completed EMPTY_MESSAGE_INTERVAL _Q_WAIT_DELAY to_grpc).

Lemma rel_nil_l w1 w2 out w3 : R w1 [] w2 → R w2 out w3 → R w1 out w3.
Proof. apply (R_trans w1 []). Qed.

Lemma rel_cons w1 e w2 out w3 :
  R w1 [e] w2 → R w2 out w3 → R w1 (e :: out) w3.
Proof. apply (R_trans w1 [e]). Qed.

Lemma rel_events es w : R w [] (events queue es w).
Proof.
  revert w. induction es as [|e es IH]; intros w; [apply R_refl|].
  simpl. eapply rel_nil_l; [apply R_event|apply IH].
Qed.

Lemma clear_final_messages_rel batches w :
  R w (clear queue batches w).1 (clear queue batches w).2.
Proof.
  revert w. induction batches as [|batch batches IH]; intros w; simpl.
  - apply R_flush.
  - destruct (queue_of queue (events queue batch w)) as [|item items] eqn:Hq.
    + apply rel_events.
    + specialize (IH (set_queue queue items (events queue batch w))).
      destruct (clear queue batches _) as [out2 w2]. simpl in *.
      eapply rel_nil_l; [apply rel_events|].
      eapply rel_cons; [by apply R_get|done].
Qed.

Lemma watch_loop_rel timer rounds w :
  R w (loop queue timer rounds w).1.1 (loop queue timer rounds w).2.
Proof.
  revert timer w. induction rounds as [|r rounds IH]; intros timer w; simpl.
  { apply R_refl. }
  destruct (done (events queue (before_check r) w)).
  { apply rel_events. }
  set (w1 := events queue (before_check r) w).
  set (w2 := events queue (during_get r) w1).
  assert (R w [] w2) as Hw2.
  { eapply rel_nil_l; apply rel_events. }
  destruct (queue_of queue w2) as [|item items] eqn:Hq.
  - case_decide.
    + match goal with |- context [loop queue ?t rounds ?w'] =>
        specialize (IH t w');
        destruct (loop queue t rounds w') as [[out exited] final] end.
      simpl in *.
      eapply rel_nil_l; [exact Hw2|].
      eapply rel_nil_l; [apply R_timeout|].
      eapply rel_nil_l; [apply rel_events|].
      eapply rel_cons; [apply R_keep_alive|exact IH].
    + eapply rel_nil_l; [exact Hw2|].
      eapply rel_nil_l; [apply R_timeout|].
      eapply rel_nil_l; [apply rel_events|apply IH].
  - match goal with |- context [loop queue ?t rounds ?w'] =>
      specialize (IH t w');
      destruct (loop queue t rounds w') as [[out exited] final] end.
    simpl in *.
    eapply rel_nil_l; [exact Hw2|].
    eapply rel_cons; [by apply R_get|].
    eapply rel_nil_l; [apply rel_events|exact IH].
Qed.

Lemma watch_rel rounds batches w :
  R w (watch queue rounds batches w).1.1 (watch queue rounds batches w).2.
Proof.
  unfold watch_queue_until_completed.
  pose proof (watch_loop_rel (clock w) rounds w) as Hloop.
  destruct (loop queue (clock w) rounds w) as [[out1 [|]] w1]; [|done].
  pose proof (clear_final_messages_rel batches w1) as Hclear.
  destruct (clear queue batches w1) as [out2 w2]. simpl in *.
  by eapply R_trans.
Qed.
End DrainerRelation.

(** ** Terminal elements of a run *)

Lemma terminal_count_logs (to_grpc : Log → Log) (lines : list string) lvl src :
  terminal_count (flat_map (λ line, log to_grpc line lvl src) lines) = 0.
Proof. by induction lines. Qed.

Section RunTerminals.
Variable EMPTY_MESSAGE_INTERVAL : Time.
Variable _Q_WAIT_DELAY : Time.
Variable MAX_GRPC_WAIT_TIMEOUT : Time.
Variable to_grpc : Log → Log.
Variable AGENT_REQUIREMENTS : list string.
Variable INHERIT_FROM_LOCAL : bool.
Variable Env : Type.
Variable from_grpc : EnvironmentDefinition.t → PyException + Env.
Variable python_version : Env → option string.
Variable active_python : string.
Variable VirtualPythonEnvironment : list string → string → Env.
Variable local_environment_path : string.
Variable create : Env → bool → Build.
Variable bridge_factory :
  Env → string → list string → Time → PyException + nat.
Variable bridge_Run : nat → FunctionCall.t → Pump.

Local Abbreviation watch :=
  (watch_queue_until_completed EMPTY_MESSAGE_INTERVAL _Q_WAIT_DELAY to_grpc).
Local Abbreviation building :=
  (build_environments EMPTY_MESSAGE_INTERVAL _Q_WAIT_DELAY to_grpc Env create).
Local Abbreviation dispatching :=
  (dispatch EMPTY_MESSAGE_INTERVAL _Q_WAIT_DELAY to_grpc bridge_Run).
Local Abbreviation run_task :=
  (_run_task EMPTY_MESSAGE_INTERVAL _Q_WAIT_DELAY MAX_GRPC_WAIT_TIMEOUT
     to_grpc AGENT_REQUIREMENTS INHERIT_FROM_LOCAL Env from_grpc
     python_version active_python VirtualPythonEnvironment
     local_environment_path create bridge_factory bridge_Run).

Lemma dispatch_bridge_manager agent bridge_manager state :
  (dispatching agent bridge_manager state).1.2 = bridge_manager.
Proof.
  unfold dispatch. destruct state as [[task w] yielded].
  destruct (watch_queue_until_completed _ _ _ _ _ _ _) as [[out []] w1];
    [|done].
  by destruct (classify_pump_exception _ _).
Qed.

Lemma dispatch_agent (runner : nat) bridge_manager state :
  agent (dispatching runner bridge_manager state).2.1.1 = Some runner.
Proof.
  unfold dispatch. destruct state as [[task w] yielded].
  destruct (watch_queue_until_completed _ _ _ _ _ _ _) as [[out []] w1];
    [|done].
  by destruct (classify_pump_exception _ _).
Qed.

(** The drainer of one queue leaves the complete elements of the
    other queues where they are, and puts none on them. *)
Lemma watch_other_terminals queue q rounds batches w :
  queue ≠ q →
  terminal_count (queue_of q (watch queue rounds batches w).2) =
  terminal_count (queue_of q w).
Proof.
  intros Hne.
  apply (watch_rel EMPTY_MESSAGE_INTERVAL _Q_WAIT_DELAY to_grpc queue
           (λ w _ w', terminal_count (queue_of q w') =
                      terminal_count (queue_of q w))).
  - done.
  - intros w1 _ w2 _ w3 H1 H2. by rewrite H2.
  - intros [q' l| |dt] w0; simpl.
    + unfold handle, _add_log_to_queue. rewrite queue_of_put_nowait.
      case_decide; [|done]. rewrite terminal_count_app, terminal_count_cons.
      simpl. change (terminal_count []) with 0. lia.
    + destruct (pending w0) as [|item rest]; [done|].
      by rewrite queue_of_put_nowait, decide_False.
    + done.
  - intros w0 item items _. unfold queue_of, set_queue. simpl.
    by rewrite lookup_insert_ne.
  - intros w0. unfold queue_of, set_queue. simpl.
    by rewrite lookup_insert_ne.
  - done.
  - done.
Qed.

(** Building yields no complete element that was not on the queue of
    the run, and leaves the other queues' complete elements alone. *)
Lemma build_terminals messages environments : ∀ w,
  terminal_count (building messages environments w).1.1 +
    terminal_count (queue_of messages (building messages environments w).2)
    ≤ terminal_count (queue_of messages w) ∧
  ∀ q, q ≠ messages →
       terminal_count (queue_of q (building messages environments w).2) =
       terminal_count (queue_of q w).
Proof.
  induction environments as [|[force environment] rest IH]; intros w; simpl.
  { split; [simpl; change (terminal_count []) with 0; lia|done]. }
  set (w0 := mkWorld (queues w) [] false (clock w) (put_log w)).
  pose proof (watch_terminals EMPTY_MESSAGE_INTERVAL _Q_WAIT_DELAY to_grpc
                messages (build_rounds (create environment force))
                (build_batches (create environment force)) w0) as Hkept.
  assert (∀ q, q ≠ messages →
    terminal_count
      (queue_of q (watch messages (build_rounds (create environment force))
                     (build_batches (create environment force)) w0).2) =
    terminal_count (queue_of q w)) as Hother.
  { intros q Hq. by rewrite watch_other_terminals. }
  unfold terminals_ahead in Hkept.
  change (queue_of messages w0) with (queue_of messages w) in Hkept.
  change (pending w0) with (@nil PartialRunResult) in Hkept.
  change (terminal_count []) with 0 in Hkept.
  destruct (watch messages _ _ w0) as [[out [|]] w1]; simpl in *;
    [|split; [lia|done]].
  destruct (build_result (create environment force)) as [e|path].
  { destruct (isinstance e "EnvironmentCreationError"); simpl;
      (split; [lia|done]). }
  specialize (IH w1). destruct (building messages rest w1) as [[out' exit] w2].
  simpl in *. destruct IH as [IHcount IHother].
  split.
  - rewrite terminal_count_app. lia.
  - intros q Hq. by rewrite IHother, Hother.
Qed.

(** The body of the [with] block yields the complete elements that
    were on the queue of its agent and those of the agent's stream,
    and no other. *)
Lemma dispatch_terminals runner bridge_manager task w yielded :
  terminal_count (dispatching runner bridge_manager (task, w, yielded)).2.2 ≤
  terminal_count yielded +
  terminal_count
    (queue_of (message_queue (agent_store bridge_manager !!! runner)) w) +
  terminal_count
    (agent_stream
       (bridge_Run (stub (agent_store bridge_manager !!! runner))
          (FunctionCall.mk (BoundFunction.function (request task))
             (BoundFunction.setup_func (request task))))).
Proof.
  unfold dispatch.
  match goal with
  | |- context [watch_queue_until_completed _ _ _ ?q ?rounds ?batches ?w0] =>
      pose proof (watch_terminals EMPTY_MESSAGE_INTERVAL _Q_WAIT_DELAY to_grpc
                    q rounds batches w0) as Hkept;
      destruct (watch_queue_until_completed EMPTY_MESSAGE_INTERVAL
                  _Q_WAIT_DELAY to_grpc q rounds batches w0)
        as [[out exited] w1]
  end.
  unfold terminals_ahead in Hkept. simpl in Hkept.
  match type of Hkept with
  | context [queue_of ?q (mkWorld (queues w) ?p false (clock w) (put_log w))] =>
      change (queue_of q (mkWorld (queues w) p false (clock w) (put_log w)))
        with (queue_of q w) in Hkept
  end.
  destruct exited; simpl.
  - destruct (classify_pump_exception to_grpc _) as [lines exit] eqn:Hclass.
    simpl. rewrite !terminal_count_app.
    assert (terminal_count lines = 0) as ->.
    { revert Hclass. unfold classify_pump_exception.
      destruct (pump_exception _) as [exception|]; [|by intros [= <- _]].
      destruct (isinstance exception "RpcError"); [by intros [= <- _]|].
      destruct (isinstance exception "AgentError"); intros [= <- _];
        apply terminal_count_logs. }
    lia.
  - rewrite terminal_count_app. lia.
Qed.

Lemma run_task_terminals task bridge_manager w :
  (∀ stub call, agent_stream_shape (agent_stream (bridge_Run stub call))) →
  terminal_count (run_task task bridge_manager w).1.1.1.1 ≤
  match agent (run_task task bridge_manager w).1.1.2 with
  | Some runner =>
      terminal_count
        (queue_of
           (message_queue
              (agent_store (run_task task bridge_manager w).1.2 !!! runner))
           w)
  | None => 0
  end + 1.
Proof.
  intros Hshape. unfold _run_task.
  set (messages := fresh (dom (queues w))).
  assert (queue_of messages w = []) as Hfresh.
  { unfold queue_of.
    by rewrite (not_elem_of_dom_1 (queues w) messages (is_fresh _)). }
  destruct (decode_environments _ _ _) as [[|[primary_force primary] others]|];
    [simpl; change (terminal_count []) with 0; lia|
    |simpl; change (terminal_count []) with 0; lia].
  match goal with
  | |- context [build_environments _ _ _ _ _ messages ?envs ?w0] =>
      pose proof (build_terminals messages envs w0) as [Hbuilt Hother];
      destruct (build_environments EMPTY_MESSAGE_INTERVAL _Q_WAIT_DELAY
                  to_grpc Env create messages envs w0)
        as [[yielded exit] w1]
  end.
  simpl in Hbuilt, Hother. rewrite queue_of_set_queue in Hbuilt.
  change (terminal_count []) with 0 in Hbuilt.
  destruct exit as [[[|primary_path inheritance_paths]|]|];
    [simpl; lia| |simpl; lia|simpl; lia].
  unfold establish.
  destruct (_allocate_new_agent _ _ _ _) as [[runner|exception] self1];
    [|simpl; lia].
  pose proof (dispatch_terminals runner self1 task w1 yielded) as Hdispatch.
  pose proof (dispatch_bridge_manager runner self1 (task, w1, yielded))
    as Hsame.
  pose proof (dispatch_agent runner self1 (task, w1, yielded)) as Hagent.
  destruct (agent_stream_shape_counts _
              (Hshape (stub (agent_store self1 !!! runner))
                 (FunctionCall.mk (BoundFunction.function (request task))
                    (BoundFunction.setup_func (request task)))))
    as [Hone _].
  assert (terminal_count
            (queue_of (message_queue (agent_store self1 !!! runner)) w1) ≤
          terminal_count
            (queue_of (message_queue (agent_store self1 !!! runner)) w))
    as Hleft.
  { destruct (decide (message_queue (agent_store self1 !!! runner)
                      = messages)) as [->|Hq]; [lia|].
    rewrite (Hother _ Hq). unfold queue_of, set_queue. simpl.
    by rewrite lookup_insert_ne. }
  destruct (dispatching runner self1 (task, w1, yielded))
    as [[[exit|] self2] [[task2 w2] yielded2]];
    simpl in *; subst self2; rewrite Hagent; simpl; lia.
Qed.

(** What is yielded carries a result when it is complete, as long as
    what is queued does. *)
Lemma watch_carries_results queue rounds batches w :
  (∀ q, Forall carries_result (queue_of q w)) →
  Forall carries_result (pending w) →
  (∀ q, Forall carries_result (queue_of q (watch queue rounds batches w).2)) ∧
  Forall carries_result (element <$> (watch queue rounds batches w).1.1).
Proof.
  intros Hq Hp.
  enough (((∀ q, Forall carries_result
                   (queue_of q (watch queue rounds batches w).2)) ∧
           Forall carries_result (pending (watch queue rounds batches w).2)) ∧
          Forall carries_result (element <$> (watch queue rounds batches w).1.1))
    as [[? _] ?]; [done|].
  revert Hq Hp.
  apply (watch_rel EMPTY_MESSAGE_INTERVAL _Q_WAIT_DELAY to_grpc queue
           (λ w out w',
              (∀ q, Forall carries_result (queue_of q w)) →
              Forall carries_result (pending w) →
              ((∀ q, Forall carries_result (queue_of q w')) ∧
               Forall carries_result (pending w')) ∧
              Forall carries_result (element <$> out))).
  - intros w0 H1 H2. by repeat split.
  - intros w1 out1 w2 out2 w3 H1 H2 Hq1 Hp1.
    destruct (H1 Hq1 Hp1) as [[Hq2 Hp2] Ho1].
    destruct (H2 Hq2 Hp2) as [[Hq3 Hp3] Ho2].
    split; [done|]. rewrite fmap_app. by apply Forall_app.
  - intros [q' l| |dt] w0 Hq0 Hp0; simpl.
    + split; [|constructor]. split; [|done]. intros q.
      unfold handle, _add_log_to_queue. rewrite queue_of_put_nowait.
      case_decide; [|done]. apply Forall_app. split; [done|].
      constructor; [done|constructor].
    + destruct (pending w0) as [|item rest] eqn:Hpending.
      * split; [|constructor]. by split.
      * inversion Hp0; subst. split; [|constructor]. split; [|done].
        intros q. rewrite queue_of_put_nowait. case_decide; [|apply Hq0].
        apply Forall_app. split; [apply Hq0|]. by constructor.
    + split; [|constructor]. by split.
  - intros w0 item items Hget Hq0 Hp0.
    pose proof (Hq0 queue) as Hall. rewrite Hget in Hall.
    inversion Hall; subst. split; [|by constructor].
    split; [|done]. intros q. destruct (decide (q = queue)) as [->|Hne].
    + by rewrite queue_of_set_queue.
    + unfold queue_of, set_queue. simpl. rewrite lookup_insert_ne by done.
      apply Hq0.
  - intros w0 Hq0 Hp0. split.
    + split; [|done]. intros q. destruct (decide (q = queue)) as [->|Hne].
      * by rewrite queue_of_set_queue.
      * unfold queue_of, set_queue. simpl. rewrite lookup_insert_ne by done.
        apply Hq0.
    + rewrite <- list_fmap_compose.
      replace (element ∘ mkEmission (clock w0) false)
        with (@id PartialRunResult) by done.
      rewrite list_fmap_id. apply Hq0.
  - intros w0 Hq0 Hp0. by repeat split.
  - intros w0 Hq0 Hp0. split; [by split|]. by constructor.
Qed.

Lemma build_carries_results messages environments : ∀ w,
  (∀ q, Forall carries_result (queue_of q w)) →
  (∀ q, Forall carries_result
          (queue_of q (building messages environments w).2)) ∧
  Forall carries_result (building messages environments w).1.1.
Proof.
  induction environments as [|[force environment] rest IH]; intros w Hq;
    simpl; [by split|].
  set (w0 := mkWorld (queues w) [] false (clock w) (put_log w)).
  destruct (watch_carries_results messages
              (build_rounds (create environment force))
              (build_batches (create environment force)) w0)
    as [Hq1 Hout]; [done|constructor|].
  destruct (watch messages _ _ w0) as [[out [|]] w1]; simpl in *; [|done].
  destruct (build_result (create environment force)) as [e|path].
  { by destruct (isinstance e "EnvironmentCreationError"). }
  specialize (IH w1 Hq1).
  destruct (building messages rest w1) as [[out' exit] w2]. simpl in *.
  destruct IH as [Hq2 Hout']. split; [done|]. by apply Forall_app.
Qed.

Lemma run_task_carries_results task bridge_manager w :
  (∀ stub call, agent_stream_shape (agent_stream (bridge_Run stub call))) →
  (∀ q, Forall carries_result (queue_of q w)) →
  Forall carries_result (run_task task bridge_manager w).1.1.1.1.
Proof.
  intros Hshape Hq. unfold _run_task.
  set (messages := fresh (dom (queues w))).
  destruct (decode_environments _ _ _) as [[|[primary_force primary] others]|];
    [constructor| |constructor].
  match goal with
  | |- context [build_environments _ _ _ _ _ messages ?envs ?w0] =>
      destruct (build_carries_results messages envs w0) as [Hq1 Hbuilt];
      [|destruct (build_environments EMPTY_MESSAGE_INTERVAL _Q_WAIT_DELAY
                    to_grpc Env create messages envs w0)
          as [[yielded exit] w1]]
  end.
  { intros q. destruct (decide (q = messages)) as [->|Hne].
    - rewrite queue_of_set_queue. constructor.
    - unfold queue_of, set_queue. simpl. rewrite lookup_insert_ne by done.
      apply Hq. }
  simpl in Hq1, Hbuilt.
  destruct exit as [[[|primary_path inheritance_paths]|]|]; [done| |done|done].
  unfold establish.
  destruct (_allocate_new_agent _ _ _ _) as [[runner|exception] self1];
    [|done].
  unfold dispatch.
  match goal with
  | |- context [watch_queue_until_completed _ _ _ ?q ?rounds ?batches ?w0] =>
      destruct (watch_carries_results q rounds batches w0) as [_ Hout];
      [done| |destruct (watch_queue_until_completed EMPTY_MESSAGE_INTERVAL
                          _Q_WAIT_DELAY to_grpc q rounds batches w0)
                as [[out exited] w2]]
  end.
  { simpl. by apply agent_stream_shape_counts, Hshape. }
  simpl in Hout. destruct exited; simpl.
  - destruct (classify_pump_exception to_grpc _) as [lines exit] eqn:Hclass.
    simpl. apply Forall_app. split; [done|]. apply Forall_app.
    split; [done|]. apply Forall_forall. intros m Hm Hcomplete.
    assert (terminal_count lines = 0) as Hnone.
    { revert Hclass. unfold classify_pump_exception.
      destruct (pump_exception _) as [exception|]; [|by intros [= <- _]].
      destruct (isinstance exception "RpcError"); [by intros [= <- _]|].
      destruct (isinstance exception "AgentError"); intros [= <- _];
        apply terminal_count_logs. }
    exfalso. unfold terminal_count in Hnone.
    apply length_zero_iff_nil in Hnone.
    assert (m ∈ filter (λ m, is_complete m = true) lines) as Hin
      by (by apply list_elem_of_filter).
    rewrite Hnone in Hin. by apply elem_of_nil in Hin.
  - by apply Forall_app.
Qed.

Section AgentOfTheRun.
Variable Obj : Type.
Variable agent_from_grpc : SerializedObject → (Obj * string) + Obj.
Variable callable : Obj → bool.
Variable type_name : Obj → string.
Variable type_repr : Obj → string.
Variable call : Obj → list Obj → (Obj * string) + Obj.
Variable serialize_object : string → Obj → Serialization.
Variable sha256_digest_of : string → string → string.

Local Abbreviation agent_Run :=
  (AgentServicer.Run Obj agent_from_grpc callable type_name type_repr call
     serialize_object sha256_digest_of).

End AgentOfTheRun.
End RunTerminals.

Lemma example_pump_shape exception stub call :
  agent_stream_shape (agent_stream (example_pump exception stub call)).
Proof.
  right. exists terminal_element. split; [done|]. split; [done|].
  split; [by eexists|done].
Qed.

Lemma world_with_leftover_carries_results q :
  Forall carries_result (queue_of q world_with_leftover).
Proof.
  unfold queue_of, world_with_leftover. simpl.
  destruct (decide (q = 5)) as [->|Hne].
  - rewrite lookup_singleton_eq. simpl. constructor; [|constructor].
    intros _. by eexists.
  - rewrite lookup_singleton_ne by done. constructor.
Qed.


Lemma manager_with_pooled_agent_wf : pool_wf manager_with_pooled_agent.
Proof.
  assert (∀ key agent,
            agent ∈ agents_of key manager_with_pooled_agent →
            key = ["/cache/venv"] ∧ agent = 0) as Honly.
  { intros key agent. unfold agents_of, manager_with_pooled_agent. simpl.
    destruct (decide (key = ["/cache/venv"])) as [->|Hne].
    - rewrite lookup_singleton_eq. simpl. intros Hin.
      apply list_elem_of_singleton in Hin. done.
    - rewrite lookup_singleton_ne by done. simpl. by intros ?%elem_of_nil. }
  split; [|split].
  - intros key agent [-> ->]%Honly. by eexists.
  - intros key. unfold agents_of, manager_with_pooled_agent. simpl.
    destruct (decide (key = ["/cache/venv"])) as [->|Hne].
    + rewrite lookup_singleton_eq. simpl. apply NoDup_singleton.
    + rewrite lookup_singleton_ne by done. simpl. constructor.
  - intros key1 key2 agent [-> _]%Honly [-> _]%Honly. done.
Qed.


(** * Further properties *)

(** ** The bridge manager: reuse, eviction, isolation, shutdown *)

Section BridgeManagerFurther.
Variable MAX_GRPC_WAIT_TIMEOUT : Time.

Local Abbreviation allocate := (_allocate_new_agent MAX_GRPC_WAIT_TIMEOUT).

Lemma agents_of_cache_agent connection agent self key :
  agents_of key (_cache_agent connection agent self) =
  if decide (_identify connection = key)
  then agents_of key self ++ [agent] else agents_of key self.
Proof.
  unfold _cache_agent. rewrite agents_of_insert. by case_decide; subst.
Qed.

(** X1. An agent that was pushed back with [_cache_agent] and whose
    last recorded state is [READY] is the one the next allocation for
    the same key returns: no bridge is opened, no agent is terminated
    and every stack is as it was before the agent was pushed. *)
Theorem X1_cached_agent_is_reused (connection connection' : LocalPythonGRPC)
    (queue : nat) (agent : nat) (self : BridgeManager) :
  _identify connection' = _identify connection →
  accessible (agent_store self) agent = true →
  ∃ self',
    allocate connection' queue (_cache_agent connection agent self) =
      (Returned agent, self') ∧
    agent_store self' = agent_store self ∧
    ∀ key, agents_of key self' = agents_of key self.
Proof.
  intros Hkey Hready. eexists. split; [|split].
  - apply (allocate_hit _ _ _ _ (agents_of (_identify connection) self)
             agent []); [| |constructor].
    + rewrite Hkey, agents_of_cache_agent. by rewrite decide_True.
    + done.
  - done.
  - intros key. rewrite Hkey. unfold _cache_agent. simpl.
    rewrite insert_insert_eq, agents_of_insert.
    case_decide; [by subst|]. done.
Qed.

(** X2. An agent that was pushed back and whose last recorded state is
    not [READY] is terminated by the next allocation for its key, which
    then goes on exactly as it would have without that agent in the
    pool. *)
Theorem X2_stale_cached_agent_is_evicted
    (connection connection' : LocalPythonGRPC) (queue : nat) (agent : nat)
    (self : BridgeManager) :
  _identify connection' = _identify connection →
  accessible (agent_store self) agent = false →
  allocate connection' queue (_cache_agent connection agent self) =
  allocate connection' queue
    (mkBridgeManager (alter terminate agent (agent_store self))
       (_agents self)).
Proof.
  intros Hkey Hstale. unfold _allocate_new_agent.
  rewrite Hkey, agents_of_cache_agent, decide_True by done.
  rewrite rev_app_distr. simpl. fold (accessible (agent_store self) agent).
  rewrite Hstale.
  change (agents_of (_identify connection)
            (mkBridgeManager (alter terminate agent (agent_store self))
               (_agents self)))
    with (agents_of (_identify connection) self).
  destruct (pop_accessible _ _) as [[found rest] store].
  by rewrite insert_insert_eq.
Qed.

Lemma allocate_origin connection queue self agent self' :
  allocate connection queue self = (Returned agent, self') →
  agent ∈ agents_of (_identify connection) self ∨
  agent ∉ dom (agent_store self).
Proof.
  destruct (stack_cases (agent_store self)
              (agents_of (_identify connection) self))
    as [(below & a & dead & Hstack & Ha & Hdead)|Hall].
  - rewrite (allocate_hit _ _ _ _ _ _ _ Hstack Ha Hdead).
    intros [= <- _]. left. rewrite Hstack. set_solver.
  - rewrite (allocate_miss _ _ _ _ Hall). simpl.
    destruct (_establish_bridge _ _); [done|].
    intros [= <- _]. right. apply is_fresh.
Qed.

(** X3. Two allocations with no [_cache_agent] in between never hand
    out the same agent, whether for the same key or for different
    ones: an agent that is borrowed cannot be borrowed again. *)
Theorem X3_borrowed_agent_is_not_handed_out_again
    (connection1 connection2 : LocalPythonGRPC) (queue1 queue2 : nat)
    (self self1 self2 : BridgeManager) (agent1 agent2 : nat) :
  pool_wf self →
  allocate connection1 queue1 self = (Returned agent1, self1) →
  allocate connection2 queue2 self1 = (Returned agent2, self2) →
  agent1 ≠ agent2 ∧ pool_wf self2 ∧
  ∀ key, agent1 ∉ agents_of key self2 ∧ agent2 ∉ agents_of key self2.
Proof.
  intros Hwf H1 H2.
  destruct (allocate_wf _ _ _ _ _ _ Hwf H1) as (Hwf1 & Hstored1 & Hfree1).
  destruct (allocate_wf _ _ _ _ _ _ Hwf1 H2) as (Hwf2 & Hstored2 & Hfree2).
  assert (agent1 ≠ agent2) as Hne.
  { intros <-. destruct (allocate_origin _ _ _ _ _ H2) as [Hin|Hnew].
    - by apply Hfree1 in Hin.
    - apply Hnew. by apply elem_of_dom. }
  split; [done|]. split; [done|]. intros key. split; [|apply Hfree2].
  intros Hin. apply (Hfree1 key).
  destruct (decide (key = _identify connection2)) as [->|Hk].
  - destruct (stack_cases (agent_store self1)
                (agents_of (_identify connection2) self1))
      as [(below & a & dead & Hstack & Ha & Hdead)|Hall].
    + rewrite (allocate_hit _ _ _ _ _ _ _ Hstack Ha Hdead) in H2.
      injection H2 as _ <-. rewrite agents_of_insert, decide_True in Hin by done.
      rewrite Hstack. set_solver.
    + rewrite (allocate_miss _ _ _ _ Hall) in H2. simpl in H2.
      destruct (_establish_bridge _ _); [done|]. injection H2 as _ <-.
      rewrite agents_of_insert, decide_True in Hin by done. set_solver.
  - pose proof (allocate_other_key MAX_GRPC_WAIT_TIMEOUT connection2 queue2
                  self1 key Hk) as Hsame.
    rewrite H2 in Hsame. simpl in Hsame. by rewrite <- Hsame.
Qed.
End BridgeManagerFurther.

Lemma pool_wf_new : pool_wf (mkBridgeManager ∅ ∅).
Proof.
  split; [|split].
  - intros key agent Hin. by apply elem_of_nil in Hin.
  - intros key. constructor.
  - intros key1 key2 agent Hin. by apply elem_of_nil in Hin.
Qed.

Lemma X1_cached_agent_is_reused_witness :
  ∃ self',
    _allocate_new_agent 10%Z connection_ab 5
      (_cache_agent connection_ab 0 manager_idle) = (Returned 0, self') ∧
    agent_store self' = agent_store manager_idle ∧
    ∀ key, agents_of key self' = agents_of key manager_idle.
Proof.
  apply (X1_cached_agent_is_reused 10%Z connection_ab connection_ab 5 0
           manager_idle).
  - reflexivity.
  - vm_compute. reflexivity.
Defined.

Lemma X2_stale_cached_agent_is_evicted_witness :
  _allocate_new_agent 10%Z connection_ab 5
    (_cache_agent connection_ab 0 manager_stale) =
  _allocate_new_agent 10%Z connection_ab 5
    (mkBridgeManager (alter terminate 0 (agent_store manager_stale))
       (_agents manager_stale)).
Proof.
  apply (X2_stale_cached_agent_is_evicted 10%Z connection_ab connection_ab 5 0
           manager_stale).
  - reflexivity.
  - vm_compute. reflexivity.
Defined.

Lemma X3_borrowed_agent_is_not_handed_out_again_witness :
  0 ≠ 1 ∧
  pool_wf
    (_allocate_new_agent 10%Z connection_ab 6
       (_allocate_new_agent 10%Z connection_ab 5 (mkBridgeManager ∅ ∅)).2).2 ∧
  ∀ key,
    0 ∉ agents_of key
          (_allocate_new_agent 10%Z connection_ab 6
             (_allocate_new_agent 10%Z connection_ab 5
                (mkBridgeManager ∅ ∅)).2).2 ∧
    1 ∉ agents_of key
          (_allocate_new_agent 10%Z connection_ab 6
             (_allocate_new_agent 10%Z connection_ab 5
                (mkBridgeManager ∅ ∅)).2).2.
Proof.
  apply (X3_borrowed_agent_is_not_handed_out_again 10%Z connection_ab
           connection_ab 5 6 (mkBridgeManager ∅ ∅)
           (_allocate_new_agent 10%Z connection_ab 5 (mkBridgeManager ∅ ∅)).2).
  - apply pool_wf_new.
  - vm_compute. reflexivity.
  - vm_compute. reflexivity.
Defined.

(** ** The task runner and the pool *)

Section TaskRunnerPool.
Variable EMPTY_MESSAGE_INTERVAL : Time.
Variable _Q_WAIT_DELAY : Time.
Variable MAX_GRPC_WAIT_TIMEOUT : Time.
Variable to_grpc : Log → Log.
Variable AGENT_REQUIREMENTS : list string.
Variable INHERIT_FROM_LOCAL : bool.
Variable Env : Type.
Variable from_grpc : EnvironmentDefinition.t → PyException + Env.
Variable python_version : Env → option string.
Variable active_python : string.
Variable VirtualPythonEnvironment : list string → string → Env.
Variable local_environment_path : string.
Variable create : Env → bool → Build.
Variable bridge_factory :
  Env → string → list string → Time → PyException + nat.
Variable bridge_Run : nat → FunctionCall.t → Pump.

Local Abbreviation allocate := (_allocate_new_agent MAX_GRPC_WAIT_TIMEOUT).
Local Abbreviation dispatching :=
  (dispatch EMPTY_MESSAGE_INTERVAL _Q_WAIT_DELAY to_grpc bridge_Run).
Local Abbreviation run_task :=
  (_run_task EMPTY_MESSAGE_INTERVAL _Q_WAIT_DELAY MAX_GRPC_WAIT_TIMEOUT
     to_grpc AGENT_REQUIREMENTS INHERIT_FROM_LOCAL Env from_grpc
     python_version active_python VirtualPythonEnvironment
     local_environment_path create bridge_factory bridge_Run).

Lemma allocate_keeps_wf connection queue self :
  pool_wf self → pool_wf (allocate connection queue self).2.
Proof.
  intros Hwf.
  destruct (allocate connection queue self) as [[agent|exception] self']
    eqn:Halloc.
  - by destruct (allocate_wf _ _ _ _ _ _ Hwf Halloc).
  - destruct (stack_cases (agent_store self)
                (agents_of (_identify connection) self))
      as [(below & a & dead & Hstack & Ha & Hdead)|Hall].
    + by rewrite (allocate_hit _ _ _ _ _ _ _ Hstack Ha Hdead) in Halloc.
    + rewrite (allocate_miss _ _ _ _ Hall) in Halloc. simpl in Halloc.
      destruct (_establish_bridge _ _); [|done]. injection Halloc as _ <-.
      simpl. apply pool_wf_shrink; [done|apply terminate_all_dom|set_solver|].
      constructor.
Qed.

Lemma establish_dispatch_wf connection queue self state :
  pool_wf self →
  pool_wf (establish MAX_GRPC_WAIT_TIMEOUT connection queue dispatching
             self state).1.2.
Proof.
  intros Hwf. unfold establish.
  destruct (allocate connection queue self) as [[agent|exception] self1]
    eqn:Halloc.
  - destruct (allocate_wf _ _ _ _ _ _ Hwf Halloc) as (Hwf1 & Hstored & Hfree).
    pose proof (dispatch_bridge_manager EMPTY_MESSAGE_INTERVAL _Q_WAIT_DELAY
                  to_grpc bridge_Run agent self1 state) as Hsame.
    destruct (dispatching agent self1 state) as [[[exit|] self2] state2];
      simpl in Hsame; subst self2; simpl; [|done].
    by apply cache_agent_wf.
  - pose proof (allocate_keeps_wf connection queue self Hwf) as Hwf1.
    by rewrite Halloc in Hwf1.
Qed.

(** X4. A run keeps the pool well formed (pooled agents exist; no
    agent is pooled twice or under two keys), however it ends and also
    while it is still suspended: in particular the agent it pushes back
    was not in the pool. *)
Theorem X4_run_keeps_pool_well_formed (task : Task)
    (bridge_manager : BridgeManager) (w : World) :
  pool_wf bridge_manager →
  pool_wf (run_task task bridge_manager w).1.2.
Proof.
  intros Hwf. unfold _run_task.
  destruct (decode_environments _ _ _) as [[|[primary_force primary] others]|];
    [done| |done].
  destruct (build_environments _ _ _ _ _ _ _ _) as [[yielded exit] w1].
  destruct exit as [[[|primary_path inheritance_paths]|]|]; [done| |done|done].
  match goal with
  | |- context [establish _ ?c ?q _ _ ?st] =>
      pose proof (establish_dispatch_wf c q bridge_manager st Hwf) as Hwf'
  end.
  destruct (establish _ _ _ _ _ _) as [[exit bridge_manager'] [[task' w2] ys]].
  done.
Qed.

(** X5. When a run has ended and the task was given an agent, all the
    environments were built and that agent is on top of the stack of
    its key: the paths that the builders returned, in their order,
    followed by the local path when [INHERIT_FROM_LOCAL] is set.  The
    agent is never left out of the pool, whether the run ended well or
    with an error. *)
Theorem X5_ended_run_pools_its_agent (task task' : Task)
    (bridge_manager bridge_manager' : BridgeManager) (w w' : World)
    (yielded : list PartialRunResult) (exit : Exit unit) (runner : nat) :
  agent task = None →
  run_task task bridge_manager w =
    (yielded, Some exit, task', bridge_manager', w') →
  agent task' = Some runner →
  ∃ primary others primary_path inheritance_paths,
    decode_environments Env from_grpc
      (BoundFunction.environments (request task)) =
      Returned (primary :: others) ∧
    (build_environments EMPTY_MESSAGE_INTERVAL _Q_WAIT_DELAY to_grpc Env
       create (fresh (dom (queues w)))
       (match AGENT_REQUIREMENTS with
        | [] => primary :: others
        | _ =>
            primary
              :: (false,
                  VirtualPythonEnvironment AGENT_REQUIREMENTS
                    (default active_python (python_version primary.2)))
              :: others
        end)
       (set_queue (fresh (dom (queues w))) [] w)).1.2 =
      Some (Returned (primary_path :: inheritance_paths)) ∧
    last (agents_of
            (primary_path :: inheritance_paths ++
               (if INHERIT_FROM_LOCAL then [local_environment_path] else []))
            bridge_manager') = Some runner.
Proof.
  intros Hnone. unfold _run_task.
  destruct (decode_environments _ _ _) as [[|[primary_force primary] others]|];
    [intros [= _ _ <- _ _]; congruence|
    |intros [= _ _ <- _ _]; congruence].
  intros Hrun Hrunner. exists (primary_force, primary), others.
  assert (∀ (l : list string),
    match l with
    | [] => (primary_force, primary) :: others
    | _ :: _ =>
        (primary_force, primary)
          :: (false,
              VirtualPythonEnvironment l
                (default active_python (python_version primary)))
          :: others
    end =
    match l with
    | [] => (primary_force, primary) :: others
    | _ :: _ =>
        (primary_force, primary)
          :: (false,
              VirtualPythonEnvironment l
                (default active_python
                   (python_version (primary_force, primary).2)))
          :: others
    end) as Hsame by done.
  rewrite <- Hsame. clear Hsame. revert Hrun Hrunner.
  destruct (build_environments _ _ _ _ _ _ _ _) as [[ys ex] w1].
  destruct ex as [[[|primary_path inheritance_paths]|]|];
    [intros [= _ _ <- _ _]; congruence| |intros [= _ _ <- _ _]; congruence
    |done].
  unfold establish.
  destruct (allocate _ _ _) as [[a|exception] self1] eqn:Halloc;
    [|intros [= _ _ <- _ _]; congruence].
  match goal with
  | |- context [dispatch _ _ _ _ ?a ?bm ?st] =>
      pose proof (dispatch_bridge_manager EMPTY_MESSAGE_INTERVAL _Q_WAIT_DELAY
                    to_grpc bridge_Run a bm st) as Hsame;
      pose proof (dispatch_agent EMPTY_MESSAGE_INTERVAL _Q_WAIT_DELAY
                    to_grpc bridge_Run a bm st) as Hagent
  end.
  destruct (dispatch _ _ _ _ _ _ _) as [[[ex|] self2] [[task2 w2] ys2]];
    [|done].
  simpl in Hsame, Hagent. subst self2.
  intros [= _ _ <- <- _] Hrunner.
  exists primary_path, inheritance_paths.
  split; [done|]. split; [done|].
  rewrite agents_of_cache_agent, decide_True by done.
  rewrite last_snoc. congruence.
Qed.
End TaskRunnerPool.

Lemma X5_ended_run_pools_its_agent_witness :
  ∃ primary others primary_path inheritance_paths,
    decode_environments string example_from_grpc [venv] =
      Returned (primary :: others) ∧
    (build_environments 600000%Z 100%Z id string example_create
       (fresh (dom (queues (mkWorld ∅ [] false 0%Z []))))
       (primary :: others)
       (set_queue (fresh (dom (queues (mkWorld ∅ [] false 0%Z [])))) []
          (mkWorld ∅ [] false 0%Z []))).1.2 =
      Some (Returned (primary_path :: inheritance_paths)) ∧
    last (agents_of (primary_path :: inheritance_paths ++ [])
            (example_run_task (Some agent_error) [venv]).1.2) = Some 0.
Proof.
  pose (r := example_run_task (Some agent_error) [venv]).
  apply (X5_ended_run_pools_its_agent 600000%Z 100%Z 10%Z id [] false string
           example_from_grpc (λ _, None) "3.11" (λ _ _, "agent-env") "/usr"
           example_create (λ _ _ _ _, inr 7) (example_pump (Some agent_error))
           (mkTask (BoundFunction.mk [venv] a_result None) None None)
           r.1.1.2 (mkBridgeManager ∅ ∅) r.1.2 (mkWorld ∅ [] false 0%Z []) r.2
           r.1.1.1.1 (Raised (GRPCException "agent died" ABORTED)) 0).
  - reflexivity.
  - vm_compute. reflexivity.
  - vm_compute. reflexivity.
Defined.

Lemma X4_run_keeps_pool_well_formed_witness :
  pool_wf (example_run_task None [venv]).1.2.
Proof.
  apply (X4_run_keeps_pool_well_formed 600000%Z 100%Z 10%Z id [] false string
           example_from_grpc (λ _, None) "3.11" (λ _ _, "agent-env") "/usr"
           example_create (λ _ _ _ _, inr 7) (example_pump None)).
  apply pool_wf_new.
Defined.

(** ** Leaving the bridge manager *)

Lemma foldr_alter_terminate_lookup (agents : list nat)
    (store : gmap nat RunnerAgent) (agent : nat) :
  foldr (alter terminate) store agents !! agent =
  if decide (agent ∈ agents) then terminate <$> store !! agent
  else store !! agent.
Proof.
  induction agents as [|a agents IH]; simpl.
  - done.
  - destruct (decide (agent = a)) as [->|Hne].
    + rewrite lookup_alter_eq, IH, (decide_True (P := a ∈ a :: agents))
        by set_solver.
      case_decide; [|done]. by destruct (store !! a).
    + rewrite lookup_alter_ne, IH by done.
      case_decide; [rewrite decide_True by set_solver|
                    rewrite decide_False by set_solver]; done.
Qed.

Lemma elem_of_concat {A : Type} (x : A) (ls : list (list A)) :
  x ∈ concat ls ↔ ∃ l, l ∈ ls ∧ x ∈ l.
Proof.
  induction ls as [|l ls IH]; simpl.
  - split; [by intros ?%elem_of_nil|]. by intros (l & ?%elem_of_nil & _).
  - rewrite elem_of_app, IH. split.
    + intros [Hx|(l' & Hl' & Hx)]; [exists l|exists l']; set_solver.
    + intros (l' & [->|Hl']%elem_of_cons & Hx); [by left|].
      right. by exists l'.
Qed.

Lemma pooled_somewhere (self : BridgeManager) (agent : nat) :
  agent ∈ concat (map_to_list (_agents self)).*2 ↔
  ∃ key, agent ∈ agents_of key self.
Proof.
  rewrite elem_of_concat. split.
  - intros (stack & Hstack & Hin).
    apply list_elem_of_fmap in Hstack as ([key stack'] & -> & Hkey).
    apply elem_of_map_to_list in Hkey. exists key. unfold agents_of.
    by rewrite Hkey.
  - intros (key & Hin). unfold agents_of in Hin.
    destruct (_agents self !! key) as [stack|] eqn:Hkey;
      [|by apply elem_of_nil in Hin].
    exists stack. split; [|done]. apply list_elem_of_fmap.
    exists (key, stack). split; [done|]. by apply elem_of_map_to_list.
Qed.

(** X6. Leaving the bridge manager terminates every agent that is in
    the pool, and only those: an agent that is borrowed at that moment
    is left as it is.  The stacks are not emptied and no connectivity
    history changes, so an agent whose last state was [READY] still
    counts as accessible afterwards. *)
Theorem X6_exit_terminates_the_pooled_agents (self : BridgeManager) :
  _agents (bridge_manager_exit self) = _agents self ∧
  (∀ key agent, agent ∈ agents_of key self →
     agent_store (bridge_manager_exit self) !! agent =
     terminate <$> agent_store self !! agent) ∧
  (∀ agent, (∀ key, agent ∉ agents_of key self) →
     agent_store (bridge_manager_exit self) !! agent =
     agent_store self !! agent) ∧
  (∀ agent, accessible (agent_store (bridge_manager_exit self)) agent =
            accessible (agent_store self) agent).
Proof.
  split; [done|]. split; [|split].
  - intros key agent Hin. unfold bridge_manager_exit. simpl.
    rewrite foldr_alter_terminate_lookup, decide_True; [done|].
    apply pooled_somewhere. by exists key.
  - intros agent Hfree. unfold bridge_manager_exit. simpl.
    rewrite foldr_alter_terminate_lookup, decide_False; [done|].
    intros (key & Hin)%pooled_somewhere. by apply (Hfree key).
  - intros agent. unfold accessible, bridge_manager_exit. simpl.
    rewrite foldr_alter_terminate_lookup. case_decide; [|done].
    by destruct (agent_store self !! agent).
Qed.

(** ** The drainer: other queues, the pump, the number of empty packets *)

Lemma queue_of_set_queue_ne queue queue' items w :
  queue ≠ queue' →
  queue_of queue' (set_queue queue items w) = queue_of queue' w.
Proof.
  intros Hne. unfold queue_of, set_queue. simpl.
  by rewrite lookup_insert_ne.
Qed.

Section DrainerFurther.
Variable EMPTY_MESSAGE_INTERVAL : Time.
Variable _Q_WAIT_DELAY : Time.
Variable to_grpc : Log → Log.

Local Abbreviation watch :=
  (watch_queue_until_completed EMPTY_MESSAGE_INTERVAL _Q_WAIT_DELAY to_grpc).

Lemma untouched_refl queue w : untouched queue w w.
Proof. exists []. by rewrite !app_nil_r. Qed.

Lemma untouched_trans queue w1 w2 w3 :
  untouched queue w1 w2 → untouched queue w2 w3 → untouched queue w1 w3.
Proof.
  intros (new1 & Hp1 & Hq1) (new2 & Hp2 & Hq2). exists (new1 ++ new2).
  by rewrite Hp2, Hp1, Hq2, Hq1, !app_assoc.
Qed.

Lemma untouched_put_nowait queue queue' item w :
  untouched queue' w (put_nowait queue item w).
Proof.
  exists (if decide (queue = queue') then [item] else []).
  rewrite items_put_put_nowait, queue_of_put_nowait.
  case_decide; by rewrite ?app_nil_r.
Qed.

Lemma watch_untouched queue queue' rounds batches w :
  queue ≠ queue' →
  untouched queue' w (watch queue rounds batches w).2.
Proof.
  intros Hne.
  apply (watch_rel EMPTY_MESSAGE_INTERVAL _Q_WAIT_DELAY to_grpc queue
           (λ w _ w', untouched queue' w w')).
  - apply untouched_refl.
  - intros w1 _ w2 _ w3. apply untouched_trans.
  - intros [q l| |dt] w0; simpl.
    + apply untouched_put_nowait.
    + destruct (pending w0) as [|item rest];
        [exists []; by rewrite !app_nil_r|].
      apply (untouched_put_nowait queue queue' item
               (mkWorld (queues w0) rest (done w0) (clock w0) (put_log w0))).
    + exists []. by rewrite !app_nil_r.
  - intros w0 item items _. exists [].
    by rewrite queue_of_set_queue_ne, !app_nil_r.
  - intros w0. exists []. by rewrite queue_of_set_queue_ne, !app_nil_r.
  - intros w0. exists []. by rewrite !app_nil_r.
  - intros w0. apply untouched_refl.
Qed.

(** X7. The drainer of one queue takes nothing from any other queue:
    when it stops, or is left suspended, another queue holds what it
    held at the start followed by everything that was put on it in the
    meantime, in the order of the puts. *)
Theorem X7_drainer_leaves_other_queues_alone (queue queue' : nat)
    (rounds : list Round) (batches : list (list Event)) (w : World) :
  queue ≠ queue' →
  ∃ new,
    items_put queue' (watch queue rounds batches w).2 =
      items_put queue' w ++ new ∧
    queue_of queue' (watch queue rounds batches w).2 =
      queue_of queue' w ++ new.
Proof. apply watch_untouched. Qed.

Lemma forwarded_refl queue w : forwarded queue w w.
Proof. split; [done|]. exists [], []. by rewrite !app_nil_r. Qed.

Lemma forwarded_trans queue w1 w2 w3 :
  forwarded queue w1 w2 → forwarded queue w2 w3 → forwarded queue w1 w3.
Proof.
  intros (Hi1 & moved1 & new1 & Hm1 & Hp1 & Hs1)
         (Hi2 & moved2 & new2 & Hm2 & Hp2 & Hs2).
  split; [auto|]. exists (moved1 ++ moved2), (new1 ++ new2).
  split; [|split].
  - by rewrite Hm1, Hm2, app_assoc.
  - by rewrite Hp2, Hp1, app_assoc.
  - by apply sublist_app.
Qed.

Lemma forwarded_put_nowait queue queue' item w :
  forwarded queue w (put_nowait queue' item w).
Proof.
  split; [done|].
  exists [], (if decide (queue' = queue) then [item] else []).
  rewrite items_put_put_nowait. split; [done|]. split.
  - case_decide; by rewrite ?app_nil_r.
  - apply sublist_nil_l.
Qed.

Lemma watch_forwarded queue rounds batches w :
  forwarded queue w (watch queue rounds batches w).2.
Proof.
  apply (watch_rel EMPTY_MESSAGE_INTERVAL _Q_WAIT_DELAY to_grpc queue
           (λ w _ w', forwarded queue w w')).
  - apply forwarded_refl.
  - intros w1 _ w2 _ w3. apply forwarded_trans.
  - intros [q l| |dt] w0; simpl.
    + apply forwarded_put_nowait.
    + destruct (pending w0) as [|item rest] eqn:Hpending.
      * split; [done|]. exists [], []. simpl.
        by rewrite Hpending, !app_nil_r.
      * split.
        { simpl. intros Hinv Hdone. apply Hinv in Hdone. congruence. }
        exists [item], [item]. rewrite items_put_put_nowait.
        rewrite decide_True by done. simpl. rewrite Hpending.
        split; [done|]. split; [done|]. done.
    + split; [done|]. exists [], []. by rewrite !app_nil_r.
  - intros w0 item items _. split; [done|]. exists [], [].
    by rewrite !app_nil_r.
  - intros w0. split; [done|]. exists [], []. by rewrite !app_nil_r.
  - intros w0. split; [done|]. exists [], []. by rewrite !app_nil_r.
  - intros w0. apply forwarded_refl.
Qed.

(** X8. When the drainer returns, the callable it watched has put
    everything it had to put, and all of it was yielded, in the order
    in which [_proxy_to_queue] read it from the agent: no element of
    the agent's stream is lost or reordered on the way to the
    client. *)
Theorem X8_pump_is_forwarded_completely (queue : nat)
    (rounds : list Round) (batches : list (list Event)) (w : World)
    (out : list Emission) (w' : World) :
  done w = false →
  watch queue rounds batches w = (out, true, w') →
  pending w' = [] ∧ sublist (pending w) (real_elements out).
Proof.
  intros Hrunning Hwatch.
  pose proof (watch_forwarded queue rounds batches w) as Hfw.
  rewrite Hwatch in Hfw. simpl in Hfw.
  destruct Hfw as (Hinv & moved & new & Hmoved & Hput & Hsub).
  assert (done w' = true ∧
          ∃ new', items_put queue w' = items_put queue w ++ new' ∧
                  real_elements out = queue_of queue w ++ new')
    as (Hdone & new' & Hput' & Hout).
  { revert Hwatch. unfold watch_queue_until_completed.
    destruct (watch_loop _ _ _ queue (clock w) rounds w)
      as [[out1 [|]] w1] eqn:Hloop; [|done].
    destruct (clear_final_messages _ queue batches w1) as [out2 w2] eqn:Hclear.
    intros [= <- <-].
    apply watch_loop_spec in Hloop as [Hd1 Hdone].
    apply clear_final_messages_spec in Hclear as (Hd2 & Hempty & Hkeep & _).
    split; [by apply Hkeep, Hdone|].
    destruct (drained_trans _ _ _ _ _ _ Hd1 Hd2) as (new' & Hput' & Hq).
    exists new'. split; [done|]. by rewrite Hempty, app_nil_r in Hq. }
  assert (pending w' = []) as Hempty.
  { apply Hinv; [|done]. congruence. }
  split; [done|].
  rewrite Hempty, app_nil_r in Hmoved. subst moved.
  rewrite Hput in Hput'. apply app_inv_head in Hput'. subst new'.
  rewrite Hout. by apply sublist_inserts_l.
Qed.

Lemma spaced_count (interval since until : Time) (times : list Time) :
  (0 ≤ interval)%Z → (since ≤ until)%Z →
  spaced interval since times →
  Forall (λ t, (t ≤ until)%Z) times →
  (Z.of_nat (length times) * interval ≤ until - since)%Z.
Proof.
  intros Hpos. revert since. induction times as [|t times IH];
    intros since Hle Hspaced Hbound; simpl length.
  - lia.
  - destruct Hspaced as [Hgap Hspaced].
    apply Forall_cons in Hbound as [Ht Hbound].
    specialize (IH t Ht Hspaced Hbound). lia.
Qed.

Lemma watch_timed queue rounds batches w :
  (0 ≤ _Q_WAIT_DELAY)%Z →
  timed w (watch queue rounds batches w).1.1 (watch queue rounds batches w).2.
Proof.
  intros Hdelay.
  apply (watch_rel EMPTY_MESSAGE_INTERVAL _Q_WAIT_DELAY to_grpc queue timed).
  - intros w0. split; [done|constructor].
  - intros w1 out1 w2 out2 w3 [Hc1 Ht1] [Hc2 Ht2]. split; [lia|].
    apply Forall_app. split; [|done].
    eapply Forall_impl; [exact Ht1|]. simpl. intros e He. lia.
  - intros e w0. split; [|constructor].
    apply (apply_events_clock to_grpc queue [e] w0).
  - intros w0 item items _. split; [done|]. by repeat constructor.
  - intros w0. split; [done|]. apply Forall_forall.
    intros e (item & -> & _)%list_elem_of_fmap. done.
  - intros w0. split; [simpl; lia|constructor].
  - intros w0. split; [done|]. by repeat constructor.
Qed.

(** X9. The drainer makes up fewer empty packets than the time it
    ran divided by [EMPTY_MESSAGE_INTERVAL]: the packets it made up,
    times the interval, fit between the clock at the call and the
    clock when it stopped. *)
Theorem X9_empty_packets_are_bounded_by_elapsed_time (queue : nat)
    (rounds : list Round) (batches : list (list Event)) (w : World) :
  (0 ≤ _Q_WAIT_DELAY)%Z → (0 ≤ EMPTY_MESSAGE_INTERVAL)%Z →
  (Z.of_nat (length (synthetic_times (watch queue rounds batches w).1.1))
     * EMPTY_MESSAGE_INTERVAL
   ≤ clock (watch queue rounds batches w).2 - clock w)%Z.
Proof.
  intros Hdelay Hinterval.
  destruct (watch_timed queue rounds batches w Hdelay) as [Hclock Htimes].
  apply spaced_count; [done|done| |].
  - pose proof (watch_loop_keep_alive EMPTY_MESSAGE_INTERVAL _Q_WAIT_DELAY
                  to_grpc queue (clock w) rounds w) as [Hs _].
    unfold watch_queue_until_completed.
    destruct (watch_loop _ _ _ queue (clock w) rounds w)
      as [[out1 [|]] w1]; [|done].
    destruct (clear_final_messages _ queue batches w1) as [out2 w2] eqn:Hclear.
    apply clear_final_messages_spec in Hclear as (_ & _ & _ & Hreal).
    simpl. by rewrite synthetic_times_app_real.
  - unfold synthetic_times. apply Forall_fmap.
    apply Forall_forall. intros e [_ He]%list_elem_of_filter.
    rewrite Forall_forall in Htimes. by apply Htimes.
Qed.
End DrainerFurther.

Lemma X7_drainer_leaves_other_queues_alone_witness :
  ∃ new,
    items_put 1
      (watch_queue_until_completed 600000%Z 100%Z id 0 log_after_terminal []
         world_before_dispatch).2 =
      items_put 1 world_before_dispatch ++ new ∧
    queue_of 1
      (watch_queue_until_completed 600000%Z 100%Z id 0 log_after_terminal []
         world_before_dispatch).2 =
      queue_of 1 world_before_dispatch ++ new.
Proof.
  apply (X7_drainer_leaves_other_queues_alone 600000%Z 100%Z id 0 1). lia.
Defined.

Lemma X8_pump_is_forwarded_completely_witness :
  pending
    (watch_queue_until_completed 600000%Z 100%Z id 0 log_after_terminal []
       world_before_dispatch).2 = [] ∧
  sublist (pending world_before_dispatch)
    (real_elements
       (watch_queue_until_completed 600000%Z 100%Z id 0 log_after_terminal []
          world_before_dispatch).1.1).
Proof.
  apply (X8_pump_is_forwarded_completely 600000%Z 100%Z id 0
           log_after_terminal [] world_before_dispatch).
  - reflexivity.
  - vm_compute. reflexivity.
Defined.

Lemma X9_empty_packets_are_bounded_by_elapsed_time_witness :
  (Z.of_nat
     (length
        (synthetic_times
           (watch_queue_until_completed 600000%Z 100%Z id 0 busy_then_idle []
              (mkWorld ∅ [] false 0%Z [])).1.1))
     * 600000
   ≤ clock
       (watch_queue_until_completed 600000%Z 100%Z id 0 busy_then_idle []
          (mkWorld ∅ [] false 0%Z [])).2 - 0)%Z.
Proof.
  apply (X9_empty_packets_are_bounded_by_elapsed_time 600000%Z 100%Z id 0
           busy_then_idle [] (mkWorld ∅ [] false 0%Z [])); lia.
Defined.

(** ** The agent: how the RPC ends, and the cache of set-up results *)

Section AgentFurther.
Variable Obj : Type.
Variable from_grpc : SerializedObject → (Obj * string) + Obj.
Variable callable : Obj → bool.
Variable type_name : Obj → string.
Variable type_repr : Obj → string.
Variable call : Obj → list Obj → (Obj * string) + Obj.
Variable serialize_object : string → Obj → Serialization.
Variable sha256_digest_of : string → string → string.

Local Abbreviation agent_execute :=
  (AgentServicer.execute_function Obj from_grpc callable type_name call).
Local Abbreviation agent_send :=
  (AgentServicer.send_object Obj type_repr serialize_object).
Local Abbreviation agent_run_function :=
  (AgentServicer.run_function Obj from_grpc callable type_name type_repr call
     serialize_object).
Local Abbreviation agent_Run :=
  (AgentServicer.Run Obj from_grpc callable type_name type_repr call
     serialize_object sha256_digest_of).

Lemma send_object_fields serialization_method value raised stringized_tb
    packet :
  agent_send serialization_method value raised stringized_tb = inr packet →
  ∃ object, result packet = Some object ∧
            method object = serialization_method ∧
            was_it_raised object = raised ∧
            stringized_traceback object = stringized_tb.
Proof.
  unfold AgentServicer.send_object.
  destruct (serialize_object serialization_method value); [|done|done].
  intros [= <-]. simpl. by eauto.
Qed.

Lemma run_function_end request extra_args _run_cache stream rpc_end cache' :
  agent_run_function request extra_args _run_cache =
    (stream, rpc_end, cache') →
  cache' = _run_cache ∧
  match rpc_end with
  | Completed =>
      ∃ packet object, stream = [packet] ∧ is_complete packet = true ∧
        result packet = Some object ∧
        method object = method (FunctionCall.function request)
  | Aborted code details => code = INVALID_ARGUMENT ∧ stream = []
  end.
Proof.
  unfold AgentServicer.run_function.
  destruct (agent_execute _ _ _) as [message|[[value raised] stringized_tb]];
    [by intros [= <- <- <-]|].
  destruct (agent_send _ value raised stringized_tb) as [message|packet]
    eqn:Hsend; [by intros [= <- <- <-]|].
  intros [= <- <- <-]. split; [done|].
  destruct (send_object_fields _ _ _ _ _ Hsend) as (object & Hr & Hm & _).
  exists packet, object. split; [done|]. split; [|done].
  by eapply send_object_terminal.
Qed.

(** X10. How the agent's RPC ends tells what it yielded.  A completed
    RPC yielded exactly one element, complete, whose result is
    serialized with the method of the function of the request (an
    exception raised by the user's function is such a result, not an
    abort).  An aborted RPC has the status [INVALID_ARGUMENT], and it
    yielded nothing, or else the one element that carries the
    exception raised by the set-up function. *)
Theorem X10_agent_end_tells_the_stream (request : FunctionCall.t)
    (_run_cache : gmap string Obj) :
  match (agent_Run request _run_cache).1.2 with
  | Completed =>
      ∃ packet object,
        (agent_Run request _run_cache).1.1 = [packet] ∧
        is_complete packet = true ∧ result packet = Some object ∧
        method object = method (FunctionCall.function request)
  | Aborted code details =>
      code = INVALID_ARGUMENT ∧
      ((agent_Run request _run_cache).1.1 = [] ∨
       ∃ setup_func packet object,
         FunctionCall.setup_func request = Some setup_func ∧
         details = "The setup function has thrown an error." ∧
         (agent_Run request _run_cache).1.1 = [packet] ∧
         is_complete packet = true ∧ result packet = Some object ∧
         method object = method setup_func ∧ was_it_raised object = true)
  end.
Proof.
  assert (∀ extra_args cache,
    match (agent_run_function request extra_args cache).1.2 with
    | Completed =>
        ∃ packet object,
          (agent_run_function request extra_args cache).1.1 = [packet] ∧
          is_complete packet = true ∧ result packet = Some object ∧
          method object = method (FunctionCall.function request)
    | Aborted code details =>
        code = INVALID_ARGUMENT ∧
        ((agent_run_function request extra_args cache).1.1 = [] ∨
         ∃ setup_func packet object,
           FunctionCall.setup_func request = Some setup_func ∧
           details = "The setup function has thrown an error." ∧
           (agent_run_function request extra_args cache).1.1 = [packet] ∧
           is_complete packet = true ∧ result packet = Some object ∧
           method object = method setup_func ∧ was_it_raised object = true)
    end) as Hfunction.
  { intros extra_args cache.
    destruct (agent_run_function request extra_args cache)
      as [[stream rpc_end] cache'] eqn:Hrun.
    apply run_function_end in Hrun as [_ Hend]. simpl.
    destruct rpc_end as [|code details]; [done|].
    destruct Hend as [-> ->]. by split; [|left]. }
  unfold AgentServicer.Run.
  destruct (FunctionCall.setup_func request) as [setup_func|] eqn:Hsetup;
    [|apply Hfunction].
  destruct (_run_cache !! _) as [cached|]; [apply Hfunction|].
  destruct (agent_execute setup_func _ _)
    as [message|[[value raised] stringized_tb]]; [by split; [|left]|].
  destruct raised; [|apply Hfunction].
  destruct (agent_send _ value true stringized_tb) as [message|packet]
    eqn:Hsend; [by split; [|left]|].
  simpl. split; [done|]. right.
  destruct (send_object_fields _ _ _ _ _ Hsend) as (object & Hr & Hm & Hw & _).
  exists setup_func, packet, object.
  split; [done|]. split; [done|]. split; [done|].
  split; [by eapply send_object_terminal|]. done.
Qed.

Lemma run_function_cache request extra_args _run_cache :
  (agent_run_function request extra_args _run_cache).2 = _run_cache.
Proof.
  destruct (agent_run_function request extra_args _run_cache)
    as [[stream rpc_end] cache'] eqn:Hrun.
  by apply run_function_end in Hrun as [-> _].
Qed.

(** X11. The cache of set-up results only grows, and only at the key
    of the set-up function of the request.  After a run that reached
    the function itself the result of its set-up function is cached,
    and a later run with the same set-up function does not execute it
    again: it runs its function on the cached result and leaves the
    cache as it is.  A set-up function that fails is not cached. *)
Theorem X11_setup_result_is_cached_once (request : FunctionCall.t)
    (_run_cache : gmap string Obj) :
  _run_cache ⊆ (agent_Run request _run_cache).2 ∧
  (FunctionCall.setup_func request = None →
   (agent_Run request _run_cache).2 = _run_cache) ∧
  (∀ setup_func,
     FunctionCall.setup_func request = Some setup_func →
     let cache_key :=
       sha256_digest_of (definition setup_func) (method setup_func) in
     (∀ key, key ≠ cache_key →
        (agent_Run request _run_cache).2 !! key = _run_cache !! key) ∧
     ((agent_Run request _run_cache).1.2 = Completed →
      ∃ cached,
        (agent_Run request _run_cache).2 !! cache_key = Some cached ∧
        ∀ request',
          FunctionCall.setup_func request' = Some setup_func →
          agent_Run request' (agent_Run request _run_cache).2 =
          agent_run_function request' [cached]
            (agent_Run request _run_cache).2) ∧
     ((∃ code details,
         (agent_Run request _run_cache).1.2 = Aborted code details ∧
         (agent_Run request _run_cache).1.1 ≠ []) →
      (agent_Run request _run_cache).2 = _run_cache)).
Proof.
  assert (∀ cache cached setup_func request',
    FunctionCall.setup_func request' = Some setup_func →
    cache !! sha256_digest_of (definition setup_func) (method setup_func)
      = Some cached →
    agent_Run request' cache = agent_run_function request' [cached] cache)
    as Hhit.
  { intros cache cached setup_func request' Hsetup Hcached.
    unfold AgentServicer.Run. by rewrite Hsetup, Hcached. }
  destruct (agent_Run request _run_cache) as [[stream rpc_end] cache']
    eqn:Hrun.
  simpl. unfold AgentServicer.Run in Hrun.
  destruct (FunctionCall.setup_func request) as [setup_func|] eqn:Hsetup.
  2:{ apply run_function_end in Hrun as [-> _]. done. }
  destruct (_run_cache !! _) as [cached|] eqn:Hcached.
  { apply run_function_end in Hrun as [-> _].
    split; [done|]. split; [done|].
    intros ? [= <-]. split; [done|]. split; [|done].
    intros _. exists cached. split; [done|]. intros request' Hsetup'.
    by apply Hhit with setup_func. }
  destruct (agent_execute setup_func _ _)
    as [message|[[value raised] stringized_tb]].
  { injection Hrun as <- <- <-. split; [done|]. split; [done|].
    intros ? [= <-]. split; [done|]. split; [done|]. done. }
  destruct raised.
  { destruct (agent_send _ value true stringized_tb) as [message|packet];
      injection Hrun as <- <- <-; (split; [done|]); (split; [done|]);
      intros ? [= <-]; (split; [done|]); (split; [done|]); done. }
  apply run_function_end in Hrun as [-> Hshape].
  split; [by apply insert_subseteq|]. split; [done|].
  intros ? [= <-]. split; [|split].
  - intros key Hne. by rewrite lookup_insert_ne.
  - intros _. exists value. split; [by rewrite lookup_insert_eq|].
    intros request' Hsetup'. apply Hhit with setup_func; [done|].
    by rewrite lookup_insert_eq.
  - intros (code & details & -> & Hstream). by destruct Hshape as [_ ->].
Qed.
End AgentFurther.

(** ** Background tasks: how [Cancel] ends, and what [Submit] leaves *)

(** X12. [Cancel] of a registered task ends in one of two ways.  It
    returns its empty response, and then the future of the task is
    [FINISHED]: the handler does not return while the task is still
    running.  Or it fails with the [CancelledError] that
    [future.exception] raises, and then the future is cancelled.  It
    ends in no other way. *)
Theorem X12_cancel_returns_after_the_task_or_raises (task_id : string)
    (batch : list WorkerEvent) (schedule : list (list WorkerEvent))
    (self self1 : IsolateServicer) (t f : nat) (outcome : Outcome) :
  background_tasks (worker_events batch self) !! task_id = Some t →
  task_future self t f →
  Cancel task_id (batch :: schedule) self = Some (outcome, self1) →
  (outcome = CancelResponse ∧ state_of self1 f = Some FINISHED) ∨
  (outcome = Raises CancelledError ∧ cancelled self1 f).
Proof.
  intros Hl Htf. unfold Cancel. simpl. rewrite Hl. intros Hrun.
  apply (task_cancel_outcome schedule (Task_cancel_177 t ReturnToCancel)
           (worker_events batch self) t f); [by left| |done].
  by apply worker_events_task_future.
Qed.

(** X13. When the worker has not taken the task by the time
    [Task.cancel] calls [future.cancel()], the future is cancelled on
    the spot and [Cancel] fails with [CancelledError] at its first
    [future.exception], whatever the workers do in between: the
    handler of [Cancel] does not catch it.  ([Cancel] takes five steps
    for it: the look-up, the two parts of [future.cancel()], line 178
    and [future.exception].) *)
Theorem X13_cancel_of_a_pending_task_raises (task_id : string)
    (batch1 batch2 batch3 batch4 batch5 : list WorkerEvent)
    (schedule : list (list WorkerEvent)) (self : IsolateServicer)
    (t f : nat) :
  background_tasks (worker_events batch1 self) !! task_id = Some t →
  task_future self t f →
  state_of (worker_events batch2 (worker_events batch1 self)) f
    = Some PENDING →
  ∃ self1,
    Cancel task_id
      (batch1 :: batch2 :: batch3 :: batch4 :: batch5 :: schedule) self =
      Some (Raises CancelledError, self1) ∧
    cancelled self1 f.
Proof.
  intros Hl Htf Hpending.
  destruct (cancel_pending task_id batch1 batch2 batch3 batch4 batch5
              schedule self t f Hl Htf Hpending) as (self1 & Hrun & Hc & _).
  by exists self1.
Qed.

Lemma X12_cancel_returns_after_the_task_or_raises_witness :
  (CancelResponse = CancelResponse ∧
   state_of
     (worker_events [set_agent 0 5; set_result 0]
        (worker_events [set_running_or_notify_cancel 0]
           servicer_after_submit)) 0 = Some FINISHED) ∨
  (CancelResponse = Raises CancelledError ∧
   cancelled
     (worker_events [set_agent 0 5; set_result 0]
        (worker_events [set_running_or_notify_cancel 0]
           servicer_after_submit)) 0).
Proof.
  apply (X12_cancel_returns_after_the_task_or_raises "task-1"
           [set_running_or_notify_cancel 0]
           [[]; []; []; [set_agent 0 5; set_result 0]]
           servicer_after_submit _ 0 0 CancelResponse).
  - vm_compute. reflexivity.
  - apply servicer_after_submit_task_future.
  - vm_compute. reflexivity.
Defined.

Lemma X13_cancel_of_a_pending_task_raises_witness :
  ∃ self1,
    Cancel "task-1" [[]; []; [set_running_or_notify_cancel 0]; []; []]
      servicer_after_submit = Some (Raises CancelledError, self1) ∧
    cancelled self1 0.
Proof.
  apply (X13_cancel_of_a_pending_task_raises "task-1" [] []
           [set_running_or_notify_cancel 0] [] [] [] servicer_after_submit
           0 0).
  - vm_compute. reflexivity.
  - apply servicer_after_submit_task_future.
  - vm_compute. reflexivity.
Defined.

(** X14. [Submit] cannot fail: after its four steps it answers with
    the task id, whatever the workers do in between, and the task it
    made is new and has a future of the pool.  The callback that takes
    the id out of the registry is never lost: when [Submit] returns,
    the id is out of the registry already (the future was done when
    the callback was added), or it is registered to the new task and
    the callback is on the future. *)
Theorem X14_submit_answers_and_keeps_its_callback (req : BoundFunction.t)
    (task_id : string) (batch1 batch2 batch3 batch4 : list WorkerEvent)
    (schedule : list (list WorkerEvent)) (self : IsolateServicer) :
  ∃ self' t f,
    Submit req task_id (batch1 :: batch2 :: batch3 :: batch4 :: schedule)
      self = Some (SubmitResponse task_id, self') ∧
    task_store self !! t = None ∧
    task_future self' t f ∧
    (background_tasks self' !! task_id = None ∨
     background_tasks self' !! task_id = Some t ∧
     ∃ fut, future_store self' !! f = Some fut ∧
            task_id ∈ _done_callbacks fut).
Proof.
  unfold Submit.
  (* line 321 *)
  set (s1 := worker_events batch1 self).
  set (t := fresh (dom (task_store s1))).
  set (s1' := with_task t (mkTask req None None) s1).
  rewrite (run_handler_cons batch1 _ (Submit_321 req task_id) self
             (Submit_322 t task_id) s1'); [|done|done].
  (* line 322 *)
  assert (is_Some (task_store (worker_events batch2 s1') !! t)) as [task2 Ht2].
  { apply worker_events_known. unfold s1'. simpl.
    rewrite lookup_insert_eq. by eexists. }
  set (s2 := worker_events batch2 s1') in *.
  set (f := fresh (dom (future_store s2))).
  set (s2' := with_task t (mkTask (request task2) (Some f) (agent task2))
                (with_future f (mkFuture PENDING None []) s2)).
  rewrite (run_handler_cons batch2 _ (Submit_322 t task_id) s1'
             (Submit_330 t task_id) s2').
  2: done.
  2:{ cbn [thread_step]. fold s2.
      change (task_store (with_future (fresh (dom (future_store s2)))
                            (mkFuture PENDING None []) s2))
        with (task_store s2).
      by rewrite Ht2. }
  assert (task_future s2' t f) as Htf2.
  { split; simpl.
    - eexists. by rewrite lookup_insert_eq.
    - rewrite lookup_insert_eq. by eexists. }
  (* line 330 *)
  pose proof (worker_events_task_future batch3 s2' t f Htf2) as Htf3.
  set (s3 := worker_events batch3 s2') in *.
  set (s3' := with_tasks (<[task_id := t]> (background_tasks s3)) s3).
  rewrite (run_handler_cons batch3 _ (Submit_330 t task_id) s2'
             (Submit_336 t task_id) s3'); [|done|done].
  assert (task_future s3' t f) as Htf3' by done.
  (* line 336 *)
  pose proof (worker_events_task_future batch4 s3' t f Htf3') as Htf4.
  pose proof (worker_events_registry batch4 s3') as Hsub4.
  set (s4 := worker_events batch4 s3') in *.
  pose proof Htf4 as [(task4 & Ht4 & Hf4) [fut4 Hfut4]].
  rewrite (run_handler_cons batch4 _ (Submit_336 t task_id) s3'
             (Finished (SubmitResponse task_id))
             (add_done_callback f task_id s4)).
  2: done.
  2:{ cbn [thread_step]. fold s4. rewrite Ht4. simpl. by rewrite Hf4. }
  exists (add_done_callback f task_id s4), t, f.
  split; [by destruct schedule|]. split; [|split].
  - destruct (task_store self !! t) as [task|] eqn:Hknown; [|done].
    assert (is_Some (task_store s1 !! t)) as [task1 Ht1].
    { apply worker_events_known. by eexists. }
    unfold t in Ht1. by rewrite fresh_task_unknown in Ht1.
  - unfold add_done_callback. rewrite Hfut4.
    destruct (is_terminal (_state fut4)); [done|].
    split; simpl; [by eauto|]. rewrite lookup_insert_eq. by eexists.
  - unfold add_done_callback. rewrite Hfut4.
    destruct (is_terminal (_state fut4)); simpl.
    + left. by rewrite lookup_delete_eq.
    + destruct (background_tasks s4 !! task_id) as [t'|] eqn:Hl; [|by left].
      right. apply (lookup_weaken _ _ _ _ Hl) in Hsub4.
      unfold s3' in Hsub4. simpl in Hsub4.
      rewrite lookup_insert_eq in Hsub4. injection Hsub4 as <-.
      split; [done|]. eexists. rewrite lookup_insert_eq. split; [done|].
      simpl. set_solver.
Qed.

(** ** The agent of the server package *)

Section ServerAgentProperties.
Variable Obj : Type.
Variable peer : string.
Variable from_grpc : SerializedObject → (PyException * string) + Obj.
Variable callable : Obj → bool.
Variable type_name : Obj → string.
Variable call : Obj → Obj + Obj.
Variable to_grpc :
  Obj → string → bool → (PyException * string) + SerializedObject.

Local Abbreviation server_agent_Run :=
  (ServerAgent.Run Obj peer from_grpc callable type_name call to_grpc).

Lemma server_agent_log_elements message level source :
  Forall log_element (ServerAgent.log message level source).
Proof. by repeat constructor. Qed.

Ltac log_lines :=
  eexists; split; [|split];
  [| |first [reflexivity | split; reflexivity]];
  [by repeat constructor|reflexivity].

(** X15. The agent of the server package yields log lines and then, at
    most, one complete element: every element but the last carries one
    log line and no result, the first one reports the connection, and
    a complete element is yielded, last, exactly when the RPC ends
    without a status being set.  When the agent sets a status it is
    [INVALID_ARGUMENT], and then no complete element was yielded; an
    exception raised by the function does not make it set one. *)
Theorem X15_server_agent_logs_then_result (request : SerializedObject) :
  ∃ lines,
    Forall log_element lines ∧
    head lines =
      Some (mkPartialRunResult false
              [mkLog ("A connection has been established: " +:+ peer +:+ "!")
                 TRACE BRIDGE] None) ∧
    match (server_agent_Run request).2 with
    | RunReturned =>
        ∃ serialized_result,
          (server_agent_Run request).1 =
            lines ++ [mkPartialRunResult true [] (Some serialized_result)]
    | RunAborted code details =>
        code = INVALID_ARGUMENT ∧ (server_agent_Run request).1 = lines
    | RunCrashed exception => (server_agent_Run request).1 = lines
    end.
Proof.
  unfold ServerAgent.Run.
  destruct (was_it_raised request); [log_lines|].
  destruct (from_grpc request) as [[exc format_exc]|function].
  { destruct (isinstance exc "SerializationError"); simpl; log_lines. }
  destruct (callable function); simpl; [|log_lines].
  destruct (call function) as [exc|value];
    match goal with |- context [to_grpc ?r ?m ?b] =>
      destruct (to_grpc r m b) as [[exc' format_exc]|serialized_result] end;
    try destruct (isinstance exc' "SerializationError"); simpl;
    try log_lines.
  all: eexists [_; _; _; _]; split; [|split];
       [| |eexists; reflexivity]; [by repeat constructor|reflexivity].
Qed.
End ServerAgentProperties.

(** ** The controller's polling loop *)

Section PollUntilResult.
Context {Obj : Type}.

(** X16. [poll_until_result] is decided by the first poll that is not
    idle, and looks at nothing after it; while every poll is idle the
    loop keeps turning.  When that poll finds the process gone the
    call raises [OSError], also when a result is waiting on the
    connection, and the message holds the unfilled placeholder, not the
    exit code.  Otherwise the received object is returned, or raised
    when it came marked as raised. *)
Theorem X16_first_busy_poll_decides (waiting : list (Poll Obj))
    (p : Poll Obj) (rest : list (Poll Obj)) :
  Forall idle waiting →
  poll_until_result waiting = None ∧
  poll_until_result (waiting ++ p :: rest) =
    match returncode p, received p with
    | Some code, _ =>
        Some (OSErrorRaised
                "The isolated process has exited unexpectedly with code '{}'.")
    | None, Some (result, true) => Some (ResultRaised result)
    | None, Some (result, false) => Some (ResultReturned result)
    | None, None => poll_until_result rest
    end.
Proof.
  intros Hidle. induction Hidle as [|q waiting [Hcode Hdata] _ IH]; simpl.
  - split; [done|]. destruct (returncode p); [done|].
    by destruct (received p) as [[result []]|].
  - by rewrite Hcode, Hdata.
Qed.
End PollUntilResult.

Lemma X16_first_busy_poll_decides_witness :
  poll_until_result [mkPoll None None; mkPoll None (@None (string * bool))]
    = None ∧
  poll_until_result
    ([mkPoll None None; mkPoll None None] ++
       mkPoll (Some 1%Z) (Some ("42", false)) ::
       [mkPoll None (Some ("42", false))]) =
    Some (OSErrorRaised
            "The isolated process has exited unexpectedly with code '{}'.").
Proof.
  apply (X16_first_busy_poll_decides
           [mkPoll None None; mkPoll None None]
           (mkPoll (Some 1%Z) (Some ("42", false)))
           [mkPoll None (Some ("42", false))]).
  by repeat constructor.
Defined.

(** ** [cache_static] *)

Section CacheStaticProperties.
Context {State A : Type}.
Variable func : State → Exit A * State.

Lemma wrapper_calls_hit between value s :
  wrapper_calls State A func between (Some value) s =
    (replicate (length between) (Returned value),
     (Some value, foldl (λ s (change : State → State), change s) s between)).
Proof.
  revert s. induction between as [|change between IH]; intros s; [done|].
  simpl. by rewrite IH.
Qed.

(** X17. A function wrapped by [cache_static] is executed until it
    returns for the first time, and never again: a call of the wrapper
    that finds the cache filled returns the cached value and runs
    nothing, so over any series of calls the wrapper raises what the
    function raises until one call returns, and from that call on
    every call returns the same value.  A call that raises caches
    nothing. *)
Theorem X17_cache_static_runs_until_first_success
    (between : list (State → State)) (_function_cache : option A) (s : State) :
  (∀ value,
     _function_cache = Some value →
     wrapper_calls State A func between _function_cache s =
       (replicate (length between) (Returned value),
        (Some value, foldl (λ s (change : State → State), change s) s between))) ∧
  ∃ failures hits,
    (wrapper_calls State A func between _function_cache s).1 =
      (Raised <$> failures) ++ hits ∧
    match (wrapper_calls State A func between _function_cache s).2.1 with
    | Some value => hits = replicate (length hits) (Returned value)
    | None => hits = [] ∧ _function_cache = None
    end.
Proof.
  split.
  { intros value ->. apply wrapper_calls_hit. }
  revert _function_cache s.
  induction between as [|change between IH]; intros cache s.
  { exists [], []. simpl. split; [done|]. by destruct cache. }
  destruct cache as [value|].
  { rewrite wrapper_calls_hit. exists [], (replicate (S (length between)) (Returned value)).
    simpl. split; [done|]. by rewrite length_replicate. }
  simpl. destruct (func (change s)) as [[value|exception] s'].
  - rewrite wrapper_calls_hit. simpl.
    exists [], (Returned value :: replicate (length between) (Returned value)).
    split; [done|]. simpl. by rewrite length_replicate.
  - destruct (IH None s') as (failures & hits & Hexits & Hcache).
    destruct (wrapper_calls State A func between None s') as [exits final].
    simpl in *. exists (exception :: failures), hits.
    split; [by rewrite Hexits|]. done.
Qed.
End CacheStaticProperties.

Lemma X17_cache_static_runs_until_first_success_witness :
  ∃ failures hits,
    (wrapper_calls nat nat fails_once [id; id; id] None 0).1 =
      (Raised <$> failures) ++ hits ∧
    match (wrapper_calls nat nat fails_once [id; id; id] None 0).2.1 with
    | Some value => hits = replicate (length hits) (Returned value)
    | None => hits = [] ∧ @None nat = None
    end.
Proof.
  apply (X17_cache_static_runs_until_first_success fails_once [id; id; id]
           None 0).
Defined.

(** ** The task runner: building, and whose queue is drained *)

Section TaskRunnerBuild.
Variable EMPTY_MESSAGE_INTERVAL : Time.
Variable _Q_WAIT_DELAY : Time.
Variable MAX_GRPC_WAIT_TIMEOUT : Time.
Variable to_grpc : Log → Log.
Variable AGENT_REQUIREMENTS : list string.
Variable INHERIT_FROM_LOCAL : bool.
Variable Env : Type.
Variable from_grpc : EnvironmentDefinition.t → PyException + Env.
Variable python_version : Env → option string.
Variable active_python : string.
Variable VirtualPythonEnvironment : list string → string → Env.
Variable local_environment_path : string.
Variable create : Env → bool → Build.
Variable bridge_factory :
  Env → string → list string → Time → PyException + nat.
Variable bridge_Run : nat → FunctionCall.t → Pump.

Local Abbreviation building :=
  (build_environments EMPTY_MESSAGE_INTERVAL _Q_WAIT_DELAY to_grpc Env create).
Local Abbreviation dispatching :=
  (dispatch EMPTY_MESSAGE_INTERVAL _Q_WAIT_DELAY to_grpc bridge_Run).
Local Abbreviation run_task :=
  (_run_task EMPTY_MESSAGE_INTERVAL _Q_WAIT_DELAY MAX_GRPC_WAIT_TIMEOUT
     to_grpc AGENT_REQUIREMENTS INHERIT_FROM_LOCAL Env from_grpc
     python_version active_python VirtualPythonEnvironment
     local_environment_path create bridge_factory bridge_Run).

(** X18. The environments are built in the order of the list, and the
    paths come back in that order, one for each environment.  The
    first builder that fails ends the loop: the environments after it
    are not built, and the run fails with the builder's message and
    [INVALID_ARGUMENT] when the exception is an
    [EnvironmentCreationError], and with the exception itself
    otherwise. *)
Theorem X18_environments_are_built_in_order (messages : nat)
    (environments : list (bool * Env)) (w : World) :
  match (building messages environments w).1.2 with
  | Some (Returned environment_paths) =>
      Forall2 (λ environment path,
                 build_result (create environment.2 environment.1) = inr path)
        environments environment_paths
  | Some (Raised exception) =>
      ∃ built failed rest exc,
        environments = built ++ failed :: rest ∧
        Forall (λ environment,
                  ∃ path, build_result (create environment.2 environment.1)
                          = inr path) built ∧
        build_result (create failed.2 failed.1) = inl exc ∧
        exception =
          (if isinstance exc "EnvironmentCreationError"
           then GRPCException (exc_str exc) INVALID_ARGUMENT
           else Uncaught exc)
  | None =>
      ∃ built rest,
        environments = built ++ rest ∧ rest ≠ [] ∧
        Forall (λ environment,
                  ∃ path, build_result (create environment.2 environment.1)
                          = inr path) built
  end.
Proof.
  revert w. induction environments as [|[force environment] rest IH];
    intros w; simpl; [constructor|].
  destruct (watch_queue_until_completed _ _ _ _ _ _ _) as [[out []] w1];
    simpl.
  2:{ exists [], ((force, environment) :: rest). by repeat split. }
  destruct (build_result (create environment force)) as [exc|path] eqn:Hbuild.
  { destruct (isinstance exc "EnvironmentCreationError") eqn:Hkind; simpl;
      exists [], (force, environment), rest, exc;
      (split; [done|]); (split; [constructor|]); (split; [done|]);
      by rewrite Hkind. }
  specialize (IH w1).
  destruct (building messages rest w1) as [[out' exit] w2]. simpl in *.
  destruct exit as [[paths|exception]|].
  - by constructor.
  - destruct IH as (built & failed & rest' & exc & -> & Hbuilt & Hfail & ->).
    exists ((force, environment) :: built), failed, rest', exc.
    split; [done|]. split; [|done]. constructor; [by exists path|done].
  - destruct IH as (built & rest' & -> & Hrest & Hbuilt).
    exists ((force, environment) :: built), rest'.
    split; [done|]. split; [done|]. constructor; [by exists path|done].
Qed.

(** X19. A run goes to the bridge manager only after every
    environment is built: when the manager is not as it was, or the
    task has been given an agent, the environments of the request
    were decoded and all of them, with the agent's own environment
    when [AGENT_REQUIREMENTS] asks for one, were built. *)
Theorem X19_no_agent_before_all_is_built (task : Task)
    (bridge_manager : BridgeManager) (w : World) :
  (run_task task bridge_manager w).1.2 ≠ bridge_manager ∨
  agent (run_task task bridge_manager w).1.1.2 ≠ agent task →
  ∃ primary others paths,
    decode_environments Env from_grpc
      (BoundFunction.environments (request task)) =
      Returned (primary :: others) ∧
    (building (fresh (dom (queues w)))
       (match AGENT_REQUIREMENTS with
        | [] => primary :: others
        | _ =>
            primary
              :: (false,
                  VirtualPythonEnvironment AGENT_REQUIREMENTS
                    (default active_python (python_version primary.2)))
              :: others
        end)
       (set_queue (fresh (dom (queues w))) [] w)).1.2 =
      Some (Returned paths).
Proof.
  unfold _run_task.
  destruct (decode_environments _ _ _) as [[|[primary_force primary] others]|];
    [by intros [?|?]| |by intros [?|?]].
  intros Hchanged. exists (primary_force, primary), others.
  assert (∀ (l : list string),
    match l with
    | [] => (primary_force, primary) :: others
    | _ :: _ =>
        (primary_force, primary)
          :: (false,
              VirtualPythonEnvironment l
                (default active_python (python_version primary)))
          :: others
    end =
    match l with
    | [] => (primary_force, primary) :: others
    | _ :: _ =>
        (primary_force, primary)
          :: (false,
              VirtualPythonEnvironment l
                (default active_python
                   (python_version (primary_force, primary).2)))
          :: others
    end) as Hsame by done.
  rewrite <- Hsame. clear Hsame.
  destruct (build_environments _ _ _ _ _ _ _ _) as [[yielded exit] w1].
  destruct exit as [[[|primary_path inheritance_paths]|]|];
    simpl in Hchanged; try (by destruct Hchanged).
  by eexists.
Qed.

Lemma untouched_same_queues queue w0 w w' :
  queues w0 = queues w → put_log w0 = put_log w →
  untouched queue w0 w' → untouched queue w w'.
Proof.
  intros Hq Hp (new & Hput & Hqueue). exists new.
  unfold items_put, queue_of in *. by rewrite <- Hq, <- Hp.
Qed.

(** X20. While the call runs, the run drains the queue its agent was
    made with and no other: whatever is put on another queue in the
    meantime, such as the logs of this run's own queue when the agent
    comes from the pool and was made for an earlier run, is still
    there when the call has ended, and was not yielded. *)
Theorem X20_dispatch_drains_the_queue_of_the_agent (runner : nat)
    (bridge_manager : BridgeManager) (task : Task) (w : World)
    (yielded : list PartialRunResult) (queue : nat) :
  queue ≠ message_queue (agent_store bridge_manager !!! runner) →
  ∃ new,
    items_put queue
      (dispatching runner bridge_manager (task, w, yielded)).2.1.2 =
      items_put queue w ++ new ∧
    queue_of queue
      (dispatching runner bridge_manager (task, w, yielded)).2.1.2 =
      queue_of queue w ++ new.
Proof.
  intros Hne. unfold dispatch.
  match goal with
  | |- context [watch_queue_until_completed _ _ _ ?q ?rounds ?batches ?w0] =>
      pose proof (watch_untouched EMPTY_MESSAGE_INTERVAL _Q_WAIT_DELAY to_grpc
                    q queue rounds batches w0 (not_eq_sym Hne)) as Hun;
      destruct (watch_queue_until_completed EMPTY_MESSAGE_INTERVAL
                  _Q_WAIT_DELAY to_grpc q rounds batches w0)
        as [[out exited] w1]
  end.
  simpl in Hun. apply (untouched_same_queues queue _ w) in Hun; [|done|done].
  destruct exited; [destruct (classify_pump_exception _ _)|]; exact Hun.
Qed.
End TaskRunnerBuild.

Lemma X19_no_agent_before_all_is_built_witness :
  ∃ primary others paths,
    decode_environments string example_from_grpc [venv] =
      Returned (primary :: others) ∧
    (build_environments 600000%Z 100%Z id string example_create
       (fresh (dom (queues (mkWorld ∅ [] false 0%Z []))))
       (primary :: others)
       (set_queue (fresh (dom (queues (mkWorld ∅ [] false 0%Z [])))) []
          (mkWorld ∅ [] false 0%Z []))).1.2 =
      Some (Returned paths).
Proof.
  apply (X19_no_agent_before_all_is_built 600000%Z 100%Z 10%Z id [] false
           string example_from_grpc (λ _, None) "3.11" (λ _ _, "agent-env")
           "/usr" example_create (λ _ _ _ _, inr 7) (example_pump None)
           (mkTask (BoundFunction.mk [venv] a_result None) None None)
           (mkBridgeManager ∅ ∅) (mkWorld ∅ [] false 0%Z [])).
  right. vm_compute. discriminate.
Defined.

Lemma X20_dispatch_drains_the_queue_of_the_agent_witness :
  ∃ new,
    items_put 1
      (dispatch 600000%Z 100%Z id
         (λ _ _, mkPump [terminal_element] None
                   [mkRound [LogHook 1 late_log; Producer] [] [];
                    mkRound [Producer] [] []] [])
         0 manager_idle
         (mkTask example_request None None, mkWorld ∅ [] false 0%Z [], [])).2.1.2 =
      items_put 1 (mkWorld ∅ [] false 0%Z []) ++ new ∧
    queue_of 1
      (dispatch 600000%Z 100%Z id
         (λ _ _, mkPump [terminal_element] None
                   [mkRound [LogHook 1 late_log; Producer] [] [];
                    mkRound [Producer] [] []] [])
         0 manager_idle
         (mkTask example_request None None, mkWorld ∅ [] false 0%Z [], [])).2.1.2 =
      queue_of 1 (mkWorld ∅ [] false 0%Z []) ++ new.
Proof.
  apply (X20_dispatch_drains_the_queue_of_the_agent 600000%Z 100%Z id
           (λ _ _, mkPump [terminal_element] None
                     [mkRound [LogHook 1 late_log; Producer] [] [];
                      mkRound [Producer] [] []] [])
           0 manager_idle (mkTask example_request None None)
           (mkWorld ∅ [] false 0%Z []) [] 1).
  vm_compute. discriminate.
Defined.

Section DecodeEnvironments.
Variable Env : Type.
Variable from_grpc : EnvironmentDefinition.t → PyException + Env.

(** X21. Decoding keeps the environments of the request in their
    order, each with the [force] flag of its definition, so the first
    definition gives the primary environment; and it fails only when
    [from_grpc] rejects one of the definitions. *)
Theorem X21_decoding_keeps_order_and_force
    (definitions : list EnvironmentDefinition.t) :
  match decode_environments Env from_grpc definitions with
  | Returned environments =>
      Forall2 (λ definition environment,
                 environment.1 = EnvironmentDefinition.force definition ∧
                 from_grpc definition = inr environment.2)
        definitions environments
  | Raised exception =>
      ∃ definition exc,
        definition ∈ definitions ∧ from_grpc definition = inl exc
  end.
Proof.
  induction definitions as [|definition definitions IH]; simpl;
    [constructor|].
  destruct (from_grpc definition) as [exc|environment] eqn:Hdecode.
  { assert (∃ d e, d ∈ definition :: definitions ∧ from_grpc d = inl e)
      as Hrejected.
    { exists definition, exc. split; [set_solver|done]. }
    destruct (isinstance exc "ValueError"); [done|].
    by destruct (isinstance exc "TypeError"). }
  destruct (decode_environments Env from_grpc definitions)
    as [environments|exception].
  - by constructor.
  - destruct IH as (d & e & Hin & Hd). exists d, e. split; [set_solver|done].
Qed.
End DecodeEnvironments.
